(** * Deez Nuts: the related-artist chain downloader

    A shallow embedding of [Deez Nuts.py]: the URL gate ([is_valid_url]),
    the artist tree ([ArtistNode]), the traversal driver
    ([SpotifyDeezerWildChainDownloader.run]), the per-artist worker
    ([process_artist]) and the relative-selection heuristic
    ([get_wildly_different_artists]).

    Python objects live in an arena ([heap]) and are referred to by
    address, so that a node reached from the queue and from its parent's
    [children] list is one and the same object.  The catalog services, the
    downloader subprocess and the random number generator are not part of
    the program: what they answer is supplied from outside, as an
    environment record per invocation. *)

From Stdlib Require Import ZArith Ascii String Lia.
From stdpp Require Import base decidable option list strings gmap sets pretty.

Local Open Scope string_scope.
Local Open Scope list_scope.
Local Open Scope Z_scope.

(** ** Strings as Python has them *)

Module PyStr.

  (** Characters are code points below 256. *)
Definition code (c : ascii) : N := N_of_ascii c.

Definition is_lower (c : ascii) : bool := ((97 <=? code c) && (code c <=? 122))%N.
Definition is_upper (c : ascii) : bool := ((65 <=? code c) && (code c <=? 90))%N.
Definition is_digit (c : ascii) : bool := ((48 <=? code c) && (code c <=? 57))%N.
Definition is_ascii_alpha (c : ascii) : bool := is_lower c || is_upper c.

  (** [str.isalnum] on the code points from 128 to 255: the letters of
      Latin-1 (all of 192 to 255 but the multiplication and division
      signs, the two ordinal indicators and the micro sign), the
      superscript digits and the three vulgar fractions. *)
Definition is_latin1_alnum (c : ascii) : bool :=
    ((code c =? 170) || (code c =? 178) || (code c =? 179) || (code c =? 181)
     || (code c =? 185) || (code c =? 186)
     || ((188 <=? code c) && (code c <=? 190))
     || ((192 <=? code c) && (code c <=? 214))
     || ((216 <=? code c) && (code c <=? 246))
     || ((248 <=? code c) && (code c <=? 255)))%N.

  (** [\w] of the [re] module on a [str] pattern: alphanumeric in
      Unicode's sense, or the underscore. *)
Definition is_word (c : ascii) : bool :=
    is_ascii_alpha c || is_digit c || Ascii.eqb c "_" || is_latin1_alnum c.

Definition lower_char (c : ascii) : ascii :=
    if is_upper c then ascii_of_N (code c + 32) else c.

Fixpoint lower (s : string) : string :=
    match s with
    | EmptyString => EmptyString
    | String c s' => String (lower_char c) (lower s')
    end.

Fixpoint all_chars (p : ascii -> bool) (s : string) : bool :=
    match s with
    | EmptyString => true
    | String c s' => p c && all_chars p s'
    end.

Fixpoint has_char (c : ascii) (s : string) : bool :=
    match s with
    | EmptyString => false
    | String d s' => Ascii.eqb c d || has_char c s'
    end.

  (** [s.lstrip(chars)] for a character class. *)
Fixpoint lstrip (p : ascii -> bool) (s : string) : string :=
    match s with
    | EmptyString => EmptyString
    | String c s' => if p c then lstrip p s' else s
    end.

  (** Removing every occurrence of the characters of a class, as the chain
      of [s.replace(b, "")] does for single characters. *)
Fixpoint remove_chars (p : ascii -> bool) (s : string) : string :=
    match s with
    | EmptyString => EmptyString
    | String c s' => if p c then remove_chars p s' else String c (remove_chars p s')
    end.

  (** The longest prefix made of characters of a class, and what follows. *)
Fixpoint span (p : ascii -> bool) (s : string) : string * string :=
    match s with
    | EmptyString => (EmptyString, EmptyString)
    | String c s' =>
        if p c then let '(a, b) := span p s' in (String c a, b)
        else (EmptyString, s)
    end.

  (** [s.startswith(p)], returning the rest. *)
Fixpoint strip_prefix (p s : string) : option string :=
    match p, s with
    | EmptyString, _ => Some s
    | String a p', String b s' => if Ascii.eqb a b then strip_prefix p' s' else None
    | String _ _, EmptyString => None
    end.

  (** [d in s]: [d] occurs in [s] as a contiguous substring. *)
Fixpoint contains (d s : string) : bool :=
    match strip_prefix d s with
    | Some _ => true
    | None =>
        match s with
        | EmptyString => false
        | String _ s' => contains d s'
        end
    end.

Definition nonempty (s : string) : bool :=
    match s with EmptyString => false | String _ _ => true end.

End PyStr.

(** ** [urllib.parse.urlparse], as far as [is_valid_url] looks at it

    The standard library's [urlsplit] is followed for the two fields the
    program reads, [scheme] and [netloc].  A [None] stands for the
    [ValueError] that [urlsplit] raises. *)

Section UrlParse.

  (** [_check_bracketed_netloc] validates a bracketed (IPv6 or IPvFuture)
      host through the [ipaddress] module; [false] means it raises. *)
Variable check_bracketed_netloc : string -> bool.

Record ParseResult := mkParse { scheme : string; netloc : string }.

Definition is_c0_or_space (c : ascii) : bool := (PyStr.code c <=? 32)%N.

Definition is_unsafe_byte (c : ascii) : bool :=
    (PyStr.code c =? 9)%N || (PyStr.code c =? 13)%N || (PyStr.code c =? 10)%N.

Definition is_scheme_char (c : ascii) : bool :=
    PyStr.is_ascii_alpha c || PyStr.is_digit c
    || Ascii.eqb c "+" || Ascii.eqb c "-" || Ascii.eqb c ".".

Definition not_colon (c : ascii) : bool := negb (Ascii.eqb c ":").

Definition is_netloc_end (c : ascii) : bool :=
    Ascii.eqb c "/" || Ascii.eqb c "?" || Ascii.eqb c "#".

  (** [i = url.find(':')] and the [for ... else] that accepts the scheme:
      the result is the scheme (empty when none is split off) and the rest
      of the URL. *)
Definition split_scheme (url : string) : string * string :=
    let '(before, after) := PyStr.span not_colon url in
    match before, after with
    | String c0 _, String _ rest =>
        if PyStr.is_ascii_alpha c0 && PyStr.all_chars is_scheme_char before
        then (PyStr.lower before, rest)
        else (EmptyString, url)
    | _, _ => (EmptyString, url)
    end.

  (** [_splitnetloc(url, 2)] after [url[:2] == '//']. *)
Definition split_netloc (url : string) : string :=
    match PyStr.strip_prefix "//" url with
    | Some rest => fst (PyStr.span (fun c => negb (is_netloc_end c)) rest)
    | None => EmptyString
    end.

Definition urlparse (url0 : string) : option ParseResult :=
    let url := PyStr.remove_chars is_unsafe_byte (PyStr.lstrip is_c0_or_space url0) in
    let '(sch, rest) := split_scheme url in
    let nl := split_netloc rest in
    let lb := PyStr.has_char "[" nl in
    let rb := PyStr.has_char "]" nl in
    if (lb && negb rb) || (rb && negb lb) then None
    else if lb && rb && negb (check_bracketed_netloc nl) then None
    else Some (mkParse sch nl).

  (** [is_valid_url(url, allowed_domains)] *)
Definition is_valid_url (url : string) (allowed_domains : list string) : bool :=
    match urlparse url with
    | Some result =>
        (PyStr.nonempty (scheme result) && PyStr.nonempty (netloc result))
        && existsb (fun domain => PyStr.contains domain (netloc result)) allowed_domains
    | None => false
    end.

End UrlParse.

(** ** [re.search(r'artist/(\w+)', link).group(1)]

    The leftmost place where [artist/] is followed by at least one word
    character; the group is the longest run of word characters there.
    [None] stands for [re.search] returning [None]. *)

Fixpoint search_artist_id (s : string) : option string :=
  match PyStr.strip_prefix "artist/" s with
  | Some rest =>
      match fst (PyStr.span PyStr.is_word rest) with
      | EmptyString =>
          match s with
          | EmptyString => None
          | String _ s' => search_artist_id s'
          end
      | g => Some g
      end
  | None =>
      match s with
      | EmptyString => None
      | String _ s' => search_artist_id s'
      end
  end.

(** ** Data model *)

(** Python objects are referred to by their address in the arena. *)
Definition addr := nat.

(** [class ArtistNode] *)
Record ArtistNode := mkNode {
  spotify_id : string;
  name : string;
  children : list addr;
  depth : Z;
  downloaded : bool;
  deezer_id : option Z;
}.

(** [ArtistNode(spotify_id, name, depth)] *)
Definition new_ArtistNode (id nm : string) (d : Z) : ArtistNode :=
  mkNode id nm [] d false None.

(** An artist object of the source catalog (the dict that [sp.artist] and
    the related-artists list give), and one of the target catalog. *)
Record SpotifyArtist := mkSp { sp_id : string; sp_name : string; sp_genres : list string }.
Record DeezerArtist := mkDz { dz_id : Z; dz_name : string }.

Global Instance SpotifyArtist_eq_dec : EqDecision SpotifyArtist.
Proof. solve_decision. Defined.

(** The outcome of a call that may raise; the message is [str(e)]. *)
Inductive result (A : Type) : Type :=
  | Ok (a : A)
  | Raise (msg : string).
Arguments Ok {A} a.
Arguments Raise {A} msg.

(** What the program does to the outside: the five callbacks handed to the
    downloader thread, the log file, and the calls to the collaborators. *)
Inductive event :=
  | Output (text : string)                          (* output_callback *)
  | Progress (value : Z) (artist_name : string)     (* progress_callback *)
  | ArtistFinished (label : string) (success : bool) (* artist_finished_callback *)
  | TreeUpdated (root : option addr)                (* tree_updated_callback *)
  | Finished                                        (* finished_callback *)
  | LogError (text : string)                        (* logging.error *)
  | CallArtist (id : string)                        (* sp.artist *)
  | CallRelated (id : string)                       (* sp.artist_related_artists *)
  | CallSearch (artist_name : string)               (* dz.search_artist *)
  | CallDeezerArtist (id : Z)                       (* dz.get_artist *)
  | CallDeemix (batch_file : string)                (* subprocess.Popen + wait *)
  | RemoveFile (path : string).                     (* os.remove *)

Global Instance event_eq_dec : EqDecision event.
Proof. solve_decision. Defined.

(** The constructor arguments of [SpotifyDeezerWildChainDownloader] that
    the traversal reads ([album_types] and [max_retries] are stored and
    never read). *)
Record Config := mkConfig {
  spotify_link : string;
  output_dir : string;
  max_artists : Z;
  max_concurrent : Z;
  wild_branching : bool;
  wildly_different : bool;
  max_depth : Z;
  related_limit : Z;
}.

(** The mutable fields of the downloader object, the arena, and the trace
    of events so far (oldest first). *)
Record State := mkState {
  processed_artists : gset string;
  artist_queue : list addr;
  root_node : option addr;
  processed_genres : gset string;
  batch_files : list string;
  is_running : bool;
  heap : list ArtistNode;
  trace : list event;
}.

(** [__init__] *)
Definition init_state : State :=
  mkState ∅ [] None ∅ [] true [] [].

(** What the collaborators answer during one invocation.  A catalog gives
    the same answer to the same question within one invocation; the two
    lists of numbers are the draws of the random number generator. *)
Record Env := mkEnv {
  sp_artist : string -> result SpotifyArtist;
  sp_related : string -> result (list SpotifyArtist);
  dz_search : string -> result (list DeezerArtist);
  dz_get_artist : Z -> result DeezerArtist;
  fs_prepare : string -> result unit;     (* makedirs, open, write *)
  deemix : string -> result unit;         (* Popen, wait *)
  fs_remove : string -> result unit;      (* os.remove *)
  rnd_shuffle : list nat;
  rnd_sample : list nat;
  path_join : string -> string -> string;     (* os.path.join *)
  bracketed_host_ok : string -> bool;         (* urllib's _check_bracketed_netloc *)
}.

(** ** The [random] module *)

Module PyRandom.

  (** [k] draws without replacement: each draw picks a position of what is
      left of the pool. *)
Fixpoint draw {A} (rnd : list nat) (pool : list A) (k : nat) : list A :=
    match k with
    | O => []
    | S k' =>
        match pool with
        | [] => []
        | x0 :: _ =>
            let i := (hd O rnd mod length pool)%nat in
            nth i pool x0 :: draw (tl rnd) (delete i pool) k'
        end
    end.

  (** [random.sample(pool, k)]: [ValueError] when [k] is negative or
      larger than the population. *)
Definition sample {A} (rnd : list nat) (pool : list A) (k : Z) : result (list A) :=
    if (k <? 0) || (Z.of_nat (length pool) <? k)
    then Raise "Sample larger than population or is negative"
    else Ok (draw rnd pool (Z.to_nat k)).

  (** [random.shuffle(l)] *)
Definition shuffle {A} (rnd : list nat) (l : list A) : list A :=
    draw rnd l (length l).

End PyRandom.

(** [l[:n]] *)
Definition py_slice_to {A} (l : list A) (n : Z) : list A :=
  if 0 <=? n then take (Z.to_nat n) l
  else take (length l - Z.to_nat (- n))%nat l.

(** ** Running code against the state: a state and exception monad

    A raise keeps the state reached so far, as mutation in Python does. *)

Definition M (A : Type) : Type := State -> result A * State.

Definition ret {A} (a : A) : M A := fun st => (Ok a, st).

Definition bind {A B} (m : M A) (k : A -> M B) : M B :=
  fun st =>
    match m st with
    | (Ok a, st') => k a st'
    | (Raise e, st') => (Raise e, st')
    end.

Definition raise {A} (e : string) : M A := fun st => (Raise e, st).

(** [try: body except Exception as e: handler] *)
Definition try_except {A} (body : M A) (handler : string -> M A) : M A :=
  fun st =>
    match body st with
    | (Ok a, st') => (Ok a, st')
    | (Raise e, st') => handler e st'
    end.

Definition lift {A} (r : result A) : M A := fun st => (r, st).
Definition gets {A} (f : State -> A) : M A := fun st => (Ok (f st), st).
Definition modify (f : State -> State) : M unit := fun st => (Ok tt, f st).

Global Instance M_ret : MRet M := @ret.
Global Instance M_bind : MBind M := fun A B k m => bind m k.

Fixpoint for_each {A} (l : list A) (body : A -> M unit) : M unit :=
  match l with
  | [] => ret tt
  | x :: l' => body x;; for_each l' body
  end.

Definition set_processed_artists (f : gset string -> gset string) (st : State) : State :=
  mkState (f (processed_artists st)) (artist_queue st) (root_node st)
          (processed_genres st) (batch_files st) (is_running st) (heap st) (trace st).
Definition set_artist_queue (f : list addr -> list addr) (st : State) : State :=
  mkState (processed_artists st) (f (artist_queue st)) (root_node st)
          (processed_genres st) (batch_files st) (is_running st) (heap st) (trace st).
Definition set_root_node (r : option addr) (st : State) : State :=
  mkState (processed_artists st) (artist_queue st) r
          (processed_genres st) (batch_files st) (is_running st) (heap st) (trace st).
Definition set_processed_genres (f : gset string -> gset string) (st : State) : State :=
  mkState (processed_artists st) (artist_queue st) (root_node st)
          (f (processed_genres st)) (batch_files st) (is_running st) (heap st) (trace st).
Definition set_batch_files (f : list string -> list string) (st : State) : State :=
  mkState (processed_artists st) (artist_queue st) (root_node st)
          (processed_genres st) (f (batch_files st)) (is_running st) (heap st) (trace st).
Definition set_is_running (b : bool) (st : State) : State :=
  mkState (processed_artists st) (artist_queue st) (root_node st)
          (processed_genres st) (batch_files st) b (heap st) (trace st).
Definition set_heap (f : list ArtistNode -> list ArtistNode) (st : State) : State :=
  mkState (processed_artists st) (artist_queue st) (root_node st)
          (processed_genres st) (batch_files st) (is_running st) (f (heap st)) (trace st).
Definition set_trace (f : list event -> list event) (st : State) : State :=
  mkState (processed_artists st) (artist_queue st) (root_node st)
          (processed_genres st) (batch_files st) (is_running st) (heap st) (f (trace st)).

Definition emit (e : event) : M unit := modify (set_trace (fun t => t ++ [e])).

(** Reading an object through a reference. *)
Definition node_at (st : State) (n : addr) : ArtistNode :=
  default (new_ArtistNode "" "" 0) (heap st !! n).
Definition read_node (n : addr) : M ArtistNode := gets (fun st => node_at st n).

(** Allocating an [ArtistNode]: the new object gets the next address. *)
Definition alloc_node (nd : ArtistNode) : M addr :=
  fun st => (Ok (length (heap st)), set_heap (fun h => h ++ [nd]) st).

(** [node.children.append(child)] *)
Definition append_child (n child : addr) : M unit :=
  modify (set_heap (alter (fun nd =>
    mkNode (spotify_id nd) (name nd) (children nd ++ [child]) (depth nd)
           (downloaded nd) (deezer_id nd)) n)).

(** [node.deezer_id = d] *)
Definition assign_deezer_id (n : addr) (d : Z) : M unit :=
  modify (set_heap (alter (fun nd =>
    mkNode (spotify_id nd) (name nd) (children nd) (depth nd)
           (downloaded nd) (Some d)) n)).

(** [self.artist_queue.put(node)] *)
Definition queue_put (n : addr) : M unit :=
  modify (set_artist_queue (fun q => q ++ [n])).

(** ** The worker: [process_artist] and what it calls *)

Section Worker.

Variable cfg : Config.
Variable env : Env.

  (** [self.sp.artist(id)] *)
Definition call_artist (id : string) : M SpotifyArtist :=
    emit (CallArtist id);; lift (sp_artist env id).

  (** [find_deezer_artist]: the first hit of the name search, if any. *)
Definition find_deezer_artist (artist_name : string) : M (option DeezerArtist) :=
    try_except
      (emit (CallSearch artist_name);;
       data ← lift (dz_search env artist_name);
       mret (head data))
      (fun e =>
         emit (Output ("Error finding Deezer artist: " +:+ e));;
         emit (LogError ("Error finding Deezer artist " +:+ artist_name +:+ ": " +:+ e));;
         mret None).

  (** [download_artist]: writes the launcher script, records it in
      [batch_files], runs it and waits. *)
Definition download_artist (deezer_artist : DeezerArtist) (n : addr) : M bool :=
    try_except
      (node ← read_node n;
       let artist_dir := path_join env (output_dir cfg) (name node) in
       let batch_file_path :=
         path_join env artist_dir
           ("download_" +:+ pretty (dz_id deezer_artist) +:+ ".bat") in
       lift (fs_prepare env batch_file_path);;
       modify (set_batch_files (fun l => l ++ [batch_file_path]));;
       emit (CallDeemix batch_file_path);;
       lift (deemix env batch_file_path);;
       emit (Output ("Successfully downloaded artist: " +:+ dz_name deezer_artist));;
       emit (Progress 100 (dz_name deezer_artist));;
       mret true)
      (fun e =>
         emit (Output ("Error downloading artist " +:+ dz_name deezer_artist +:+ ": " +:+ e));;
         emit (LogError ("Error downloading artist " +:+ dz_name deezer_artist +:+ ": " +:+ e));;
         mret false).

  (** The [for artist in related_artists] loop of
      [get_wildly_different_artists]; [kept] is the list
      [wildly_different] built so far.  An exception inside the [try]
      skips the candidate, and with it the [break] test. *)
Fixpoint wildly_different_loop (candidates kept : list SpotifyArtist)
    : M (list SpotifyArtist) :=
    match candidates with
    | [] => mret kept
    | artist :: rest =>
        '(kept', stop) ← try_except
              (artist_full ← call_artist (sp_id artist);
               let artist_genres : gset string := list_to_set (sp_genres artist_full) in
               seen ← gets processed_genres;
               let new_genres := artist_genres ∖ seen in
               kept1 ← (if decide (new_genres = ∅) then mret kept
                        else modify (set_processed_genres (fun g => g ∪ new_genres));;
                             mret (kept ++ [artist]));
               mret (kept1, related_limit cfg <=? Z.of_nat (length kept1)))
              (fun e =>
                 emit (Output ("Error processing related artist " +:+ sp_name artist +:+ ": " +:+ e));;
                 emit (LogError ("Error processing related artist " +:+ sp_name artist +:+ ": " +:+ e));;
                 mret (kept, false));
        if (stop : bool) then mret kept' else wildly_different_loop rest kept'
    end.

  (** The pool and the count handed to [random.sample] when the loop kept
      fewer than [related_limit] candidates. *)
Definition top_up_request (related_artists kept : list SpotifyArtist)
    : list SpotifyArtist * Z :=
    let remaining := filter (fun a => a ∉ kept) related_artists in
    (remaining,
     Z.min (Z.of_nat (length remaining)) (related_limit cfg - Z.of_nat (length kept))).

  (** [get_wildly_different_artists] *)
Definition get_wildly_different_artists
      (source_artist : SpotifyArtist) (related_artists : list SpotifyArtist)
    : M (list SpotifyArtist) :=
    let source_genres : gset string := list_to_set (sp_genres source_artist) in
    modify (set_processed_genres (fun g => g ∪ source_genres));;
    kept ← wildly_different_loop related_artists [];
    if Z.of_nat (length kept) <? related_limit cfg then
      let request := top_up_request related_artists kept in
      extra ← lift (PyRandom.sample (rnd_sample env) request.1 request.2);
      mret (kept ++ extra)
    else mret kept.

  (** Lines 171-174 of [process_artist], run with [self.lock] held: the
      de-duplication check and the insertion.  [true] when the invocation
      goes on to the rest of the function, [false] when it returns. *)
Definition process_artist_locked (n : addr) : M bool :=
    node ← read_node n;
    processed ← gets processed_artists;
    if bool_decide (spotify_id node ∈ processed)
       || (max_artists cfg <=? Z.of_nat (size processed))
    then mret false
    else modify (set_processed_artists (fun s => s ∪ {[spotify_id node]}));;
         mret true.

  (** One child per selected relative: allocated, linked and enqueued. *)
Definition enqueue_child (n : addr) (related_artist : SpotifyArtist) : M unit :=
    node ← read_node n;
    child_node ← alloc_node
      (new_ArtistNode (sp_id related_artist) (sp_name related_artist) (depth node + 1));
    append_child n child_node;;
    queue_put child_node.

  (** Lines 176-200 of [process_artist], run without the lock. *)
Definition process_artist_body (n : addr) : M unit :=
    node ← read_node n;
    try_except
      (spotify_artist ← call_artist (spotify_id node);
       deezer_artist ← find_deezer_artist (sp_name spotify_artist);
       match deezer_artist with
       | Some dz =>
           assign_deezer_id n (dz_id dz);;
           success ← download_artist dz n;
           emit (ArtistFinished
                   (sp_name spotify_artist +:+ "|" +:+ spotify_id node +:+ "|"
                    +:+ pretty (dz_id dz)) success);;
           processed ← gets processed_artists;
           if (Z.of_nat (size processed) <? max_artists cfg)
              && (depth node <? max_depth cfg)
           then
             emit (CallRelated (spotify_id node));;
             related_artists ← lift (sp_related env (spotify_id node));
             let related_artists :=
               if wild_branching cfg
               then PyRandom.shuffle (rnd_shuffle env) related_artists
               else related_artists in
             related_artists ←
               (if wildly_different cfg
                then get_wildly_different_artists spotify_artist related_artists
                else mret related_artists);
             for_each (py_slice_to related_artists (related_limit cfg)) (enqueue_child n);;
             root ← gets root_node;
             emit (TreeUpdated root)
           else mret tt
       | None => emit (Output ("Could not find Deezer artist for: " +:+ name node))
       end)
      (fun e =>
         emit (Output ("Error processing artist " +:+ name node +:+ ": " +:+ e));;
         emit (LogError ("Error processing artist " +:+ name node +:+ ": " +:+ e))).

  (** [process_artist] *)
Definition process_artist (n : addr) : M unit :=
    proceed ← process_artist_locked n;
    if (proceed : bool) then process_artist_body n else mret tt.

End Worker.

(** ** The driver: [run], [stop] and [cleanup_batch_files] *)

Section Driver.

Variable cfg : Config.
Variable env : Env.

  (** [cleanup_batch_files] *)
Definition cleanup_batch_files : M unit :=
    files ← gets batch_files;
    for_each files (fun batch_file =>
      try_except
        (emit (RemoveFile batch_file);; lift (fs_remove env batch_file))
        (fun e => emit (LogError ("Error removing batch file " +:+ batch_file +:+ ": " +:+ e)))).

  (** [stop] *)
Definition stop : M unit :=
    modify (set_is_running false);; cleanup_batch_files.

  (** Lines 139-142 of [run]: the seed URL is refused. *)
Definition run_invalid : M unit :=
    emit (Output "Invalid Spotify URL. Please provide a valid Spotify artist link.");;
    emit Finished.

  (** Lines 145-151 of [run]: the root node is built and enqueued and the
      thread pool is created ([ThreadPoolExecutor] raises [ValueError] for
      a pool size that is not positive). *)
Definition run_setup : M unit :=
    artist_id ← lift (match search_artist_id (spotify_link cfg) with
                      | Some id => Ok id
                      | None => Raise "'NoneType' object has no attribute 'group'"
                      end);
    spotify_artist ← call_artist env artist_id;
    root ← alloc_node (new_ArtistNode artist_id (sp_name spotify_artist) 0);
    modify (set_root_node (Some root));;
    emit (TreeUpdated (Some root));;
    queue_put root;;
    if max_concurrent cfg <=? 0 then raise "max_workers must be greater than 0"
    else mret tt.

  (** Lines 163-168 of [run]: the [except] and [finally] clauses. *)
Definition run_failed (e : string) : M unit :=
    emit (Output ("An error occurred: " +:+ e));;
    emit (LogError ("Error in main download process: " +:+ e));;
    emit Finished;;
    cleanup_batch_files.

  (** Lines 162 and 168 of [run]: the loop is left normally. *)
Definition run_finished : M unit :=
    emit Finished;; cleanup_batch_files.

  (** The test of the [while] at line 152. *)
Definition loop_test (st : State) : bool :=
    negb (bool_decide (artist_queue st = []))
    && (Z.of_nat (size (processed_artists st)) <? max_artists cfg)
    && is_running st.

  (** [range(min(self.max_concurrent, self.artist_queue.qsize()))] *)
Definition batch_size (st : State) : nat :=
    Z.to_nat (Z.min (max_concurrent cfg) (Z.of_nat (length (artist_queue st)))).

End Driver.

(** ** The threads together

    The driver thread, the pool's worker threads and the GUI thread (which
    may call [stop] at any moment) run interleaved.  A worker takes two
    steps: the locked section of [process_artist], which the lock makes
    atomic, and the rest of the function.  The driver takes one step per
    [submit], and waits at [as_completed] until every submitted call has
    returned. *)

Inductive wstatus :=
  | Submitted     (* handed to the pool, lock not yet taken *)
  | Running       (* past the de-duplication check *)
  | Skipped       (* returned at line 173 *)
  | Completed.    (* returned at the end of the function *)

Global Instance wstatus_eq_dec : EqDecision wstatus.
Proof. solve_decision. Defined.

Record worker := mkWorker { w_node : addr; w_status : wstatus }.

Inductive driver_pc :=
  | Start                 (* [run] not yet entered *)
  | LoopTop               (* at the [while] test *)
  | Batch (todo : nat)    (* in the [for _ in range(...)], [todo] rounds left;
                             at [0], in the [as_completed] loop *)
  | Stopped.              (* [run] has returned *)

Record System := mkSystem {
  shared : State;
  driver : driver_pc;
  workers : list worker;
}.

Definition init_system : System := mkSystem init_state Start [].

Definition returned (w : worker) : bool :=
  match w_status w with
  | Skipped | Completed => true
  | Submitted | Running => false
  end.

(** Who moves next, and what the outside answers during that move. *)
Inductive label :=
  | DriverStep (env : Env)
  | WorkerLock (i : nat)
  | WorkerBody (i : nat) (env : Env)
  | StopRequest (env : Env).

Section Threads.

Variable cfg : Config.

Definition driver_step (env : Env) (sys : System) : option System :=
    let st := shared sys in
    match driver sys with
    | Start =>
        if negb (is_valid_url (bracketed_host_ok env) (spotify_link cfg) ["open.spotify.com"])
        then Some (mkSystem (run_invalid st).2 Stopped (workers sys))
        else
          match run_setup cfg env st with
          | (Ok _, st') => Some (mkSystem st' LoopTop (workers sys))
          | (Raise e, st') => Some (mkSystem (run_failed env e st').2 Stopped (workers sys))
          end
    | LoopTop =>
        if loop_test cfg st
        then Some (mkSystem st (Batch (batch_size cfg st)) (workers sys))
        else Some (mkSystem (run_finished env st).2 Stopped (workers sys))
    | Batch (S todo) =>
        match artist_queue st with
        | [] => Some (mkSystem st (Batch todo) (workers sys))
        | node :: rest =>
            Some (mkSystem (set_artist_queue (fun _ => rest) st) (Batch todo)
                           (workers sys ++ [mkWorker node Submitted]))
        end
    | Batch O =>
        if forallb returned (workers sys)
        then Some (mkSystem st LoopTop (workers sys))
        else None
    | Stopped => None
    end.

Definition worker_lock (i : nat) (sys : System) : option System :=
    match workers sys !! i with
    | Some (mkWorker node Submitted) =>
        match process_artist_locked cfg node (shared sys) with
        | (Ok true, st') =>
            Some (mkSystem st' (driver sys) (<[i := mkWorker node Running]> (workers sys)))
        | (_, st') =>
            Some (mkSystem st' (driver sys) (<[i := mkWorker node Skipped]> (workers sys)))
        end
    | _ => None
    end.

Definition worker_body (i : nat) (env : Env) (sys : System) : option System :=
    match workers sys !! i with
    | Some (mkWorker node Running) =>
        Some (mkSystem (process_artist_body cfg env node (shared sys)).2 (driver sys)
                       (<[i := mkWorker node Completed]> (workers sys)))
    | _ => None
    end.

Definition stop_request (env : Env) (sys : System) : option System :=
    Some (mkSystem (stop env (shared sys)).2 (driver sys) (workers sys)).

Definition step (l : label) (sys : System) : option System :=
    match l with
    | DriverStep env => driver_step env sys
    | WorkerLock i => worker_lock i sys
    | WorkerBody i env => worker_body i env sys
    | StopRequest env => stop_request env sys
    end.

  (** A schedule is run from left to right; [None] when one of its moves
      is not possible where it is asked for. *)
Fixpoint exec (ls : list label) (sys : System) : option System :=
    match ls with
    | [] => Some sys
    | l :: ls' =>
        match step l sys with
        | Some sys' => exec ls' sys'
        | None => None
        end
    end.

Definition reachable (sys : System) : Prop :=
    exists ls, exec ls init_system = Some sys.

End Threads.

(** ** [class ArtistProcessor]

    The thread class that processes one artist whose target-catalog
    identifier is already known.  Nothing in the program instantiates it;
    it is the other place where an artist's outcome is reported. *)

Module ArtistProcessor.

Record t := mk {
    spotify_id : string;
    deezer_id : Z;
    output_dir : string;
    thread_id : Z;
    node : addr;
  }.

Section Methods.

Variable self : t.
Variable env : Env.

Definition tag : string := "Thread " +:+ pretty (thread_id self) +:+ ": ".

    (** [ArtistProcessor.download_artist] *)
Definition download_artist (deezer_artist : DeezerArtist) : M bool :=
      try_except
        (nd ← read_node (node self);
         let artist_dir := path_join env (output_dir self) (name nd) in
         let batch_file_path :=
           path_join env artist_dir
             ("download_" +:+ pretty (dz_id deezer_artist) +:+ ".bat") in
         lift (fs_prepare env batch_file_path);;
         emit (CallDeemix batch_file_path);;
         lift (deemix env batch_file_path);;
         emit (RemoveFile batch_file_path);;
         lift (fs_remove env batch_file_path);;
         emit (Output (tag +:+ "Successfully downloaded artist: " +:+ dz_name deezer_artist));;
         emit (Progress 100 (dz_name deezer_artist));;
         mret true)
        (fun e =>
           emit (Output (tag +:+ "Error downloading artist " +:+ dz_name deezer_artist
                         +:+ ": " +:+ e));;
           emit (LogError ("Error downloading artist " +:+ dz_name deezer_artist +:+ ": " +:+ e));;
           mret false).

    (** [ArtistProcessor.run] *)
Definition run : M unit :=
      try_except
        (spotify_artist ← call_artist env (spotify_id self);
         emit (CallDeezerArtist (deezer_id self));;
         deezer_artist ← lift (dz_get_artist env (deezer_id self));
         emit (Output (tag +:+ "Processing artist: " +:+ sp_name spotify_artist));;
         success ← download_artist deezer_artist;
         emit (ArtistFinished
                 (sp_name spotify_artist +:+ "|" +:+ spotify_id self +:+ "|"
                  +:+ pretty (deezer_id self)) success))
        (fun e =>
           emit (Output (tag +:+ "Error processing artist: " +:+ e));;
           emit (LogError ("Error processing artist " +:+ spotify_id self +:+ ": " +:+ e));;
           emit (ArtistFinished
                   ("Unknown|" +:+ spotify_id self +:+ "|" +:+ pretty (deezer_id self)) false)).

End Methods.

End ArtistProcessor.

(** * Properties *)

(** ** Strings *)

Lemma str_app_nil r : "" +:+ r = r.
Proof. reflexivity. Qed.

Lemma str_app_cons c p r : String c p +:+ r = String c (p +:+ r).
Proof. reflexivity. Qed.

Lemma strip_prefix_spec p s r :
  PyStr.strip_prefix p s = Some r <-> s = p +:+ r.
Proof.
  revert s; induction p as [|a p IH]; intros s; simpl.
  - rewrite str_app_nil. split; congruence.
  - rewrite str_app_cons. destruct s as [|b s]; [split; discriminate|].
    destruct (Ascii.eqb_spec a b) as [->|Hne].
    + rewrite IH. split; congruence.
    + split; [discriminate|]. intros [= <- _]. congruence.
Qed.

(** [d in s] holds exactly when [s] is some text, then [d], then some text. *)
Lemma contains_spec d s :
  PyStr.contains d s = true <-> exists pre post, s = pre +:+ d +:+ post.
Proof.
  induction s as [|c s IH]; simpl.
  - destruct (PyStr.strip_prefix d "") as [r|] eqn:E.
    + apply strip_prefix_spec in E. split; [|done].
      intros _. exists "", r. done.
    + split; [discriminate|]. intros (pre & post & H).
      destruct pre; [|discriminate].
      rewrite str_app_nil in H. apply strip_prefix_spec in H. congruence.
  - destruct (PyStr.strip_prefix d (String c s)) as [r|] eqn:E.
    + apply strip_prefix_spec in E. split; [|done].
      intros _. exists "", r. done.
    + rewrite IH. split.
      * intros (pre & post & ->). exists (String c pre), post. done.
      * intros (pre & post & H). destruct pre as [|c' pre].
        -- rewrite str_app_nil in H. apply strip_prefix_spec in H. congruence.
        -- rewrite str_app_cons in H. injection H as -> ->. eauto.
Qed.

Lemma contains_false d s :
  PyStr.contains d s = false <-> ~ exists pre post, s = pre +:+ d +:+ post.
Proof. rewrite <- contains_spec. destruct (PyStr.contains d s); split; congruence. Qed.

Lemma existsb_contains_false nl (allowed : list string) :
  (forall d, d ∈ allowed -> PyStr.contains d nl = false) ->
  existsb (fun domain => PyStr.contains domain nl) allowed = false.
Proof.
  induction allowed as [|d l IH]; intros H; simpl; [done|].
  rewrite H by left. apply IH. intros; apply H. by right.
Qed.

Lemma existsb_contains_true nl (allowed : list string) d :
  d ∈ allowed -> PyStr.contains d nl = true ->
  existsb (fun domain => PyStr.contains domain nl) allowed = true.
Proof.
  intros Hin Hc. apply existsb_exists. exists d. split; [|done].
  by apply list_elem_of_In.
Qed.

(** ** Reasoning about monadic code *)

Lemma bind_unfold {A B} (m : M A) (k : A -> M B) st :
  (m ≫= k) st = match m st with
                | (Ok a, st') => k a st'
                | (Raise e, st') => (Raise e, st')
                end.
Proof. reflexivity. Qed.

(** A predicate on states that a computation maintains. *)
Section Preserves.

Variable P : State -> Prop.

Definition preserves {A} (m : M A) : Prop := forall s, P s -> P (m s).2.

Lemma preserves_ret {A} (a : A) : preserves (mret a).
Proof. intros s H. exact H. Qed.

Lemma preserves_lift {A} (r : result A) : preserves (lift r).
Proof. intros s H. exact H. Qed.

Lemma preserves_raise {A} e : preserves (@raise A e).
Proof. intros s H. exact H. Qed.

Lemma preserves_gets {A} (f : State -> A) : preserves (gets f).
Proof. intros s H. exact H. Qed.

Lemma preserves_modify f : (forall s, P s -> P (f s)) -> preserves (modify f).
Proof. intros Hf s H. by apply Hf. Qed.

Lemma preserves_bind {A B} (m : M A) (k : A -> M B) :
    preserves m -> (forall a, preserves (k a)) -> preserves (m ≫= k).
Proof.
    intros Hm Hk s H. rewrite bind_unfold. specialize (Hm s H).
    destruct (m s) as [[a|e] s']; simpl in *; [by apply Hk | done].
Qed.

  (** What was read is known to come from a state that satisfies [P]. *)
Lemma preserves_gets_bind {A B} (f : State -> A) (k : A -> M B) :
    (forall s0, P s0 -> preserves (k (f s0))) -> preserves (gets f ≫= k).
Proof. intros Hk s H. rewrite bind_unfold. simpl. by apply Hk. Qed.

Lemma preserves_try {A} (body : M A) handler :
    preserves body -> (forall e, preserves (handler e)) ->
    preserves (try_except body handler).
Proof.
    intros Hb Hh s H. unfold try_except. specialize (Hb s H).
    destruct (body s) as [[a|e] s']; simpl in *; [done | by apply Hh].
Qed.

Lemma preserves_for_each {A} (l : list A) body :
    (forall x, preserves (body x)) -> preserves (for_each l body).
Proof.
    intros Hb. induction l as [|x l IH]; simpl.
    - apply preserves_ret.
    - apply preserves_bind; [apply Hb | intros _; apply IH].
Qed.

Lemma preserves_alloc nd :
    (forall s, P s -> P (set_heap (fun h => h ++ [nd]) s)) -> preserves (alloc_node nd).
Proof. intros Hf s H. by apply Hf. Qed.

Lemma preserves_emit e :
    (forall f s, P s -> P (set_trace f s)) -> preserves (emit e).
Proof. intros Hf. apply preserves_modify. intros s. apply Hf. Qed.

End Preserves.

(** A change of the state that a computation does not notice: running
    after the change is running before it. *)
Section Commutes.

Variable f : State -> State.

Definition commutes {A} (m : M A) : Prop :=
    forall s, m (f s) = ((m s).1, f (m s).2).

Lemma commutes_ret {A} (a : A) : commutes (mret a).
Proof. intros s. reflexivity. Qed.

Lemma commutes_lift {A} (r : result A) : commutes (lift r).
Proof. intros s. reflexivity. Qed.

Lemma commutes_raise {A} e : commutes (@raise A e).
Proof. intros s. reflexivity. Qed.

Lemma commutes_gets {A} (g : State -> A) :
    (forall s, g (f s) = g s) -> commutes (gets g).
Proof. intros Hg s. unfold gets. simpl. by rewrite Hg. Qed.

Lemma commutes_modify g :
    (forall s, g (f s) = f (g s)) -> commutes (modify g).
Proof. intros Hg s. unfold modify. simpl. by rewrite Hg. Qed.

Lemma commutes_alloc nd :
    (forall s, length (heap (f s)) = length (heap s)) ->
    (forall g s, set_heap g (f s) = f (set_heap g s)) ->
    commutes (alloc_node nd).
Proof. intros Hl Hg s. unfold alloc_node. simpl. by rewrite Hl, Hg. Qed.

Lemma commutes_bind {A B} (m : M A) (k : A -> M B) :
    commutes m -> (forall a, commutes (k a)) -> commutes (m ≫= k).
Proof.
    intros Hm Hk s. rewrite !bind_unfold, Hm.
    destruct (m s) as [[a|e] s']; simpl; [apply Hk | done].
Qed.

Lemma commutes_try {A} (body : M A) handler :
    commutes body -> (forall e, commutes (handler e)) ->
    commutes (try_except body handler).
Proof.
    intros Hb Hh s. unfold try_except. rewrite Hb.
    destruct (body s) as [[a|e] s']; simpl; [done | apply Hh].
Qed.

Lemma commutes_for_each {A} (l : list A) body :
    (forall x, commutes (body x)) -> commutes (for_each l body).
Proof.
    intros Hb. induction l as [|x l IH]; simpl.
    - apply commutes_ret.
    - apply commutes_bind; [apply Hb | intros _; apply IH].
Qed.

End Commutes.

(** Structural steps shared by the proofs below. *)
Ltac preserves_step :=
  lazymatch goal with
  | |- preserves _ (mret _) => apply preserves_ret
  | |- preserves _ (lift _) => apply preserves_lift
  | |- preserves _ (raise _) => apply preserves_raise
  | |- preserves _ (gets _) => apply preserves_gets
  | |- preserves _ (read_node _) => apply preserves_gets
  | |- preserves _ (_ ≫= _) => apply preserves_bind; [|intros ?]
  | |- preserves _ (try_except _ _) => apply preserves_try; [|intros ?]
  | |- preserves _ (for_each _ _) => apply preserves_for_each; intros ?
  | |- preserves _ (modify _) => apply preserves_modify; intros ? ?
  | |- preserves _ (alloc_node _) => apply preserves_alloc; intros ? ?
  | |- preserves _ (emit _) => apply preserves_modify; intros ? ?
  | |- preserves _ (if ?b then _ else _) => destruct b eqn:?
  | |- preserves _ (match ?x with _ => _ end) => destruct x
  end.

Ltac commutes_step :=
  lazymatch goal with
  | |- commutes _ (mret _) => apply commutes_ret
  | |- commutes _ (lift _) => apply commutes_lift
  | |- commutes _ (raise _) => apply commutes_raise
  | |- commutes _ (gets _) => apply commutes_gets; intros ?
  | |- commutes _ (read_node _) => apply commutes_gets; intros ?
  | |- commutes _ (_ ≫= _) => apply commutes_bind; [|intros ?]
  | |- commutes _ (try_except _ _) => apply commutes_try; [|intros ?]
  | |- commutes _ (for_each _ _) => apply commutes_for_each; intros ?
  | |- commutes _ (modify _) => apply commutes_modify; intros ?
  | |- commutes _ (alloc_node _) => apply commutes_alloc; [intros ?|intros ? ?]
  | |- commutes _ (emit _) => apply commutes_modify; intros ?
  | |- commutes _ (if ?b then _ else _) => destruct b
  | |- commutes _ (match ?x with _ => _ end) => destruct x
  end.

(** ** What the parts of the program leave alone *)

Lemma wildly_different_loop_preserves (P : State -> Prop) cfg env candidates kept :
  (forall f s, P s -> P (set_trace f s)) ->
  (forall f s, P s -> P (set_processed_genres f s)) ->
  preserves P (wildly_different_loop cfg env candidates kept).
Proof.
  intros Ht Hg. revert kept.
  induction candidates as [|artist rest IH]; intros kept; simpl.
  - apply preserves_ret.
  - unfold call_artist. repeat first [apply IH | preserves_step; eauto].
Qed.

(** The parts of the state that only the locked section, the child
    creation and the driver's queue handling change. *)
Definition core (s : State) : gset string * list addr * list ArtistNode :=
  (processed_artists s, artist_queue s, heap s).

Lemma cleanup_batch_files_core env x :
  preserves (fun s => core s = x /\ is_running s = false) (cleanup_batch_files env).
Proof. unfold cleanup_batch_files. repeat (preserves_step; eauto). Qed.

Lemma cleanup_batch_files_keeps_core env x :
  preserves (fun s => core s = x) (cleanup_batch_files env).
Proof. unfold cleanup_batch_files. repeat (preserves_step; eauto). Qed.

Lemma stop_core env st :
  core (stop env st).2 = core st /\ is_running (stop env st).2 = false.
Proof.
  unfold stop. rewrite bind_unfold. simpl.
  by apply (cleanup_batch_files_core env (core st)).
Qed.

Lemma run_invalid_core st : core (run_invalid st).2 = core st.
Proof.
  assert (H : preserves (fun s => core s = core st) run_invalid)
    by (unfold run_invalid; repeat (preserves_step; eauto)).
  by apply H.
Qed.

Lemma run_failed_core env e st : core (run_failed env e st).2 = core st.
Proof.
  assert (H : preserves (fun s => core s = core st) (run_failed env e)).
  { unfold run_failed. repeat (preserves_step; eauto).
    apply cleanup_batch_files_keeps_core. }
  by apply H.
Qed.

Lemma run_finished_core env st : core (run_finished env st).2 = core st.
Proof.
  assert (H : preserves (fun s => core s = core st) (run_finished env)).
  { unfold run_finished. repeat (preserves_step; eauto).
    apply cleanup_batch_files_keeps_core. }
  by apply H.
Qed.

(** The rest of [process_artist] never touches the processed-set. *)
Lemma process_artist_body_processed cfg env n st :
  processed_artists (process_artist_body cfg env n st).2 = processed_artists st.
Proof.
  assert (H : preserves (fun s => processed_artists s = processed_artists st)
                (process_artist_body cfg env n)).
  { unfold process_artist_body, find_deezer_artist, download_artist, call_artist,
      get_wildly_different_artists, enqueue_child, assign_deezer_id, append_child, queue_put.
    repeat first [ apply wildly_different_loop_preserves; eauto
                 | preserves_step; eauto ]. }
  by apply H.
Qed.

(** ** The arena only grows *)

(** What never changes in a node once it is built, and what only grows. *)
Definition frozen (nd nd' : ArtistNode) : Prop :=
  spotify_id nd' = spotify_id nd /\ name nd' = name nd /\ depth nd' = depth nd
  /\ children nd ⊆ children nd'.

Definition heap_grows (h h' : list ArtistNode) : Prop :=
  forall a nd, h !! a = Some nd -> exists nd', h' !! a = Some nd' /\ frozen nd nd'.

Lemma frozen_refl nd : frozen nd nd.
Proof. by repeat split. Qed.

Lemma frozen_trans a b c : frozen a b -> frozen b c -> frozen a c.
Proof.
  intros (?&?&?&?) (?&?&?&?). repeat split; try congruence. by etrans.
Qed.

Lemma heap_grows_refl h : heap_grows h h.
Proof. intros a nd H. exists nd. split; [done | apply frozen_refl]. Qed.

Lemma heap_grows_trans h1 h2 h3 :
  heap_grows h1 h2 -> heap_grows h2 h3 -> heap_grows h1 h3.
Proof.
  intros H12 H23 a nd H. destruct (H12 a nd H) as (nd2 & H2 & F2).
  destruct (H23 a nd2 H2) as (nd3 & H3 & F3).
  exists nd3. split; [done | by eapply frozen_trans].
Qed.

Lemma heap_grows_length h h' : heap_grows h h' -> (length h <= length h')%nat.
Proof.
  intros H. destruct (decide (length h <= length h')%nat) as [|Hgt]; [done|].
  destruct (lookup_lt_is_Some_2 h (length h')) as [nd Hnd]; [lia|].
  destruct (H _ _ Hnd) as (nd' & Hnd' & _). apply lookup_lt_Some in Hnd'. lia.
Qed.

Lemma heap_grows_snoc h nd : heap_grows h (h ++ [nd]).
Proof.
  intros a x H. exists x. split; [|apply frozen_refl].
  rewrite lookup_app_l; [done | by eapply lookup_lt_Some].
Qed.

Lemma heap_grows_alter h (f : ArtistNode -> ArtistNode) n :
  (forall nd, frozen nd (f nd)) -> heap_grows h (alter f n h).
Proof.
  intros Hf a nd H. destruct (decide (n = a)) as [->|Hne].
  - exists (f nd). rewrite list_lookup_alter_eq, H. by split.
  - exists nd. rewrite list_lookup_alter_ne by done. split; [done | apply frozen_refl].
Qed.

Lemma node_at_lookup st a nd : heap st !! a = Some nd -> node_at st a = nd.
Proof. unfold node_at. by intros ->. Qed.

Lemma node_at_is_lookup st a :
  (a < length (heap st))%nat -> heap st !! a = Some (node_at st a).
Proof.
  intros H. destruct (lookup_lt_is_Some_2 _ _ H) as [nd Hnd].
  by rewrite (node_at_lookup _ _ _ Hnd).
Qed.

Lemma node_at_frozen st st' a :
  heap_grows (heap st) (heap st') -> (a < length (heap st))%nat ->
  frozen (node_at st a) (node_at st' a).
Proof.
  intros Hg Ha. destruct (Hg _ _ (node_at_is_lookup _ _ Ha)) as (nd' & Hnd' & F).
  by rewrite (node_at_lookup _ _ _ Hnd').
Qed.

(** ** What [process_artist] does to the tree and the queue

    [expands cfg n st s]: from [st] to [s] the arena grew, the queue got
    new entries at its end, every new entry is a new object and a child
    of [n], and every new object is one level below [n], which itself
    lies above the depth limit. *)
Definition expands (cfg : Config) (n : addr) (st s : State) : Prop :=
  heap_grows (heap st) (heap s) /\
  exists new,
    artist_queue s = artist_queue st ++ new /\
    Forall (fun c => (length (heap st) <= c < length (heap s))%nat
                     /\ c ∈ children (node_at s n)) new /\
    forall c nd, (length (heap st) <= c)%nat -> heap s !! c = Some nd ->
                 depth nd = depth (node_at st n) + 1
                 /\ depth (node_at st n) < max_depth cfg.

Lemma expands_refl cfg n st : expands cfg n st st.
Proof.
  split; [apply heap_grows_refl|]. exists []. split; [by rewrite app_nil_r|].
  split; [constructor|]. intros c nd Hc Hnd. apply lookup_lt_Some in Hnd. lia.
Qed.

Lemma node_at_children_mono st st' n :
  heap_grows (heap st) (heap st') ->
  children (node_at st n) ⊆ children (node_at st' n).
Proof.
  intros Hg. destruct (decide (n < length (heap st))%nat) as [Hn|Hn].
  - by destruct (node_at_frozen st st' n Hg Hn) as (_ & _ & _ & ?).
  - unfold node_at at 1. rewrite lookup_ge_None_2 by lia. simpl.
    intros x Hx. by apply elem_of_nil in Hx.
Qed.

Lemma alter_lookup_inv (f : ArtistNode -> ArtistNode) a (h : list ArtistNode) c nd :
  alter f a h !! c = Some nd ->
  exists nd0, h !! c = Some nd0 /\ (nd = nd0 \/ nd = f nd0).
Proof.
  rewrite list_lookup_alter. case_decide.
  - subst. destruct (h !! c) as [nd0|]; simpl; [|discriminate]. intros [= <-]. eauto.
  - intros Hc. eauto.
Qed.

(** [node.deezer_id = ...] changes nothing that [expands] looks at. *)
Lemma expands_assign_deezer_id cfg n st s a d :
  expands cfg n st s ->
  expands cfg n st (set_heap (alter (fun nd =>
    mkNode (spotify_id nd) (name nd) (children nd) (depth nd)
           (downloaded nd) (Some d)) a) s).
Proof.
  set (f := fun nd => mkNode _ _ _ _ _ _).
  set (s' := set_heap (alter f a) s).
  assert (Hf : forall nd, frozen nd (f nd)) by (intros nd; by repeat split).
  assert (H' : heap s' = alter f a (heap s)) by reflexivity.
  assert (H'q : artist_queue s' = artist_queue s) by reflexivity.
  clearbody s'.
  assert (Hg' : heap_grows (heap s) (heap s')) by (rewrite H'; by apply heap_grows_alter).
  pose proof (heap_grows_length _ _ Hg') as Hlen.
  intros (Hg & new & Hq & Hnew & Hcells). split.
  - by eapply heap_grows_trans.
  - exists new. split; [congruence|]. split.
    + eapply Forall_impl; [done|]. intros c [Hc Hin]. split; [lia|].
      by apply (node_at_children_mono s s' n Hg').
    + intros c nd Hc Hnd.
      rewrite H' in Hnd.
      apply alter_lookup_inv in Hnd as (nd0 & Hnd0 & [->| ->]);
        by apply (Hcells c nd0).
Qed.

Lemma enqueue_child_eq n related_artist s :
  enqueue_child n related_artist s =
  (Ok tt,
   set_artist_queue (fun q => q ++ [length (heap s)])
     (set_heap (alter (fun nd =>
        mkNode (spotify_id nd) (name nd) (children nd ++ [length (heap s)]) (depth nd)
               (downloaded nd) (deezer_id nd)) n)
        (set_heap (fun h => h ++ [new_ArtistNode (sp_id related_artist)
                                    (sp_name related_artist)
                                    (depth (node_at s n) + 1)]) s))).
Proof. reflexivity. Qed.

(** One child more, when the parent is an object of the arena that lies
    above the depth limit. *)
Lemma enqueue_child_expands cfg n st related_artist :
  (n < length (heap st))%nat ->
  depth (node_at st n) < max_depth cfg ->
  preserves (expands cfg n st) (enqueue_child n related_artist).
Proof.
  intros Hn Hguard s (Hg & new & Hq & Hnew & Hcells).
  rewrite enqueue_child_eq. cbn [snd].
  set (c := length (heap s)).
  set (child := new_ArtistNode _ _ _).
  set (f := fun nd => mkNode _ _ _ _ _ _).
  match goal with |- expands _ _ _ ?x => set (s3 := x) end.
  assert (H3h : heap s3 = alter f n (heap s ++ [child])) by reflexivity.
  assert (H3q : artist_queue s3 = artist_queue s ++ [c]) by reflexivity.
  clearbody s3.
  assert (Hf : forall nd, frozen nd (f nd)).
  { intros nd. repeat split. simpl. intros x Hx. apply elem_of_app. by left. }
  pose proof (heap_grows_length _ _ Hg) as Hlen.
  assert (Hns : (n < c)%nat) by (unfold c; lia).
  assert (Hd : depth (node_at s n) = depth (node_at st n)).
  { by destruct (node_at_frozen st s n Hg Hn) as (_ & _ & ? & _). }
  assert (Hg3 : heap_grows (heap s) (heap s3)).
  { rewrite H3h. eapply heap_grows_trans; [apply heap_grows_snoc | by apply heap_grows_alter]. }
  assert (Hl3 : length (heap s3) = S c).
  { rewrite H3h, length_alter, length_app. simpl. unfold c. lia. }
  assert (Hn3 : heap s3 !! n = Some (f (node_at s n))).
  { rewrite H3h, list_lookup_alter_eq, lookup_app_l by done.
    by rewrite (node_at_is_lookup s n Hns). }
  split; [|exists (new ++ [c]); split; [|split]].
  - by eapply heap_grows_trans.
  - by rewrite H3q, Hq, app_assoc.
  - apply Forall_app. split.
    + eapply Forall_impl; [done|]. intros c0 [Hc0 Hin]. split; [unfold c in *; lia|].
      by apply (node_at_children_mono s s3 n Hg3).
    + constructor; [|constructor]. split; [unfold c in *; lia|].
      rewrite (node_at_lookup _ _ _ Hn3). simpl. apply elem_of_app. right. by left.
  - intros c0 nd Hc0 Hnd. rewrite H3h in Hnd.
    apply alter_lookup_inv in Hnd as (nd0 & Hnd0 & Hor).
    assert (Hdep : depth nd = depth nd0) by (by destruct Hor as [->| ->]).
    rewrite Hdep.
    apply lookup_snoc_Some in Hnd0 as [[Hlt Hnd0]|[_ <-]].
    + by apply (Hcells c0 nd0).
    + split; [|done]. unfold child. simpl. by rewrite Hd.
Qed.

Lemma expands_same_core cfg n st s s' :
  core s' = core s -> expands cfg n st s -> expands cfg n st s'.
Proof.
  unfold core. intros [= Hp Hq Hh]. unfold expands, node_at. by rewrite Hq, Hh.
Qed.

(** The rest of [process_artist], run on a node of the arena. *)
Lemma process_artist_body_expands cfg env n st :
  (n < length (heap st))%nat ->
  expands cfg n st (process_artist_body cfg env n st).2.
Proof.
  intros Hn.
  assert (H : preserves (expands cfg n st) (process_artist_body cfg env n)).
  { unfold process_artist_body, read_node. apply preserves_gets_bind. intros s0 Hs0.
    assert (Hd : depth (node_at s0 n) = depth (node_at st n)).
    { destruct Hs0 as [Hg _]. by destruct (node_at_frozen st s0 n Hg Hn) as (_ & _ & ? & _). }
    unfold find_deezer_artist, download_artist, call_artist,
      get_wildly_different_artists, assign_deezer_id.
    repeat first
      [ apply wildly_different_loop_preserves; intros ? ? ?
      | apply enqueue_child_expands;
        [ done | rewrite <- Hd; match goal with
                               | G : _ && _ = true |- _ =>
                                   apply andb_prop in G as [_ G]; by apply Z.ltb_lt in G
                               end ]
      | apply expands_assign_deezer_id; assumption
      | (eapply expands_same_core; [|eassumption]; reflexivity)
      | preserves_step ]. }
  apply H, expands_refl.
Qed.

(** ** The steps of the threads, case by case *)

Lemma process_artist_locked_eq cfg n st :
  process_artist_locked cfg n st =
  if bool_decide (spotify_id (node_at st n) ∈ processed_artists st)
     || (max_artists cfg <=? Z.of_nat (size (processed_artists st)))
  then (Ok false, st)
  else (Ok true, set_processed_artists (fun s => s ∪ {[spotify_id (node_at st n)]}) st).
Proof.
  unfold process_artist_locked, read_node. rewrite !bind_unfold. simpl.
  rewrite !bind_unfold. simpl.
  by destruct (bool_decide _ || _).
Qed.

(** [run]'s preparation either leaves tree and queue alone (it failed
    before the root was built) or adds the root at depth 0 to both. *)
Lemma run_setup_cases cfg env st :
  let st' := (run_setup cfg env st).2 in
  core st' = core st \/
  exists id nm,
    processed_artists st' = processed_artists st
    /\ heap st' = heap st ++ [new_ArtistNode id nm 0]
    /\ artist_queue st' = artist_queue st ++ [length (heap st)].
Proof.
  unfold run_setup, call_artist. rewrite bind_unfold. simpl.
  destruct (search_artist_id (spotify_link cfg)) as [id|]; simpl; [|by left].
  rewrite !bind_unfold. simpl.
  destruct (sp_artist env id) as [a|e]; simpl; [|by left].
  right. exists id, (sp_name a).
  by destruct (max_concurrent cfg <=? 0).
Qed.

Inductive step_spec (cfg : Config) (sys : System) : System -> Prop :=
  | step_start_invalid :
      driver sys = Start ->
      step_spec cfg sys (mkSystem (run_invalid (shared sys)).2 Stopped (workers sys))
  | step_start_ok env :
      driver sys = Start ->
      (run_setup cfg env (shared sys)).1 = Ok tt ->
      step_spec cfg sys
        (mkSystem (run_setup cfg env (shared sys)).2 LoopTop (workers sys))
  | step_start_failed env e :
      driver sys = Start ->
      (run_setup cfg env (shared sys)).1 = Raise e ->
      step_spec cfg sys
        (mkSystem (run_failed env e (run_setup cfg env (shared sys)).2).2 Stopped
                  (workers sys))
  | step_loop_enter :
      driver sys = LoopTop ->
      loop_test cfg (shared sys) = true ->
      step_spec cfg sys
        (mkSystem (shared sys) (Batch (batch_size cfg (shared sys))) (workers sys))
  | step_loop_exit env :
      driver sys = LoopTop ->
      loop_test cfg (shared sys) = false ->
      step_spec cfg sys (mkSystem (run_finished env (shared sys)).2 Stopped (workers sys))
  | step_submit_none todo :
      driver sys = Batch (S todo) ->
      artist_queue (shared sys) = [] ->
      step_spec cfg sys (mkSystem (shared sys) (Batch todo) (workers sys))
  | step_submit todo node rest :
      driver sys = Batch (S todo) ->
      artist_queue (shared sys) = node :: rest ->
      step_spec cfg sys
        (mkSystem (set_artist_queue (fun _ => rest) (shared sys)) (Batch todo)
                  (workers sys ++ [mkWorker node Submitted]))
  | step_batch_done :
      driver sys = Batch O ->
      forallb returned (workers sys) = true ->
      step_spec cfg sys (mkSystem (shared sys) LoopTop (workers sys))
  | step_lock_win i node :
      workers sys !! i = Some (mkWorker node Submitted) ->
      spotify_id (node_at (shared sys) node) ∉ processed_artists (shared sys) ->
      Z.of_nat (size (processed_artists (shared sys))) < max_artists cfg ->
      step_spec cfg sys
        (mkSystem (set_processed_artists
                     (fun s => s ∪ {[spotify_id (node_at (shared sys) node)]}) (shared sys))
                  (driver sys) (<[i := mkWorker node Running]> (workers sys)))
  | step_lock_lose i node :
      workers sys !! i = Some (mkWorker node Submitted) ->
      spotify_id (node_at (shared sys) node) ∈ processed_artists (shared sys)
      \/ max_artists cfg <= Z.of_nat (size (processed_artists (shared sys))) ->
      step_spec cfg sys
        (mkSystem (shared sys) (driver sys) (<[i := mkWorker node Skipped]> (workers sys)))
  | step_body i node env :
      workers sys !! i = Some (mkWorker node Running) ->
      step_spec cfg sys
        (mkSystem (process_artist_body cfg env node (shared sys)).2 (driver sys)
                  (<[i := mkWorker node Completed]> (workers sys)))
  | step_stop env :
      step_spec cfg sys (mkSystem (stop env (shared sys)).2 (driver sys) (workers sys)).

Lemma step_cases cfg l sys sys' :
  step cfg l sys = Some sys' -> step_spec cfg sys sys'.
Proof.
  destruct l as [env|i|i env|env]; simpl.
  - unfold driver_step. destruct (driver sys) as [| |[|todo]|] eqn:Hpc.
    + destruct (negb _); [intros [= <-]; by constructor|].
      destruct (run_setup cfg env (shared sys)) as [[[]|e] st'] eqn:Hs; intros [= <-].
      * replace st' with (run_setup cfg env (shared sys)).2 by (by rewrite Hs).
        apply step_start_ok; [done | by rewrite Hs].
      * replace st' with (run_setup cfg env (shared sys)).2 by (by rewrite Hs).
        apply step_start_failed; [done | by rewrite Hs].
    + destruct (loop_test cfg (shared sys)) eqn:Ht; intros [= <-]; by constructor.
    + destruct (forallb returned (workers sys)) eqn:Hr; [|discriminate].
      intros [= <-]. by constructor.
    + destruct (artist_queue (shared sys)) as [|node rest] eqn:Hq; intros [= <-].
      * by constructor.
      * by econstructor.
    + discriminate.
  - unfold worker_lock. destruct (workers sys !! i) as [[node []]|] eqn:Hw; try discriminate.
    rewrite process_artist_locked_eq.
    destruct (bool_decide _ || _) eqn:Hg; intros [= <-].
    + apply step_lock_lose; [done|].
      apply orb_prop in Hg as [Hg|Hg]; [left; by apply bool_decide_eq_true in Hg|right; lia].
    + apply orb_false_elim in Hg as [Hg1 Hg2].
      apply step_lock_win; [done|by apply bool_decide_eq_false in Hg1|lia].
  - unfold worker_body. destruct (workers sys !! i) as [[node []]|] eqn:Hw; try discriminate.
    intros [= <-]. by constructor.
  - unfold stop_request. intros [= <-]. constructor.
Qed.

Lemma exec_app cfg ls1 ls2 sys :
  exec cfg (ls1 ++ ls2) sys =
  match exec cfg ls1 sys with
  | Some sys' => exec cfg ls2 sys'
  | None => None
  end.
Proof.
  revert sys. induction ls1 as [|l ls1 IH]; intros sys; simpl; [done|].
  destruct (step cfg l sys); [apply IH | done].
Qed.

(** Induction over the states the threads can reach. *)
Lemma reachable_ind cfg (P : System -> Prop) :
  P init_system ->
  (forall sys sys', reachable cfg sys -> P sys -> step_spec cfg sys sys' -> P sys') ->
  forall sys, reachable cfg sys -> P sys.
Proof.
  intros Hinit Hstep sys [ls Hls]. revert sys Hls.
  induction ls as [|l ls IH] using rev_ind; intros sys Hls.
  - simpl in Hls. by injection Hls as <-.
  - rewrite exec_app in Hls.
    destruct (exec cfg ls init_system) as [sys0|] eqn:E; [|discriminate].
    simpl in Hls. destruct (step cfg l sys0) as [sys1|] eqn:E1; [|discriminate].
    injection Hls as <-.
    eapply Hstep; [by exists ls | by apply IH | by eapply step_cases].
Qed.

(** ** Invariants of the running system *)

(** Every reference held by the queue or by a worker points into the
    arena. *)
Definition valid_refs (sys : System) : Prop :=
  Forall (fun w => (w_node w < length (heap (shared sys)))%nat) (workers sys)
  /\ Forall (fun a => (a < length (heap (shared sys)))%nat) (artist_queue (shared sys)).

Lemma valid_refs_worker sys i w :
  valid_refs sys -> workers sys !! i = Some w ->
  (w_node w < length (heap (shared sys)))%nat.
Proof. intros [Hw _] Hi. by eapply (Forall_lookup_1 _ _ _ _ Hw Hi). Qed.

Lemma core_inv s s' :
  core s' = core s ->
  processed_artists s' = processed_artists s
  /\ artist_queue s' = artist_queue s /\ heap s' = heap s.
Proof. unfold core. by intros [= -> -> ->]. Qed.

Lemma run_setup_grows cfg env st :
  heap_grows (heap st) (heap (run_setup cfg env st).2).
Proof.
  destruct (run_setup_cases cfg env st) as [Hc|(id & nm & _ & Hh & _)].
  - apply core_inv in Hc as (_ & _ & ->). apply heap_grows_refl.
  - rewrite Hh. apply heap_grows_snoc.
Qed.

(** A step keeps what is in the arena, and keeps the references valid. *)
Lemma step_grows cfg sys sys' :
  valid_refs sys -> step_spec cfg sys sys' ->
  heap_grows (heap (shared sys)) (heap (shared sys')).
Proof.
  intros Hv Hstep. destruct Hstep; cbn [shared]; try apply heap_grows_refl.
  - apply run_setup_grows.
  - destruct (core_inv _ _ (run_failed_core env e (run_setup cfg env (shared sys)).2))
      as (_ & _ & ->).
    apply run_setup_grows.
  - destruct (core_inv _ _ (run_finished_core env (shared sys))) as (_ & _ & ->). apply heap_grows_refl.
  - apply process_artist_body_expands.
    by apply (valid_refs_worker sys i (mkWorker node Running)).
  - destruct (stop_core env (shared sys)) as [Hc _].
    apply core_inv in Hc as (_ & _ & ->). apply heap_grows_refl.
Qed.

Lemma valid_refs_same_core sys st' pc :
  core st' = core (shared sys) -> valid_refs sys ->
  valid_refs (mkSystem st' pc (workers sys)).
Proof.
  intros Hc [Hw Hqv]. apply core_inv in Hc as (_ & Hq & Hh).
  split; simpl; by rewrite ?Hq, Hh.
Qed.

Lemma valid_refs_setup cfg env sys pc :
  valid_refs sys ->
  valid_refs (mkSystem (run_setup cfg env (shared sys)).2 pc (workers sys)).
Proof.
  intros Hv. destruct (run_setup_cases cfg env (shared sys)) as [Hc|(id & nm & _ & Hh & Hq)].
  - by apply valid_refs_same_core.
  - destruct Hv as [Hw Hqv]. split; simpl; rewrite Hh, ?Hq, ?Forall_app.
    + eapply Forall_impl; [done|]. intros w Hlt. simpl in *. rewrite length_app. lia.
    + split.
      * eapply Forall_impl; [done|]. intros a Hlt. simpl in *. rewrite length_app. lia.
      * constructor; [|constructor]. rewrite length_app. simpl. lia.
Qed.

Lemma step_valid_refs cfg sys sys' :
  valid_refs sys -> step_spec cfg sys sys' -> valid_refs sys'.
Proof.
  intros Hv Hstep. pose proof (step_grows cfg sys sys' Hv Hstep) as Hg.
  destruct Hstep.
  - apply valid_refs_same_core; [apply run_invalid_core | done].
  - by apply valid_refs_setup.
  - apply (valid_refs_same_core
             (mkSystem (run_setup cfg env (shared sys)).2 Stopped (workers sys)));
      [apply run_failed_core | by apply valid_refs_setup].
  - by destruct Hv.
  - apply valid_refs_same_core; [apply run_finished_core | done].
  - by destruct Hv.
  - destruct Hv as [Hw Hq].
    match goal with H : artist_queue _ = _ |- _ => rewrite H in Hq end.
    apply Forall_cons in Hq as [Hn Hrest]. split; simpl; [|done].
    apply Forall_app. split; [done|]. by constructor.
  - by destruct Hv.
  - destruct Hv as [Hw Hq]. split; simpl; [|done].
    apply Forall_insert; [done|]. simpl.
    by apply (valid_refs_worker sys i (mkWorker node Submitted)).
  - destruct Hv as [Hw Hq]. split; simpl; [|done].
    apply Forall_insert; [done|]. simpl.
    by apply (valid_refs_worker sys i (mkWorker node Submitted)).
  - assert (Hn : (node < length (heap (shared sys)))%nat)
      by (by apply (valid_refs_worker sys i (mkWorker node Running))).
    pose proof (process_artist_body_expands cfg env node (shared sys) Hn)
      as (Hg' & new & Hq' & Hnew & _).
    pose proof (heap_grows_length _ _ Hg') as Hlen.
    destruct Hv as [Hw Hq]. split; simpl.
    + apply Forall_insert; [|simpl; lia].
      eapply Forall_impl; [done|]. intros w Hlt. simpl in *. lia.
    + rewrite Hq'. apply Forall_app. split.
      * eapply Forall_impl; [done|]. intros a Hlt. simpl in *. lia.
      * eapply Forall_impl; [done|]. intros a [Hlt _]. simpl in *. lia.
  - apply valid_refs_same_core; [apply stop_core | done].
Qed.

Lemma reachable_valid_refs cfg sys : reachable cfg sys -> valid_refs sys.
Proof.
  apply reachable_ind.
  - split; constructor.
  - intros s s' _ Hv Hstep. by eapply step_valid_refs.
Qed.

(** No node of the arena lies below the depth limit. *)
Definition depths_bounded (cfg : Config) (s : State) : Prop :=
  Forall (fun nd => 0 <= depth nd <= max_depth cfg) (heap s).

Lemma depths_bounded_expands cfg n st s :
  (n < length (heap st))%nat ->
  depths_bounded cfg st -> expands cfg n st s -> depths_bounded cfg s.
Proof.
  intros Hn Hb (Hg & _ & _ & _ & Hcells).
  apply Forall_lookup_2. intros c nd Hnd.
  destruct (decide (c < length (heap st))%nat) as [Hlt|Hge].
  - destruct (lookup_lt_is_Some_2 _ _ Hlt) as [nd0 Hnd0].
    destruct (Hg _ _ Hnd0) as (nd' & Hnd' & (_ & _ & Hd & _)).
    assert (nd' = nd) as -> by congruence. rewrite Hd.
    by apply (Forall_lookup_1 _ _ _ _ Hb Hnd0).
  - destruct (Hcells c nd) as [Hd Hlim]; [lia | done |].
    pose proof (Forall_lookup_1 _ _ _ _ Hb (node_at_is_lookup st n Hn)) as Hp.
    simpl in Hp. lia.
Qed.

Lemma depths_bounded_setup cfg env st :
  0 <= max_depth cfg ->
  depths_bounded cfg st -> depths_bounded cfg (run_setup cfg env st).2.
Proof.
  intros H0 Hb. unfold depths_bounded.
  destruct (run_setup_cases cfg env st) as [Hc|(id & nm & _ & Hh & _)].
  - apply core_inv in Hc as (_ & _ & ->). done.
  - rewrite Hh. apply Forall_app. split; [done|].
    constructor; [simpl; lia | constructor].
Qed.

Lemma step_depths_bounded cfg sys sys' :
  0 <= max_depth cfg -> valid_refs sys ->
  depths_bounded cfg (shared sys) -> step_spec cfg sys sys' ->
  depths_bounded cfg (shared sys').
Proof.
  intros H0 Hv Hb Hstep. destruct Hstep; cbn [shared]; try exact Hb.
  - by apply depths_bounded_setup.
  - unfold depths_bounded.
    destruct (core_inv _ _ (run_failed_core env e (run_setup cfg env (shared sys)).2))
      as (_ & _ & ->).
    by apply depths_bounded_setup.
  - unfold depths_bounded.
    by destruct (core_inv _ _ (run_finished_core env (shared sys))) as (_ & _ & ->).
  - assert (Hn : (node < length (heap (shared sys)))%nat)
      by (by apply (valid_refs_worker sys i (mkWorker node Running))).
    eapply depths_bounded_expands; [exact Hn | done |].
    by apply process_artist_body_expands.
  - unfold depths_bounded. destruct (stop_core env (shared sys)) as [Hc _].
    by apply core_inv in Hc as (_ & _ & ->).
Qed.

Lemma reachable_depths_bounded cfg sys :
  0 <= max_depth cfg -> reachable cfg sys -> depths_bounded cfg (shared sys).
Proof.
  intros H0. revert sys.
  apply (reachable_ind cfg (fun sys => depths_bounded cfg (shared sys))).
  - constructor.
  - intros s s' Hr Hb Hstep.
    eapply step_depths_bounded; eauto using reachable_valid_refs.
Qed.

Lemma run_setup_processed cfg env st :
  processed_artists (run_setup cfg env st).2 = processed_artists st.
Proof.
  destruct (run_setup_cases cfg env st) as [Hc|(? & ? & ? & _)]; [|done].
  by apply core_inv in Hc as (? & _).
Qed.

(** A step leaves the processed-set alone, unless it is a call getting
    past the check: that adds the call's identifier, which is new, to a
    set below the cap. *)
Lemma step_processed cfg sys sys' :
  step_spec cfg sys sys' ->
  processed_artists (shared sys') = processed_artists (shared sys)
  \/ exists i node,
       workers sys !! i = Some (mkWorker node Submitted)
       /\ (spotify_id (node_at (shared sys) node) ∉ processed_artists (shared sys))
       /\ Z.of_nat (size (processed_artists (shared sys))) < max_artists cfg
       /\ sys' = mkSystem
                   (set_processed_artists
                      (fun s => s ∪ {[spotify_id (node_at (shared sys) node)]})
                      (shared sys))
                   (driver sys) (<[i := mkWorker node Running]> (workers sys)).
Proof.
  intros Hstep. destruct Hstep; cbn [shared]; try (by left).
  - left. apply run_setup_processed.
  - left.
    destruct (core_inv _ _ (run_failed_core env e (run_setup cfg env (shared sys)).2))
      as (-> & _).
    apply run_setup_processed.
  - left. by destruct (core_inv _ _ (run_finished_core env (shared sys))) as (-> & _).
  - right. by exists i, node.
  - left. apply process_artist_body_processed.
  - left. destruct (stop_core env (shared sys)) as [Hc _].
    by apply core_inv in Hc as (-> & _).
Qed.

Lemma reachable_cap cfg sys :
  0 <= max_artists cfg -> reachable cfg sys ->
  Z.of_nat (size (processed_artists (shared sys))) <= max_artists cfg.
Proof.
  intros H0. revert sys.
  apply (reachable_ind cfg (fun sys =>
    Z.of_nat (size (processed_artists (shared sys))) <= max_artists cfg)).
  - change (Z.of_nat (size (∅ : gset string)) <= max_artists cfg).
    rewrite size_empty. lia.
  - intros s s' _ IH Hstep.
    destruct (step_processed cfg s s' Hstep) as [->|(i & node & _ & Hx & Hlt & ->)]; [done|].
    cbn [shared].
    change (processed_artists (set_processed_artists _ _))
      with (processed_artists (shared s) ∪ {[spotify_id (node_at (shared s) node)]}).
    rewrite size_union by (by apply disjoint_singleton_r). rewrite size_singleton. lia.
Qed.

(** Outside a batch, no call of [process_artist] is under way. *)
Definition in_batch (pc : driver_pc) : bool :=
  match pc with Batch _ => true | _ => false end.

Lemma returned_not_pending (ws : list worker) i node st :
  forallb returned ws = true -> ws !! i = Some (mkWorker node st) ->
  st = Skipped \/ st = Completed.
Proof.
  intros Hall Hi. rewrite forallb_forall in Hall.
  assert (Hin : In (mkWorker node st) ws).
  { apply list_elem_of_In. by eapply list_elem_of_lookup_2. }
  specialize (Hall _ Hin). destruct st; simpl in Hall; auto; discriminate.
Qed.

Lemma step_quiet cfg sys sys' :
  (in_batch (driver sys) = false -> forallb returned (workers sys) = true) ->
  step_spec cfg sys sys' ->
  (in_batch (driver sys') = false -> forallb returned (workers sys') = true).
Proof.
  intros IH Hstep. destruct Hstep; cbn [driver workers in_batch];
    try (intros _; apply IH; by match goal with H : driver _ = _ |- _ => rewrite H end);
    try discriminate; try done.
  all: intros Hpc; specialize (IH Hpc);
    match goal with H : workers _ !! _ = Some _ |- _ =>
      destruct (returned_not_pending _ _ _ _ IH H); discriminate end.
Qed.

Lemma reachable_quiet cfg sys :
  reachable cfg sys -> in_batch (driver sys) = false ->
  forallb returned (workers sys) = true.
Proof.
  revert sys.
  apply (reachable_ind cfg (fun sys => in_batch (driver sys) = false ->
                                       forallb returned (workers sys) = true)).
  - done.
  - intros s s' _ IH Hstep. by eapply step_quiet.
Qed.

(** ** De-duplication *)

(** A call of [process_artist] that got past the check. *)
Definition won (w : worker) : bool :=
  match w_status w with
  | Running | Completed => true
  | Submitted | Skipped => false
  end.

Definition worker_id (s : State) (w : worker) : string :=
  spotify_id (node_at s (w_node w)).

(** The processed-set holds exactly the identifiers of the calls that got
    past the check; no two such calls carry the same identifier; and a
    call that was turned away either met its identifier in the set or met
    a full set. *)
Record dedup_inv (cfg : Config) (sys : System) : Prop := mkDedup {
  dedup_in : forall x,
    x ∈ processed_artists (shared sys) <->
    exists i w, workers sys !! i = Some w /\ won w = true
                /\ worker_id (shared sys) w = x;
  dedup_unique : forall i j wi wj,
    workers sys !! i = Some wi -> workers sys !! j = Some wj ->
    won wi = true -> won wj = true ->
    worker_id (shared sys) wi = worker_id (shared sys) wj -> i = j;
  dedup_lost : forall i w,
    workers sys !! i = Some w -> w_status w = Skipped ->
    worker_id (shared sys) w ∈ processed_artists (shared sys)
    \/ max_artists cfg <= Z.of_nat (size (processed_artists (shared sys)));
}.

Lemma worker_id_stable s s' w :
  heap_grows (heap s) (heap s') -> (w_node w < length (heap s))%nat ->
  worker_id s' w = worker_id s w.
Proof.
  intros Hg Hw. unfold worker_id.
  by destruct (node_at_frozen s s' (w_node w) Hg Hw) as (? & _).
Qed.

(** Steps that leave the processed-set alone and change no worker from
    not-past-the-check to past-the-check or back. *)
Lemma dedup_transfer cfg sys st' pc ws' :
  valid_refs sys ->
  heap_grows (heap (shared sys)) (heap st') ->
  processed_artists st' = processed_artists (shared sys) ->
  (forall j w, workers sys !! j = Some w ->
     exists w', ws' !! j = Some w' /\ w_node w' = w_node w /\ won w' = won w) ->
  (forall j w', ws' !! j = Some w' ->
     (exists w, workers sys !! j = Some w /\ w_node w' = w_node w /\ won w' = won w
                /\ (w_status w' = Skipped ->
                    w_status w = Skipped
                    \/ worker_id (shared sys) w ∈ processed_artists (shared sys)
                    \/ max_artists cfg <= Z.of_nat (size (processed_artists (shared sys)))))
     \/ (won w' = false /\ w_status w' <> Skipped)) ->
  dedup_inv cfg sys -> dedup_inv cfg (mkSystem st' pc ws').
Proof.
  intros Hv Hg Hp Hfwd Hbwd [Hin Huniq Hlost].
  assert (Hid : forall j w w', workers sys !! j = Some w -> w_node w' = w_node w ->
                  worker_id st' w' = worker_id (shared sys) w).
  { intros j w w' Hj Hn. unfold worker_id at 1. rewrite Hn.
    apply (worker_id_stable (shared sys) st' w Hg). by eapply valid_refs_worker. }
  split; cbn [shared workers].
  - intros x. rewrite Hp, Hin. split.
    + intros (i & w & Hi & Hw & Hx). destruct (Hfwd i w Hi) as (w' & Hi' & Hn & Hw').
      exists i, w'. split; [done|]. split; [congruence|].
      by rewrite (Hid i w w' Hi Hn).
    + intros (i & w' & Hi' & Hw' & Hx).
      destruct (Hbwd i w' Hi') as [(w & Hi & Hn & Hw & _)|[Hf _]]; [|congruence].
      exists i, w. split; [done|]. split; [congruence|].
      by rewrite <- (Hid i w w' Hi Hn).
  - intros i j wi' wj' Hi' Hj' Hwi Hwj Hids.
    destruct (Hbwd i wi' Hi') as [(wi & Hi & Hni & Hwi0 & _)|[Hf _]]; [|congruence].
    destruct (Hbwd j wj' Hj') as [(wj & Hj & Hnj & Hwj0 & _)|[Hf _]]; [|congruence].
    apply (Huniq i j wi wj Hi Hj); [congruence | congruence |].
    by rewrite <- (Hid i wi wi' Hi Hni), <- (Hid j wj wj' Hj Hnj).
  - intros i w' Hi' Hs. rewrite Hp.
    destruct (Hbwd i w' Hi') as [(w & Hi & Hn & _ & Hsk)|[_ Hns]]; [|done].
    rewrite (Hid i w w' Hi Hn).
    destruct (Hsk Hs) as [Hold|Hnew]; [by apply (Hlost i w) | done].
Qed.

Lemma dedup_same_workers cfg sys st' pc :
  valid_refs sys ->
  heap_grows (heap (shared sys)) (heap st') ->
  processed_artists st' = processed_artists (shared sys) ->
  dedup_inv cfg sys -> dedup_inv cfg (mkSystem st' pc (workers sys)).
Proof.
  intros Hv Hg Hp. apply dedup_transfer; try done.
  - intros j w Hj. by exists w.
  - intros j w Hj. left. exists w. repeat split; try done. by left.
Qed.

(** The check is passed: a new identifier enters the set. *)
Lemma dedup_lock_win cfg sys i node :
  workers sys !! i = Some (mkWorker node Submitted) ->
  spotify_id (node_at (shared sys) node) ∉ processed_artists (shared sys) ->
  dedup_inv cfg sys ->
  dedup_inv cfg
    (mkSystem (set_processed_artists
                 (fun s => s ∪ {[spotify_id (node_at (shared sys) node)]}) (shared sys))
              (driver sys) (<[i := mkWorker node Running]> (workers sys))).
Proof.
  intros Hi Hfresh [Hin Huniq Hlost].
  set (id := spotify_id (node_at (shared sys) node)) in *.
  assert (Hlen : (i < length (workers sys))%nat) by (by eapply lookup_lt_Some).
  split; cbn [shared workers].
  - intros x.
    change (processed_artists (set_processed_artists _ _))
      with (processed_artists (shared sys) ∪ {[id]}).
    rewrite elem_of_union, elem_of_singleton, Hin. split.
    + intros [(j & w & Hj & Hw & Hx)| ->].
      * exists j, w. split; [|done]. rewrite list_lookup_insert_ne; [done|].
        intros ->. rewrite Hi in Hj. by injection Hj as <-.
      * exists i, (mkWorker node Running). by rewrite list_lookup_insert_eq.
    + intros (j & w & Hj & Hw & Hx).
      apply list_lookup_insert_Some in Hj as [(-> & <- & _)|[Hne Hj]].
      * by right.
      * left. by exists j, w.
  - intros j1 j2 w1 w2 H1 H2 Hw1 Hw2 Hids.
    change (worker_id (set_processed_artists _ _) w1) with (worker_id (shared sys) w1) in Hids.
    change (worker_id (set_processed_artists _ _) w2) with (worker_id (shared sys) w2) in Hids.
    apply list_lookup_insert_Some in H1 as [(-> & <- & _)|[Hne1 H1]];
      apply list_lookup_insert_Some in H2 as [(-> & <- & _)|[Hne2 H2]]; try done.
    + exfalso. apply Hfresh, Hin. exists j2, w2. by rewrite <- Hids.
    + exfalso. apply Hfresh, Hin. exists j1, w1. by rewrite Hids.
    + by apply (Huniq j1 j2 w1 w2).
  - intros j w Hj Hs.
    change (processed_artists (set_processed_artists _ _))
      with (processed_artists (shared sys) ∪ {[id]}).
    change (worker_id (set_processed_artists _ _) w) with (worker_id (shared sys) w).
    apply list_lookup_insert_Some in Hj as [(-> & <- & _)|[Hne Hj]]; [discriminate|].
    destruct (Hlost j w Hj Hs) as [Hold|Hfull].
    + left. apply elem_of_union. by left.
    + right. rewrite size_union by (by apply disjoint_singleton_r). lia.
Qed.

Lemma step_dedup cfg sys sys' :
  valid_refs sys -> dedup_inv cfg sys -> step_spec cfg sys sys' -> dedup_inv cfg sys'.
Proof.
  intros Hv Hinv Hstep.
  pose proof (step_grows cfg sys sys' Hv Hstep) as Hg.
  destruct (step_processed cfg sys sys' Hstep)
    as [Hp|(i & node & Hi & Hfresh & _ & ->)]; [|by apply dedup_lock_win].
  destruct Hstep; cbn [shared] in Hg, Hp.
  1-6, 8, 12: by apply dedup_same_workers.
  - (* submit *)
    apply (dedup_transfer cfg sys); try done.
    + intros j w Hj. exists w. split; [|done]. by apply lookup_app_l_Some.
    + intros j w' Hj. apply lookup_snoc_Some in Hj as [[_ Hj]|[_ <-]].
      * left. exists w'. repeat split; try done. by left.
      * right. by split.
  - (* the check is passed *)
    by apply dedup_lock_win.
  - (* the call is turned away *)
    match goal with H : workers sys !! i = Some _ |- _ => rename H into Hi end.
    apply (dedup_transfer cfg sys); try done.
    + intros j w Hj. destruct (decide (i = j)) as [<-|Hne].
      * rewrite Hi in Hj. injection Hj as <-.
        eexists. rewrite list_lookup_insert_eq by (by eapply lookup_lt_Some). done.
      * exists w. by rewrite list_lookup_insert_ne.
    + intros j w' Hj. left.
      apply list_lookup_insert_Some in Hj as [(-> & <- & _)|[Hne Hj]].
      * eexists. split; [exact Hi|]. repeat split; try done. intros _. by right.
      * exists w'. repeat split; try done. by left.
  - (* the rest of the function *)
    match goal with H : workers sys !! i = Some _ |- _ => rename H into Hi end.
    apply (dedup_transfer cfg sys); try done.
    + intros j w Hj. destruct (decide (i = j)) as [<-|Hne].
      * rewrite Hi in Hj. injection Hj as <-.
        eexists. rewrite list_lookup_insert_eq by (by eapply lookup_lt_Some). done.
      * exists w. by rewrite list_lookup_insert_ne.
    + intros j w' Hj. left.
      apply list_lookup_insert_Some in Hj as [(-> & <- & _)|[Hne Hj]].
      * eexists. split; [exact Hi|]. repeat split; try done.
      * exists w'. repeat split; try done. by left.
Qed.

Lemma reachable_dedup cfg sys : reachable cfg sys -> dedup_inv cfg sys.
Proof.
  revert sys. apply (reachable_ind cfg (dedup_inv cfg)).
  - split; cbn [shared workers init_system].
    + intros x. split; [intros Hx; by apply not_elem_of_empty in Hx|].
      intros (i & w & Hi & _). by rewrite lookup_nil in Hi.
    + intros i j wi wj Hi. by rewrite lookup_nil in Hi.
    + intros i w Hi. by rewrite lookup_nil in Hi.
  - intros s s' Hr IH Hstep. eapply step_dedup; eauto using reachable_valid_refs.
Qed.

(** ** The seed URL gate *)

(** [is_valid_url] says yes exactly when the URL parses, has a scheme and
    a network location, and some allowed domain occurs somewhere inside
    the network location. *)
Lemma is_valid_url_spec f url (allowed : list string) :
  is_valid_url f url allowed = true <->
  exists r, urlparse f url = Some r
            /\ scheme r <> "" /\ netloc r <> ""
            /\ exists d, d ∈ allowed /\ exists pre post, netloc r = pre +:+ d +:+ post.
Proof.
  unfold is_valid_url. destruct (urlparse f url) as [r|]; [|split; [discriminate|]].
  - rewrite !andb_true_iff, existsb_exists. split.
    + intros [[Hs Hn] (d & Hin & Hd)]. exists r. split; [done|].
      split; [by destruct (scheme r)|]. split; [by destruct (netloc r)|].
      exists d. split; [by apply list_elem_of_In | by apply contains_spec].
    + intros (r' & [= <-] & Hs & Hn & d & Hin & Hd).
      split; [split; [by destruct (scheme r) | by destruct (netloc r)]|].
      exists d. split; [by apply list_elem_of_In | by apply contains_spec].
  - by intros (r & Hr & _).
Qed.






(** C9. [is_valid_url] accepts a URL whose network location merely
    contains an allowed domain as a substring: the URL with network
    location [open.spotify.com.attacker.example] is accepted, and in
    general a URL is accepted exactly when it has a scheme and some
    allowed domain occurs somewhere inside its network location. *)
Theorem is_valid_url_tests_containment :
  (forall f,
     urlparse f "https://open.spotify.com.attacker.example/artist/ABC123"
     = Some (mkParse "https" "open.spotify.com.attacker.example")
     /\ is_valid_url f "https://open.spotify.com.attacker.example/artist/ABC123"
          ["open.spotify.com"] = true)
  /\ (forall f url allowed,
        is_valid_url f url allowed = true <->
        exists r, urlparse f url = Some r
                  /\ scheme r <> "" /\ netloc r <> ""
                  /\ exists d, d ∈ allowed
                               /\ exists pre post, netloc r = pre +:+ d +:+ post).
Proof.
  split.
  - intros f. split; reflexivity.
  - intros f url allowed. apply is_valid_url_spec.
Qed.



(** ** Reporting an artist's outcome *)

Lemma set_trace_app st (t1 t2 : list event) :
  set_trace (fun t => t ++ t2) (set_trace (fun t => t ++ t1) st)
  = set_trace (fun t => t ++ t1 ++ t2) st.
Proof. unfold set_trace. simpl. by rewrite app_assoc. Qed.

(** The check is passed by a new identifier below the cap. *)
Lemma process_artist_dispatch cfg env n st :
  spotify_id (node_at st n) ∉ processed_artists st ->
  Z.of_nat (size (processed_artists st)) < max_artists cfg ->
  process_artist cfg env n st =
  process_artist_body cfg env n
    (set_processed_artists (fun s => s ∪ {[spotify_id (node_at st n)]}) st).
Proof.
  intros Hnew Hroom. unfold process_artist. rewrite bind_unfold, process_artist_locked_eq.
  rewrite bool_decide_eq_false_2 by done.
  by replace (max_artists cfg <=? Z.of_nat (size (processed_artists st))) with false by lia.
Qed.

(** The sibling class does report a failure when processing raises. *)
Lemma ArtistProcessor_run_reports_exception self env st e :
  sp_artist env (ArtistProcessor.spotify_id self) = Raise e ->
  exists t,
    trace (ArtistProcessor.run self env st).2
    = t ++ [ArtistFinished
              ("Unknown|" +:+ ArtistProcessor.spotify_id self +:+ "|"
               +:+ pretty (ArtistProcessor.deezer_id self)) false].
Proof.
  intros He. unfold ArtistProcessor.run, try_except, call_artist.
  rewrite !bind_unfold. cbn -[pretty String.append]. rewrite He.
  rewrite !bind_unfold. cbn -[pretty String.append]. eauto.
Qed.

Lemma process_artist_body_no_match cfg env n s a :
  sp_artist env (spotify_id (node_at s n)) = Ok a ->
  dz_search env (sp_name a) = Ok [] ->
  process_artist_body cfg env n s =
  (Ok tt, set_trace (fun t => t ++ [CallArtist (spotify_id (node_at s n));
                                   CallSearch (sp_name a);
                                   Output ("Could not find Deezer artist for: "
                                           +:+ name (node_at s n))]) s).
Proof.
  intros Ha Hs.
  unfold process_artist_body, read_node, try_except, call_artist, find_deezer_artist,
    try_except, emit, modify, lift, gets.
  rewrite !bind_unfold. cbn -[String.append node_at]. rewrite Ha.
  rewrite !bind_unfold. cbn -[String.append node_at]. rewrite Hs.
  cbn -[String.append node_at]. unfold set_trace. cbn -[String.append node_at].
  by rewrite <- !app_assoc.
Qed.

Lemma process_artist_body_raise cfg env n s e :
  sp_artist env (spotify_id (node_at s n)) = Raise e ->
  process_artist_body cfg env n s =
  (Ok tt, set_trace (fun t => t ++ [CallArtist (spotify_id (node_at s n));
                                   Output ("Error processing artist "
                                           +:+ name (node_at s n) +:+ ": " +:+ e);
                                   LogError ("Error processing artist "
                                             +:+ name (node_at s n) +:+ ": " +:+ e)]) s).
Proof.
  intros He.
  unfold process_artist_body, read_node, try_except, call_artist, emit, modify, lift, gets.
  rewrite !bind_unfold. cbn -[String.append node_at]. rewrite He.
  rewrite !bind_unfold. cbn -[String.append node_at].
  unfold set_trace. cbn -[String.append node_at].
  by rewrite <- !app_assoc.
Qed.

(** C1 fails on the code: a node that got past the de-duplication check
    and for which the name search finds nothing, or for which the catalog
    lookup raises, ends with a log line only.  No finished event is
    emitted, and the downloader is not invoked. *)
Theorem process_artist_failure_unreported cfg env n st :
  spotify_id (node_at st n) ∉ processed_artists st ->
  Z.of_nat (size (processed_artists st)) < max_artists cfg ->
  let id := spotify_id (node_at st n) in
  let st1 := set_processed_artists (fun s => s ∪ {[id]}) st in
  (forall a, sp_artist env id = Ok a -> dz_search env (sp_name a) = Ok [] ->
     process_artist cfg env n st =
     (Ok tt, set_trace (fun t => t ++ [CallArtist id; CallSearch (sp_name a);
                                      Output ("Could not find Deezer artist for: "
                                              +:+ name (node_at st n))]) st1))
  /\ (forall e, sp_artist env id = Raise e ->
        process_artist cfg env n st =
        (Ok tt, set_trace (fun t => t ++ [CallArtist id;
                                         Output ("Error processing artist "
                                                 +:+ name (node_at st n) +:+ ": " +:+ e);
                                         LogError ("Error processing artist "
                                                   +:+ name (node_at st n) +:+ ": " +:+ e)])
                          st1)).
Proof.
  intros Hnew Hroom id st1. rewrite process_artist_dispatch by done.
  split.
  - intros a Ha Hs. exact (process_artist_body_no_match cfg env n st1 a Ha Hs).
  - intros e He. exact (process_artist_body_raise cfg env n st1 e He).
Qed.

(** ** The relative-selection heuristic *)

Lemma draw_length {A} (rnd : list nat) (pool : list A) k :
  (k <= length pool)%nat -> length (PyRandom.draw rnd pool k) = k.
Proof.
  revert rnd pool. induction k as [|k IH]; intros rnd pool Hk; [done|].
  destruct pool as [|x0 pool]; [simpl in Hk; lia|].
  cbn [PyRandom.draw].
  set (i := (hd O rnd mod length (x0 :: pool))%nat).
  assert (Hi : (i < length (x0 :: pool))%nat) by (apply Nat.mod_upper_bound; simpl; lia).
  cbn [length]. f_equal. apply IH.
  rewrite length_delete by (by apply lookup_lt_is_Some_2).
  simpl in *. lia.
Qed.

Lemma draw_elem_of {A} (rnd : list nat) (pool : list A) k x :
  x ∈ PyRandom.draw rnd pool k -> x ∈ pool.
Proof.
  revert rnd pool. induction k as [|k IH]; intros rnd pool; simpl.
  - intros H. by apply elem_of_nil in H.
  - destruct pool as [|x0 pool]; [intros H; by apply elem_of_nil in H|].
    set (i := (hd O rnd mod length (x0 :: pool))%nat).
    assert (Hi : (i < length (x0 :: pool))%nat) by (apply Nat.mod_upper_bound; simpl; lia).
    intros [->|Hin]%elem_of_cons.
    + by apply list_elem_of_In, nth_In.
    + apply IH in Hin. by apply list_elem_of_delete_inv in Hin.
Qed.

(** [random.sample] does not raise when asked for between [0] and
    [len(pool)] elements, and gives as many as asked for. *)
Lemma sample_ok {A} (rnd : list nat) (pool : list A) k :
  0 <= k <= Z.of_nat (length pool) ->
  exists out, PyRandom.sample rnd pool k = Ok out
              /\ Z.of_nat (length out) = k /\ forall x, x ∈ out -> x ∈ pool.
Proof.
  intros Hk. unfold PyRandom.sample.
  replace (k <? 0) with false by lia.
  replace (Z.of_nat (length pool) <? k) with false by lia. simpl.
  eexists. split; [done|]. split.
  - rewrite draw_length by lia. lia.
  - intros x. apply draw_elem_of.
Qed.

(** The loop never raises; it keeps what it had, in order, and with room
    for at least one more at the start it does not go over the limit. *)
Lemma wildly_different_loop_bound cfg env candidates kept st :
  Z.of_nat (length kept) < related_limit cfg ->
  exists kept', (wildly_different_loop cfg env candidates kept st).1 = Ok kept'
                /\ Z.of_nat (length kept') <= related_limit cfg.
Proof.
  revert kept st. induction candidates as [|artist rest IH]; intros kept st Hlt.
  - exists kept. split; [done|lia].
  - cbn [wildly_different_loop]. rewrite bind_unfold.
    unfold try_except at 1. unfold call_artist, emit, modify, lift, gets.
    rewrite !bind_unfold. cbn -[String.append].
    destruct (sp_artist env (sp_id artist)) as [full|e]; cbn -[String.append].
    + rewrite !bind_unfold. cbn -[String.append].
      destruct (decide (_ = ∅)) as [Hempty|Hnew]; cbn -[String.append].
      * replace (related_limit cfg <=? Z.of_nat (length kept)) with false by lia.
        by apply IH.
      * rewrite !bind_unfold. cbn -[String.append].
        destruct (related_limit cfg <=? Z.of_nat (length (kept ++ [artist]))) eqn:Hstop.
        -- exists (kept ++ [artist]). split; [done|].
           rewrite length_app in *. simpl in *. lia.
        -- apply IH. lia.
    + rewrite !bind_unfold. cbn -[String.append]. by apply IH.
Qed.

Lemma top_up_request_capped cfg (related_artists kept : list SpotifyArtist) :
  (top_up_request cfg related_artists kept).2
  <= Z.of_nat (length (top_up_request cfg related_artists kept).1).
Proof. unfold top_up_request. simpl. lia. Qed.

(** C6, amended. With a related limit [N] of at least 1 (the GUI offers
    1 to 20), [get_wildly_different_artists] returns, without raising, at
    most [N] artists; and the number of elements asked of [random.sample] is never
    more than the pool of unkept candidates holds (and not negative when
    the call is made, that is when fewer than [N] were kept). *)
Theorem get_wildly_different_artists_bounded cfg env source_artist related_artists st :
  1 <= related_limit cfg ->
  (exists out,
     (get_wildly_different_artists cfg env source_artist related_artists st).1 = Ok out
     /\ Z.of_nat (length out) <= related_limit cfg)
  /\ (forall kept,
        (top_up_request cfg related_artists kept).2
        <= Z.of_nat (length (top_up_request cfg related_artists kept).1)
        /\ (Z.of_nat (length kept) < related_limit cfg ->
            0 <= (top_up_request cfg related_artists kept).2
            /\ exists extra,
                 PyRandom.sample (rnd_sample env)
                   (top_up_request cfg related_artists kept).1
                   (top_up_request cfg related_artists kept).2 = Ok extra)).
Proof.
  intros HN.
  assert (Hreq : forall kept,
    Z.of_nat (length kept) < related_limit cfg ->
    exists extra,
      PyRandom.sample (rnd_sample env)
        (top_up_request cfg related_artists kept).1
        (top_up_request cfg related_artists kept).2 = Ok extra
      /\ Z.of_nat (length extra) = (top_up_request cfg related_artists kept).2).
  { intros kept Hlt.
    destruct (sample_ok (rnd_sample env) (top_up_request cfg related_artists kept).1
                (top_up_request cfg related_artists kept).2) as (extra & He & Hl & _).
    - unfold top_up_request. simpl. lia.
    - by exists extra. }
  split.
  - unfold get_wildly_different_artists. rewrite bind_unfold.
    cbn [modify]. rewrite bind_unfold.
    match goal with |- context [wildly_different_loop cfg env related_artists [] ?s] =>
      destruct (wildly_different_loop_bound cfg env related_artists [] s) as (kept & Hk & Hle);
        [simpl; lia|];
      destruct (wildly_different_loop cfg env related_artists [] s) as [r s'] end.
    simpl in Hk. subst r.
    destruct (Z.of_nat (length kept) <? related_limit cfg) eqn:Hshort.
    + destruct (Hreq kept) as (extra & He & Hl); [lia|].
      rewrite bind_unfold. unfold lift. rewrite He. simpl.
      exists (kept ++ extra). split; [done|].
      rewrite length_app, Nat2Z.inj_add, Hl. unfold top_up_request. simpl. lia.
    + exists kept. split; [done|lia].
  - intros kept. split; [apply top_up_request_capped|].
    intros Hlt. split; [unfold top_up_request; simpl; lia|].
    destruct (Hreq kept Hlt) as (extra & He & _). by exists extra.
Qed.

(** One round of the loop on a candidate whose genres the catalog gives. *)
Lemma wildly_different_loop_cons cfg env artist rest kept st full :
  sp_artist env (sp_id artist) = Ok full ->
  wildly_different_loop cfg env (artist :: rest) kept st =
  let st1 := set_trace (fun t => t ++ [CallArtist (sp_id artist)]) st in
  let new_genres := list_to_set (sp_genres full) ∖ processed_genres st in
  if decide (new_genres = ∅) then
    if related_limit cfg <=? Z.of_nat (length kept) then (Ok kept, st1)
    else wildly_different_loop cfg env rest kept st1
  else
    let st2 := set_processed_genres (fun g => g ∪ new_genres) st1 in
    if related_limit cfg <=? Z.of_nat (length (kept ++ [artist]))
    then (Ok (kept ++ [artist]), st2)
    else wildly_different_loop cfg env rest (kept ++ [artist]) st2.
Proof.
  intros Hfull. cbn [wildly_different_loop]. rewrite bind_unfold.
  unfold try_except at 1. unfold call_artist, emit, modify, lift, gets.
  rewrite !bind_unfold. cbn -[String.append]. rewrite Hfull.
  rewrite !bind_unfold. cbn -[String.append].
  destruct (decide (_ = ∅)); cbn -[String.append].
  - by destruct (related_limit cfg <=? _).
  - rewrite !bind_unfold. cbn -[String.append].
    by destruct (related_limit cfg <=? _).
Qed.

(** C5. With a related limit of 3, five distinct candidates whose genres
    are pop, pop, rock, jazz and pop, a processed-genre-set [{pop}] and a
    source artist with no genre other than pop,
    [get_wildly_different_artists] keeps candidates 3 and 4 and tops up
    with what [random.sample] draws when asked for one element of
    candidates 1, 2 and 5: three artists in all, the third being
    candidate 1, 2 or 5, each of which some draw gives. *)
Theorem get_wildly_different_artists_example cfg env source_artist c1 c2 c3 c4 c5 st :
  related_limit cfg = 3 ->
  processed_genres st = {["pop"]} ->
  (forall g, g ∈ sp_genres source_artist -> g = "pop") ->
  NoDup [c1; c2; c3; c4; c5] ->
  (exists f1 f2 f3 f4 f5,
     sp_artist env (sp_id c1) = Ok f1 /\ sp_genres f1 = ["pop"]
     /\ sp_artist env (sp_id c2) = Ok f2 /\ sp_genres f2 = ["pop"]
     /\ sp_artist env (sp_id c3) = Ok f3 /\ sp_genres f3 = ["rock"]
     /\ sp_artist env (sp_id c4) = Ok f4 /\ sp_genres f4 = ["jazz"]
     /\ sp_artist env (sp_id c5) = Ok f5 /\ sp_genres f5 = ["pop"]) ->
  let result :=
    (get_wildly_different_artists cfg env source_artist [c1; c2; c3; c4; c5] st).1 in
  top_up_request cfg [c1; c2; c3; c4; c5] [c3; c4] = ([c1; c2; c5], 1)
  /\ (exists x, PyRandom.sample (rnd_sample env) [c1; c2; c5] 1 = Ok [x]
                /\ x ∈ [c1; c2; c5]
                /\ result = Ok [c3; c4; x])
  /\ (forall x, x ∈ [c1; c2; c5] ->
        exists rnd, PyRandom.sample rnd [c1; c2; c5] 1 = Ok [x]).
Proof.
  intros HN Hseen Hsrc Hnd
    (f1 & f2 & f3 & f4 & f5 & H1 & G1 & H2 & G2 & H3 & G3 & H4 & G4 & H5 & G5) result.
  apply NoDup_cons in Hnd as [N1 Hnd]. apply NoDup_cons in Hnd as [N2 Hnd].
  apply NoDup_cons in Hnd as [N3 Hnd]. apply NoDup_cons in Hnd as [N4 _].
  assert (Htop : top_up_request cfg [c1; c2; c3; c4; c5] [c3; c4] = ([c1; c2; c5], 1)).
  { unfold top_up_request. rewrite HN.
    assert (Hf : filter (fun a => a ∉ [c3; c4]) [c1; c2; c3; c4; c5] = [c1; c2; c5]).
    { apply not_elem_of_cons in N1 as (_ & N1). apply not_elem_of_cons in N1 as (N13 & N1).
      apply not_elem_of_cons in N1 as (N14 & _).
      apply not_elem_of_cons in N2 as (N23 & N2). apply not_elem_of_cons in N2 as (N24 & _).
      apply not_elem_of_cons in N3 as (_ & N3). apply not_elem_of_cons in N3 as (N35 & _).
      apply not_elem_of_cons in N4 as (N45 & _).
      assert (K1 : c1 ∉ [c3; c4]).
      { intros [?|[?|Hn%elem_of_nil]%elem_of_cons]%elem_of_cons; done. }
      assert (K2 : c2 ∉ [c3; c4]).
      { intros [?|[?|Hn%elem_of_nil]%elem_of_cons]%elem_of_cons; done. }
      assert (K5 : c5 ∉ [c3; c4]).
      { intros [?|[?|Hn%elem_of_nil]%elem_of_cons]%elem_of_cons; congruence. }
      assert (K3 : ~ (c3 ∉ [c3; c4])) by (intros K; apply K; by left).
      assert (K4 : ~ (c4 ∉ [c3; c4])) by (intros K; apply K; right; by left).
      rewrite filter_cons_True by exact K1. rewrite filter_cons_True by exact K2.
      rewrite filter_cons_False by exact K3. rewrite filter_cons_False by exact K4.
      rewrite filter_cons_True by exact K5. done. }
    by rewrite Hf. }
  split; [exact Htop|]. split.
  - assert (Hs : PyRandom.sample (rnd_sample env) [c1; c2; c5] 1
                 = Ok [nth (hd O (rnd_sample env) mod 3)%nat [c1; c2; c5] c1])
      by reflexivity.
    eexists. split; [exact Hs|]. split.
    { apply list_elem_of_In, nth_In. apply Nat.mod_upper_bound. done. }
    unfold result, get_wildly_different_artists. rewrite bind_unfold.
    cbn [modify]. rewrite bind_unfold.
    set (s0 := set_processed_genres _ st).
    assert (Hs0 : processed_genres s0 = {["pop"]}).
    { unfold s0. cbn [processed_genres set_processed_genres]. rewrite Hseen.
      apply set_eq. intros g. rewrite elem_of_union, elem_of_list_to_set, elem_of_singleton.
      split; [intros [?|?]; auto | auto]. }
    rewrite (wildly_different_loop_cons _ _ _ _ _ _ f1 H1).
    cbn zeta. rewrite G1, Hs0, HN.
    rewrite decide_True by (clear; set_solver).
    change (3 <=? Z.of_nat (length (@nil SpotifyArtist))) with false. cbv iota.
    rewrite (wildly_different_loop_cons _ _ _ _ _ _ f2 H2).
    cbn zeta. cbn [processed_genres set_trace]. rewrite G2, Hs0, HN.
    rewrite decide_True by (clear; set_solver).
    change (3 <=? Z.of_nat (length (@nil SpotifyArtist))) with false. cbv iota.
    rewrite (wildly_different_loop_cons _ _ _ _ _ _ f3 H3).
    cbn zeta. cbn [processed_genres set_trace]. rewrite G3, Hs0, HN.
    rewrite decide_False by (clear; set_solver).
    change (3 <=? Z.of_nat (length ([] ++ [c3]))) with false. cbv iota.
    change ([] ++ [c3]) with [c3].
    rewrite (wildly_different_loop_cons _ _ _ _ _ _ f4 H4).
    cbn zeta. cbn [processed_genres set_trace set_processed_genres]. rewrite G4, Hs0, HN.
    rewrite decide_False by (clear; set_solver).
    change (3 <=? Z.of_nat (length ([c3] ++ [c4]))) with false. cbv iota.
    change ([c3] ++ [c4]) with [c3; c4].
    rewrite (wildly_different_loop_cons _ _ _ _ _ _ f5 H5).
    cbn zeta. cbn [processed_genres set_trace set_processed_genres]. rewrite G5, Hs0, HN.
    rewrite decide_True by (clear; set_solver).
    change (3 <=? Z.of_nat (length [c3; c4])) with false. cbv iota.
    cbn [wildly_different_loop]. unfold mret, M_ret, ret.
    change (Z.of_nat (length [c3; c4]) <? 3) with true. cbv iota.
    rewrite Htop, bind_unfold. unfold lift. cbn [fst snd]. rewrite Hs. done.
  - intros x Hx.
    apply elem_of_cons in Hx as [->|Hx]; [by exists [0%nat]|].
    apply elem_of_cons in Hx as [->|Hx]; [by exists [1%nat]|].
    apply list_elem_of_singleton in Hx as ->. by exists [2%nat].
Qed.

(** ** Cancellation *)

Lemma wildly_different_loop_commutes f cfg env candidates kept :
  (forall g s, set_trace g (f s) = f (set_trace g s)) ->
  (forall g s, set_processed_genres g (f s) = f (set_processed_genres g s)) ->
  (forall s, processed_genres (f s) = processed_genres s) ->
  commutes f (wildly_different_loop cfg env candidates kept).
Proof.
  intros Ht Hg Hr. revert kept.
  induction candidates as [|artist rest IH]; intros kept; simpl.
  - apply commutes_ret.
  - unfold call_artist. repeat first [apply IH | commutes_step; eauto].
Qed.

(** Nothing in [process_artist] looks at the cancellation flag. *)
Lemma process_artist_body_ignores_flag b cfg env n :
  commutes (set_is_running b) (process_artist_body cfg env n).
Proof.
  unfold process_artist_body, find_deezer_artist, download_artist, call_artist,
    get_wildly_different_artists, enqueue_child, assign_deezer_id, append_child, queue_put.
  repeat first [ apply wildly_different_loop_commutes; intros; reflexivity
               | commutes_step; try reflexivity ].
Qed.

Lemma process_artist_locked_ignores_flag b cfg n :
  commutes (set_is_running b) (process_artist_locked cfg n).
Proof.
  unfold process_artist_locked.
  repeat (commutes_step; try reflexivity).
Qed.

Definition with_flag (b : bool) (sys : System) : System :=
  mkSystem (set_is_running b (shared sys)) (driver sys) (workers sys).

(** Submissions the driver still has to make in the batch it is in. *)
Definition pending (pc : driver_pc) : nat :=
  match pc with Batch todo => todo | _ => O end.

Lemma flag_stays_cleared_in (m : M unit) st :
  preserves (fun s => is_running s = false) m ->
  is_running st = false -> is_running (m st).2 = false.
Proof. intros H. apply H. Qed.

Lemma cleanup_keeps_flag env :
  preserves (fun s => is_running s = false) (cleanup_batch_files env).
Proof. unfold cleanup_batch_files. repeat (preserves_step; eauto). Qed.

Lemma body_keeps_flag cfg env n :
  preserves (fun s => is_running s = false) (process_artist_body cfg env n).
Proof.
  unfold process_artist_body, find_deezer_artist, download_artist, call_artist,
    get_wildly_different_artists, enqueue_child, assign_deezer_id, append_child, queue_put.
  repeat first [ apply wildly_different_loop_preserves; eauto
               | preserves_step; eauto ].
Qed.

Lemma run_setup_keeps_flag cfg env :
  preserves (fun s => is_running s = false) (run_setup cfg env).
Proof. unfold run_setup, call_artist, queue_put. repeat (preserves_step; eauto). Qed.

(** Once the flag is cleared it stays cleared, and the driver starts no
    further batch: the calls submitted plus those still to submit in the
    current batch never grow again. *)
Lemma step_after_cancel cfg sys sys' :
  is_running (shared sys) = false -> step_spec cfg sys sys' ->
  is_running (shared sys') = false
  /\ (length (workers sys') + pending (driver sys')
      <= length (workers sys) + pending (driver sys))%nat.
Proof.
  intros Hoff Hstep.
  destruct Hstep; cbn [shared driver workers pending];
    repeat match goal with H : driver sys = _ |- _ => rewrite H; clear H end;
    cbn [pending]; rewrite ?length_insert, ?length_app; cbn [length].
  - split; [done | lia].
  - split; [by apply run_setup_keeps_flag | lia].
  - split; [|lia].
    assert (Hp : preserves (fun s => is_running s = false) (run_failed env e)).
    { unfold run_failed. repeat first [apply cleanup_keeps_flag | preserves_step; eauto]. }
    by apply Hp, run_setup_keeps_flag.
  - exfalso. unfold loop_test in *. rewrite Hoff in *.
    match goal with H : _ && false = true |- _ => rewrite andb_false_r in H; discriminate end.
  - split; [|lia].
    assert (Hp : preserves (fun s => is_running s = false) (run_finished env)).
    { unfold run_finished. repeat first [apply cleanup_keeps_flag | preserves_step; eauto]. }
    by apply Hp.
  - split; [done | lia].
  - split; [done | lia].
  - split; [done | lia].
  - split; [done | lia].
  - split; [done | lia].
  - split; [by apply body_keeps_flag | lia].
  - split; [|lia]. by destruct (stop_core env (shared sys)).
Qed.

Lemma exec_after_cancel cfg ls sys sys' :
  is_running (shared sys) = false -> exec cfg ls sys = Some sys' ->
  is_running (shared sys') = false
  /\ (length (workers sys') + pending (driver sys')
      <= length (workers sys) + pending (driver sys))%nat.
Proof.
  revert sys. induction ls as [|l ls IH]; intros sys Hoff; simpl.
  - intros [= <-]. split; [done | lia].
  - destruct (step cfg l sys) as [sys1|] eqn:E; [|discriminate]. intros Hexec.
    destruct (step_after_cancel cfg sys sys1 Hoff (step_cases _ _ _ _ E)) as [Hoff1 Hle1].
    destruct (IH sys1 Hoff1 Hexec) as [Hoff' Hle']. split; [done | lia].
Qed.

(** ** A small world to run the program in

    Artist A is related to B and C; B and C are both related to D and X.
    Every artist resolves on the target catalog and every download
    succeeds.  The run is capped at four artists. *)
Module Scenario.

Definition related (id : string) : list SpotifyArtist :=
  if String.eqb id "A" then [mkSp "B" "Bee" []; mkSp "C" "Cee" []]
  else if String.eqb id "B" then [mkSp "D" "Dee" []; mkSp "X" "Ex" []]
  else if String.eqb id "C" then [mkSp "D" "Dee" []; mkSp "X" "Ex" []]
  else [].

Definition world : Env :=
  mkEnv (fun id => Ok (mkSp id ("artist " +:+ id) []))
        (fun id => Ok (related id))
        (fun nm => Ok [mkDz 7 nm])
        (fun id => Ok (mkDz id "seven"))
        (fun _ => Ok tt) (fun _ => Ok tt) (fun _ => Ok tt)
        [] []
        (fun a b => a +:+ "/" +:+ b)
        (fun _ => true).

(** A catalog on which no artist is found by name. *)
Definition unknown_world : Env :=
  mkEnv (sp_artist world) (sp_related world) (fun _ => Ok [])
        (dz_get_artist world) (fs_prepare world) (deemix world) (fs_remove world)
        [] [] (path_join world) (bracketed_host_ok world).

Definition cfg : Config :=
  mkConfig "https://open.spotify.com/artist/A" "out" 4 5 false false 3 2.

Definition d : label := DriverStep world.

(** The root alone, then B and C together, then the four grandchildren
    together; the run ends when the cap is reached. *)
Definition schedule : list label :=
  [d; d; d; WorkerLock 0; WorkerBody 0 world; d; d; d; d;
   WorkerLock 1; WorkerLock 2; WorkerBody 1 world; WorkerBody 2 world;
   d; d; d; d; d; d;
   WorkerLock 3; WorkerLock 4; WorkerLock 5; WorkerLock 6; WorkerBody 3 world; d; d].

Definition final : System := default init_system (exec cfg schedule init_system).

(** The state after the root has been processed and before the next
    batch: B and C wait in the queue. *)
Definition after_root : System :=
  default init_system (exec cfg (take 6 schedule) init_system).

End Scenario.

Lemma scenario_final_reachable : reachable Scenario.cfg Scenario.final.
Proof. exists Scenario.schedule. vm_compute. reflexivity. Qed.

Lemma scenario_after_root_reachable : reachable Scenario.cfg Scenario.after_root.
Proof. exists (take 6 Scenario.schedule). vm_compute. reflexivity. Qed.

(** ** The claims about de-duplication, the cap and the depth *)

Lemma process_artist_turned_away cfg env n st :
  spotify_id (node_at st n) ∈ processed_artists st
  \/ max_artists cfg <= Z.of_nat (size (processed_artists st)) ->
  process_artist cfg env n st = (Ok tt, st).
Proof.
  intros H. unfold process_artist. rewrite bind_unfold, process_artist_locked_eq.
  destruct H as [H|H].
  - by rewrite bool_decide_eq_true_2.
  - replace (max_artists cfg <=? Z.of_nat (size (processed_artists st))) with true by lia.
    by rewrite orb_true_r.
Qed.

Lemma scenario_X_not_processed :
  "X" ∉ processed_artists (shared Scenario.final).
Proof.
  assert (E : bool_decide ("X" ∈ elements (processed_artists (shared Scenario.final)))
              = false) by (vm_compute; reflexivity).
  apply bool_decide_eq_false in E. intros H. apply E. by apply elem_of_elements.
Qed.

(** C2, as stated, fails: calls of [process_artist] carrying one
    identifier may all be turned away.  In the scenario the identifier X
    is dispatched twice, after the cap has been reached, and no call
    carrying X gets past the check. *)
Lemma same_identifier_no_winner :
  ~ (forall cfg sys x,
       reachable cfg sys ->
       (exists i w, workers sys !! i = Some w /\ returned w = true
                    /\ worker_id (shared sys) w = x) ->
       exists j w, workers sys !! j = Some w /\ won w = true
                   /\ worker_id (shared sys) w = x).
Proof.
  intros H.
  destruct (H Scenario.cfg Scenario.final "X" scenario_final_reachable)
    as (j & w & Hj & Hw & Hx).
  - exists 4%nat, (mkWorker 4%nat Skipped).
    split; [vm_compute; reflexivity|]. split; vm_compute; reflexivity.
  - pose proof (reachable_dedup _ _ scenario_final_reachable) as [Hin _ _].
    apply scenario_X_not_processed, Hin.
    exists j, w. split; [exact Hj|]. split; [exact Hw | exact Hx].
Qed.

(** C2, amended. In every state the threads can reach: the processed-set
    holds exactly the identifiers of the calls that got past the check;
    no two calls that got past it carry the same identifier; a call that
    was turned away carries an identifier that is in the set (so exactly
    one call carrying it got past) or met a set that had reached the cap;
    and a call that is turned away changes nothing. *)
Theorem dedup_at_most_one_winner cfg sys :
  reachable cfg sys ->
  (forall x,
     x ∈ processed_artists (shared sys) <->
     exists i w, workers sys !! i = Some w /\ won w = true
                 /\ worker_id (shared sys) w = x)
  /\ (forall i j wi wj,
        workers sys !! i = Some wi -> workers sys !! j = Some wj ->
        won wi = true -> won wj = true ->
        worker_id (shared sys) wi = worker_id (shared sys) wj -> i = j)
  /\ (forall i w,
        workers sys !! i = Some w -> w_status w = Skipped ->
        worker_id (shared sys) w ∈ processed_artists (shared sys)
        \/ max_artists cfg <= Z.of_nat (size (processed_artists (shared sys))))
  /\ (forall env n st,
        spotify_id (node_at st n) ∈ processed_artists st
        \/ max_artists cfg <= Z.of_nat (size (processed_artists st)) ->
        process_artist cfg env n st = (Ok tt, st)).
Proof.
  intros Hr. destruct (reachable_dedup cfg sys Hr) as [Hin Huniq Hlost].
  split; [exact Hin|]. split; [exact Huniq|]. split; [exact Hlost|].
  intros env n st. apply process_artist_turned_away.
Qed.

(** C3. With a cap that is not negative (the GUI offers 1 to 1000), the
    processed-set never holds more than [max_artists] identifiers, in any
    state the threads can reach; and [process_artist] inserts nothing
    when the set has reached the cap. *)
Theorem processed_set_within_cap cfg :
  0 <= max_artists cfg ->
  (forall sys, reachable cfg sys ->
     Z.of_nat (size (processed_artists (shared sys))) <= max_artists cfg)
  /\ (forall env n st,
        max_artists cfg <= Z.of_nat (size (processed_artists st)) ->
        process_artist cfg env n st = (Ok tt, st)).
Proof.
  intros H0. split.
  - intros sys. by apply reachable_cap.
  - intros env n st Hfull. apply process_artist_turned_away. by right.
Qed.

(** C4. [process_artist], called on a node of the arena, appends to the
    queue only new nodes that are children of that node, one level below
    it, and none of them lies below the depth limit.  With a depth limit
    that is not negative (the GUI offers 1 to 10) no node in the queue
    ever lies below the limit. *)
Theorem enqueued_children_depth cfg env n st :
  (n < length (heap st))%nat ->
  (exists new,
     artist_queue (process_artist cfg env n st).2 = artist_queue st ++ new
     /\ forall c, c ∈ new ->
          (length (heap st) <= c)%nat
          /\ c ∈ children (node_at (process_artist cfg env n st).2 n)
          /\ depth (node_at (process_artist cfg env n st).2 c) = depth (node_at st n) + 1
          /\ depth (node_at (process_artist cfg env n st).2 c) <= max_depth cfg)
  /\ (0 <= max_depth cfg ->
      forall sys a, reachable cfg sys -> a ∈ artist_queue (shared sys) ->
        0 <= depth (node_at (shared sys) a) <= max_depth cfg).
Proof.
  intros Hn. split.
  - unfold process_artist. rewrite bind_unfold, process_artist_locked_eq.
    destruct (bool_decide _ || _).
    + exists []. split; [by rewrite app_nil_r|]. intros c Hc. by apply elem_of_nil in Hc.
    + set (st1 := set_processed_artists _ st).
      assert (Hn1 : (n < length (heap st1))%nat) by exact Hn.
      destruct (process_artist_body_expands cfg env n st1 Hn1) as (Hg & new & Hq & Hnew & Hcells).
      exists new. split; [exact Hq|]. intros c Hc.
      rewrite Forall_forall in Hnew. destruct (Hnew c Hc) as [[Hlo Hhi] Hchild].
      split; [exact Hlo|]. split; [exact Hchild|].
      destruct (lookup_lt_is_Some_2 _ _ Hhi) as [nd Hnd].
      rewrite (node_at_lookup _ _ _ Hnd).
      destruct (Hcells c nd Hlo Hnd) as [Hd Hlim].
      change (node_at st1 n) with (node_at st n) in Hd, Hlim. lia.
  - intros H0 sys a Hr Ha.
    pose proof (reachable_depths_bounded cfg sys H0 Hr) as Hb.
    destruct (reachable_valid_refs cfg sys Hr) as [_ Hq].
    rewrite Forall_forall in Hq. specialize (Hq a Ha).
    exact (Forall_lookup_1 _ _ _ _ Hb (node_at_is_lookup _ _ Hq)).
Qed.

(** ** Duplicates in the tree *)

(** Creating the children does not look at the processed-set. *)
Lemma enqueue_children_ignore_processed f n (l : list SpotifyArtist) :
  commutes (set_processed_artists f) (for_each l (enqueue_child n)).
Proof.
  unfold enqueue_child, append_child, queue_put.
  repeat (commutes_step; try reflexivity).
Qed.

(** C10. The same identifier can be enqueued more than once and sit
    under different parents: in the scenario two distinct nodes carry
    the identifier D, one a child of B's node and one a child of C's,
    and both were taken from the queue and dispatched.  Children are
    created and enqueued whatever the processed-set holds; and
    [process_artist] on a node whose identifier is already processed
    returns with the state (events, tree, queue, processed-set)
    unchanged. *)
Theorem same_identifier_under_two_parents :
  (exists cfg sys p1 p2 c1 c2 i1 i2 s1 s2,
     reachable cfg sys
     /\ p1 <> p2 /\ c1 <> c2
     /\ c1 ∈ children (node_at (shared sys) p1)
     /\ c2 ∈ children (node_at (shared sys) p2)
     /\ spotify_id (node_at (shared sys) c1) = spotify_id (node_at (shared sys) c2)
     /\ workers sys !! i1 = Some (mkWorker c1 s1)
     /\ workers sys !! i2 = Some (mkWorker c2 s2))
  /\ (forall f n (l : list SpotifyArtist) st,
        for_each l (enqueue_child n) (set_processed_artists f st)
        = ((for_each l (enqueue_child n) st).1,
           set_processed_artists f (for_each l (enqueue_child n) st).2))
  /\ (forall cfg env n st,
        spotify_id (node_at st n) ∈ processed_artists st ->
        process_artist cfg env n st = (Ok tt, st)).
Proof.
  split; [|split].
  - exists Scenario.cfg, Scenario.final, 1%nat, 2%nat, 3%nat, 5%nat, 3%nat, 5%nat,
      Completed, Skipped.
    split; [exact scenario_final_reachable|].
    split; [discriminate|]. split; [discriminate|].
    split; [apply (bool_decide_eq_true_1 _); vm_compute; reflexivity|].
    split; [apply (bool_decide_eq_true_1 _); vm_compute; reflexivity|].
    split; [vm_compute; reflexivity|].
    split; vm_compute; reflexivity.
  - intros f n l st. apply enqueue_children_ignore_processed.
  - intros cfg env n st Hin. apply process_artist_turned_away. by left.
Qed.

(** ** The theorems at work on the scenario *)

Lemma scenario_B_not_processed :
  spotify_id (node_at (shared Scenario.after_root) 1%nat)
  ∉ processed_artists (shared Scenario.after_root).
Proof.
  assert (E : bool_decide (spotify_id (node_at (shared Scenario.after_root) 1%nat)
                           ∈ elements (processed_artists (shared Scenario.after_root)))
              = false) by (vm_compute; reflexivity).
  apply bool_decide_eq_false in E. intros H. apply E. by apply elem_of_elements.
Qed.

Lemma process_artist_failure_unreported_witness :
  process_artist Scenario.cfg Scenario.unknown_world 1%nat (shared Scenario.after_root)
  = (Ok tt,
     set_trace (fun t => t ++ [CallArtist "B"; CallSearch "artist B";
                              Output ("Could not find Deezer artist for: " +:+ "Bee")])
       (set_processed_artists (fun s => s ∪ {["B"]}) (shared Scenario.after_root))).
Proof.
  apply (proj1 (process_artist_failure_unreported Scenario.cfg Scenario.unknown_world
                  1%nat (shared Scenario.after_root) scenario_B_not_processed
                  ltac:(vm_compute; reflexivity))
               (mkSp "B" "artist B" []));
    vm_compute; reflexivity.
Defined.

Lemma dedup_at_most_one_winner_witness :
  worker_id (shared Scenario.final) (mkWorker 4%nat Skipped)
  ∈ processed_artists (shared Scenario.final)
  \/ max_artists Scenario.cfg
     <= Z.of_nat (size (processed_artists (shared Scenario.final))).
Proof.
  apply (proj1 (proj2 (proj2
           (dedup_at_most_one_winner Scenario.cfg Scenario.final
              ltac:(exists Scenario.schedule; vm_compute; reflexivity))))
           4%nat (mkWorker 4%nat Skipped));
    vm_compute; reflexivity.
Defined.

Lemma processed_set_within_cap_witness :
  0 <= max_artists Scenario.cfg
  /\ Z.of_nat (size (processed_artists (shared Scenario.final))) <= max_artists Scenario.cfg.
Proof.
  split; [vm_compute; discriminate|].
  apply (processed_set_within_cap Scenario.cfg); [vm_compute; discriminate|].
  exists Scenario.schedule. vm_compute. reflexivity.
Defined.

Lemma enqueued_children_depth_witness :
  (1 < length (heap (shared Scenario.after_root)))%nat
  /\ exists new,
       artist_queue (process_artist Scenario.cfg Scenario.world 1%nat
                       (shared Scenario.after_root)).2
       = artist_queue (shared Scenario.after_root) ++ new
       /\ forall c, c ∈ new ->
            (length (heap (shared Scenario.after_root)) <= c)%nat
            /\ c ∈ children (node_at (process_artist Scenario.cfg Scenario.world 1%nat
                                        (shared Scenario.after_root)).2 1%nat)
            /\ depth (node_at (process_artist Scenario.cfg Scenario.world 1%nat
                                 (shared Scenario.after_root)).2 c)
               = depth (node_at (shared Scenario.after_root) 1%nat) + 1
            /\ depth (node_at (process_artist Scenario.cfg Scenario.world 1%nat
                                 (shared Scenario.after_root)).2 c)
               <= max_depth Scenario.cfg.
Proof.
  assert (H : (1 < length (heap (shared Scenario.after_root)))%nat)
    by (vm_compute; lia).
  split; [exact H|].
  exact (proj1 (enqueued_children_depth Scenario.cfg Scenario.world 1%nat
                  (shared Scenario.after_root) H)).
Defined.

(** The five candidates of the selection example. *)
Module Genres.

Definition candidate (id genre : string) : SpotifyArtist :=
  mkSp id ("artist " +:+ id) [genre].

Definition c1 := candidate "1" "pop".
Definition c2 := candidate "2" "pop".
Definition c3 := candidate "3" "rock".
Definition c4 := candidate "4" "jazz".
Definition c5 := candidate "5" "pop".

Definition lookup_artist (id : string) : result SpotifyArtist :=
  match find (fun a => String.eqb (sp_id a) id) [c1; c2; c3; c4; c5] with
  | Some a => Ok a
  | None => Raise "not found"
  end.

Definition world : Env :=
  mkEnv lookup_artist (fun _ => Ok [c1; c2; c3; c4; c5]) (fun nm => Ok [mkDz 7 nm])
        (fun id => Ok (mkDz id "seven"))
        (fun _ => Ok tt) (fun _ => Ok tt) (fun _ => Ok tt)
        [] [2%nat]
        (fun a b => a +:+ "/" +:+ b)
        (fun _ => true).

Definition cfg : Config :=
  mkConfig "https://open.spotify.com/artist/S" "out" 50 5 false true 3 3.

Definition source : SpotifyArtist := mkSp "S" "source" ["pop"].

Definition pop_seen : State := set_processed_genres (fun _ => {["pop"]}) init_state.

End Genres.

Lemma get_wildly_different_artists_example_witness :
  exists x,
    PyRandom.sample (rnd_sample Genres.world) [Genres.c1; Genres.c2; Genres.c5] 1 = Ok [x]
    /\ x ∈ [Genres.c1; Genres.c2; Genres.c5]
    /\ (get_wildly_different_artists Genres.cfg Genres.world Genres.source
          [Genres.c1; Genres.c2; Genres.c3; Genres.c4; Genres.c5] Genres.pop_seen).1
       = Ok [Genres.c3; Genres.c4; x].
Proof.
  apply (get_wildly_different_artists_example Genres.cfg Genres.world Genres.source
           Genres.c1 Genres.c2 Genres.c3 Genres.c4 Genres.c5 Genres.pop_seen).
  - reflexivity.
  - reflexivity.
  - intros g Hg. by apply list_elem_of_singleton in Hg.
  - apply (bool_decide_eq_true_1 _). vm_compute. reflexivity.
  - exists Genres.c1, Genres.c2, Genres.c3, Genres.c4, Genres.c5.
    repeat split; reflexivity.
Defined.

Lemma get_wildly_different_artists_bounded_witness :
  1 <= related_limit Genres.cfg
  /\ exists out,
       (get_wildly_different_artists Genres.cfg Genres.world Genres.source
          [Genres.c1; Genres.c2; Genres.c3; Genres.c4; Genres.c5] Genres.pop_seen).1 = Ok out
       /\ Z.of_nat (length out) <= related_limit Genres.cfg.
Proof.
  split; [vm_compute; discriminate|].
  apply (get_wildly_different_artists_bounded Genres.cfg Genres.world Genres.source
           [Genres.c1; Genres.c2; Genres.c3; Genres.c4; Genres.c5] Genres.pop_seen).
  vm_compute. discriminate.
Defined.



Lemma is_valid_url_tests_containment_witness :
  is_valid_url (fun _ => true) "https://open.spotify.com.attacker.example/artist/ABC123"
    ["open.spotify.com"] = true.
Proof.
  destruct is_valid_url_tests_containment as [_ Hiff]. apply Hiff.
  exists (mkParse "https" "open.spotify.com.attacker.example").
  split; [reflexivity|]. split; [discriminate|]. split; [discriminate|].
  exists "open.spotify.com". split; [by left|].
  exists "", ".attacker.example". reflexivity.
Defined.

Lemma scenario_D_processed :
  spotify_id (node_at (shared Scenario.final) 5%nat)
  ∈ processed_artists (shared Scenario.final).
Proof.
  apply elem_of_elements. apply (bool_decide_eq_true_1 _). vm_compute. reflexivity.
Qed.

Lemma same_identifier_under_two_parents_witness :
  process_artist Scenario.cfg Scenario.world 5%nat (shared Scenario.final)
  = (Ok tt, shared Scenario.final).
Proof.
  destruct same_identifier_under_two_parents as (_ & _ & Hsilent).
  apply Hsilent. exact scenario_D_processed.
Defined.

(** * Further properties of the program *)

(** ** Predicates that every atomic change of the state maintains

    The program changes its state only through a handful of atomic
    operations.  A predicate on states that each of them maintains holds
    along every run. *)

Lemma run_setup_eq cfg env st :
  (run_setup cfg env st).2 =
  match search_artist_id (spotify_link cfg) with
  | None => st
  | Some id =>
      match sp_artist env id with
      | Raise _ => set_trace (fun t => t ++ [CallArtist id]) st
      | Ok a =>
          set_trace (fun t => t ++ [TreeUpdated (Some (length (heap st)))])
            (set_root_node (Some (length (heap st)))
               (set_trace (fun t => t ++ [CallArtist id])
                  (set_artist_queue (fun q => q ++ [length (heap st)])
                     (set_heap (fun h => h ++ [new_ArtistNode id (sp_name a) 0]) st))))
      end
  end.
Proof.
  unfold run_setup, call_artist. rewrite bind_unfold. simpl.
  destruct (search_artist_id (spotify_link cfg)) as [id|]; simpl; [|done].
  rewrite !bind_unfold. simpl.
  destruct (sp_artist env id) as [a|e]; simpl; [|done].
  by destruct (max_concurrent cfg <=? 0).
Qed.

Lemma run_setup_ok_pool cfg env st :
  (run_setup cfg env st).1 = Ok tt -> 0 < max_concurrent cfg.
Proof.
  unfold run_setup, call_artist. rewrite bind_unfold. simpl.
  destruct (search_artist_id (spotify_link cfg)) as [id|]; simpl; [|discriminate].
  rewrite !bind_unfold. simpl.
  destruct (sp_artist env id) as [a|e]; simpl; [|discriminate].
  destruct (max_concurrent cfg <=? 0) eqn:E; [discriminate|]. lia.
Qed.

Section Stable.

Variable P : State -> Prop.

Hypothesis P_emit : forall e s,
  e <> Finished -> P s -> P (set_trace (fun t => t ++ [e]) s).
Hypothesis P_batch_file : forall f s,
  P s -> P (set_batch_files (fun l => l ++ [f]) s).
Hypothesis P_genres : forall g s,
  P s -> P (set_processed_genres (fun seen => seen ∪ g) s).
Hypothesis P_cancel : forall s, P s -> P (set_is_running false s).
Hypothesis P_root : forall r s, P s -> P (set_root_node r s).
Hypothesis P_processed : forall x s,
  P s -> P (set_processed_artists (fun X => X ∪ {[x]}) s).
Hypothesis P_deezer_id : forall n d s,
  P s -> P (assign_deezer_id n d s).2.
Hypothesis P_child : forall n related_artist s,
  (n < length (heap s))%nat -> P s -> P (enqueue_child n related_artist s).2.
Hypothesis P_new_root : forall id nm s,
  P s ->
  P (set_artist_queue (fun q => q ++ [length (heap s)])
       (set_heap (fun h => h ++ [new_ArtistNode id nm 0]) s)).
Hypothesis P_dequeue : forall node rest s,
  artist_queue s = node :: rest -> P s -> P (set_artist_queue (fun _ => rest) s).

Lemma stable_cleanup env : preserves P (cleanup_batch_files env).
Proof.
  unfold cleanup_batch_files.
  repeat first [ apply P_emit; [discriminate | assumption] | preserves_step ].
Qed.

Lemma stable_stop env s : P s -> P (stop env s).2.
Proof.
  intros H. unfold stop. rewrite bind_unfold. cbn [modify].
  by apply stable_cleanup, P_cancel.
Qed.

Lemma stable_run_setup cfg env s : P s -> P (run_setup cfg env s).2.
Proof.
  intros H. rewrite run_setup_eq.
  destruct (search_artist_id _) as [id|]; [|done].
  destruct (sp_artist env id) as [a|e].
  - apply P_emit; [discriminate|]. apply P_root. apply P_emit; [discriminate|].
    by apply P_new_root.
  - by apply P_emit.
Qed.

Lemma stable_loop cfg env candidates kept :
  preserves P (wildly_different_loop cfg env candidates kept).
Proof.
  revert kept. induction candidates as [|artist rest IH]; intros kept; simpl.
  - apply preserves_ret.
  - unfold call_artist.
    repeat first [ apply IH
                 | apply P_emit; [discriminate | assumption]
                 | apply P_genres; assumption
                 | preserves_step ].
Qed.

Lemma stable_body cfg env n s :
  (n < length (heap s))%nat -> P s -> P (process_artist_body cfg env n s).2.
Proof.
  intros Hn H.
  assert (Hp : preserves (fun s => P s /\ (n < length (heap s))%nat)
                 (process_artist_body cfg env n)).
  { unfold process_artist_body, find_deezer_artist, download_artist, call_artist,
      get_wildly_different_artists.
    repeat first
      [ apply (preserves_modify _ (fun s => (assign_deezer_id _ _ s).2));
        intros ? [? ?]; split;
        [ by apply P_deezer_id
        | unfold assign_deezer_id, modify; cbn [snd heap set_heap];
          by rewrite length_alter ]
      | match goal with
        | |- preserves _ (wildly_different_loop _ _ _ _) =>
            intros ? [? ?]; split;
            [ by apply stable_loop
            | by match goal with
                 | |- (_ < length (heap (wildly_different_loop ?c ?e ?l ?k ?s).2))%nat =>
                     apply (wildly_different_loop_preserves
                              (fun s' => (n < length (heap s'))%nat) c e l k
                              (fun _ _ Hs => Hs) (fun _ _ Hs => Hs) s)
                 end ]
        | |- preserves _ (enqueue_child _ _) =>
            intros ? [? ?]; split;
            [ by apply P_child
            | rewrite enqueue_child_eq; cbn [snd heap set_artist_queue set_heap];
              rewrite length_alter, length_app; simpl; lia ]
        | |- preserves _ (emit _) =>
            apply preserves_modify; intros ? [? ?]; split;
            [ apply P_emit; [discriminate | assumption] | assumption ]
        | |- preserves _ (modify (set_batch_files _)) =>
            apply preserves_modify; intros ? [? ?]; split;
            [ by apply P_batch_file | assumption ]
        | |- preserves _ (modify (set_processed_genres _)) =>
            apply preserves_modify; intros ? [? ?]; split;
            [ by apply P_genres | assumption ]
        end
      | preserves_step ]. }
  by apply Hp.
Qed.

(** Every step but the one that ends the run. *)
Lemma stable_step cfg sys sys' :
  valid_refs sys -> step_spec cfg sys sys' ->
  (driver sys' = Stopped -> driver sys = Stopped) ->
  P (shared sys) -> P (shared sys').
Proof.
  intros Hv Hstep Hnot H. destruct Hstep; cbn [shared driver] in *;
    try (match goal with Hd : driver sys = _ |- _ =>
           rewrite Hd in Hnot; by specialize (Hnot eq_refl) end);
    try assumption.
  - by apply stable_run_setup.
  - by eapply P_dequeue.
  - by apply P_processed.
  - apply stable_body; [|done].
    by apply (valid_refs_worker sys i (mkWorker node Running)).
  - by apply stable_stop.
Qed.

Hypothesis P_finished : forall s, P s -> P (set_trace (fun t => t ++ [Finished]) s).

Lemma stable_any_step cfg sys sys' :
  valid_refs sys -> step_spec cfg sys sys' -> P (shared sys) -> P (shared sys').
Proof.
  intros Hv Hstep H.
  destruct Hstep; cbn [shared] in *; try assumption.
  - unfold run_invalid, emit, modify. rewrite bind_unfold. cbn [snd].
    apply P_finished. by apply P_emit.
  - by apply stable_run_setup.
  - unfold run_failed, emit, modify. rewrite !bind_unfold. cbn [snd].
    apply stable_cleanup, P_finished. apply P_emit; [discriminate|].
    apply P_emit; [discriminate|]. by apply stable_run_setup.
  - unfold run_finished, emit, modify. rewrite bind_unfold. cbn [snd].
    by apply stable_cleanup, P_finished.
  - by eapply P_dequeue.
  - by apply P_processed.
  - apply stable_body; [|done].
    by apply (valid_refs_worker sys i (mkWorker node Running)).
  - by apply stable_stop.
Qed.

Lemma stable_reachable cfg sys : P init_state -> reachable cfg sys -> P (shared sys).
Proof.
  intros H0. revert sys. apply (reachable_ind cfg (fun sys => P (shared sys))); [exact H0|].
  intros s s' Hr H Hstep. eapply stable_any_step; eauto using reachable_valid_refs.
Qed.

Lemma stable_exec cfg ls sys sys' :
  valid_refs sys -> exec cfg ls sys = Some sys' -> P (shared sys) -> P (shared sys').
Proof.
  revert sys. induction ls as [|l ls IH]; intros sys Hv; simpl.
  - by intros [= <-].
  - destruct (step cfg l sys) as [sys1|] eqn:E; [|discriminate]. intros Hexec H.
    apply step_cases in E.
    apply (IH sys1); [by eapply step_valid_refs | done | by eapply stable_any_step].
Qed.

End Stable.

(** ** Nothing is ever taken back *)

(** X1. Along every run the processed-set, the processed-genre-set, the
    list of launcher scripts and the event trace only grow, and the nodes
    of the tree stay where they are with their identifier, name and depth
    unchanged and their children kept. *)
Theorem state_only_grows cfg ls sys sys' :
  reachable cfg sys -> exec cfg ls sys = Some sys' ->
  processed_artists (shared sys) ⊆ processed_artists (shared sys')
  /\ processed_genres (shared sys) ⊆ processed_genres (shared sys')
  /\ batch_files (shared sys) `prefix_of` batch_files (shared sys')
  /\ trace (shared sys) `prefix_of` trace (shared sys')
  /\ heap_grows (heap (shared sys)) (heap (shared sys')).
Proof.
  intros Hr Hexec.
  set (s0 := shared sys).
  apply (stable_exec
           (fun s => processed_artists s0 ⊆ processed_artists s
                     /\ processed_genres s0 ⊆ processed_genres s
                     /\ batch_files s0 `prefix_of` batch_files s
                     /\ trace s0 `prefix_of` trace s
                     /\ heap_grows (heap s0) (heap s))) with (cfg := cfg) (ls := ls) (sys := sys);
    try done.
  - intros e s _ (? & ? & ? & ? & ?). repeat split; try done.
    cbn [trace set_trace]. by apply prefix_app_r.
  - intros f s (? & ? & ? & ? & ?). repeat split; try done.
    cbn [batch_files set_batch_files]. by apply prefix_app_r.
  - intros g s (? & ? & ? & ? & ?). repeat split; try done.
    cbn [processed_genres set_processed_genres]. by apply union_subseteq_l'.
  - intros x s (? & ? & ? & ? & ?). repeat split; try done.
    cbn [processed_artists set_processed_artists]. by apply union_subseteq_l'.
  - intros n d s (? & ? & ? & ? & ?). repeat split; try done.
    unfold assign_deezer_id, modify. cbn [snd heap set_heap].
    eapply heap_grows_trans; [done|]. apply heap_grows_alter. intros nd. by repeat split.
  - intros n ra s Hn (? & ? & ? & ? & ?). rewrite enqueue_child_eq.
    repeat split; try done. cbn [snd heap set_heap set_artist_queue].
    eapply heap_grows_trans; [done|].
    eapply heap_grows_trans; [apply heap_grows_snoc|].
    apply heap_grows_alter. intros nd. repeat split. simpl.
    intros x Hx. apply elem_of_app. by left.
  - intros id nm s (? & ? & ? & ? & ?). repeat split; try done.
    cbn [heap set_heap set_artist_queue].
    eapply heap_grows_trans; [done | apply heap_grows_snoc].
  - intros s (? & ? & ? & ? & ?). repeat split; try done.
    cbn [trace set_trace]. by apply prefix_app_r.
  - by apply (reachable_valid_refs cfg).
  - repeat split; try done. apply heap_grows_refl.
Qed.

Lemma state_only_grows_witness :
  trace (shared Scenario.after_root) `prefix_of` trace (shared Scenario.final).
Proof.
  apply (state_only_grows Scenario.cfg (drop 6 Scenario.schedule)
           Scenario.after_root Scenario.final).
  - exists (take 6 Scenario.schedule). vm_compute. reflexivity.
  - vm_compute. reflexivity.
Defined.

(** ** The [downloaded] flag *)

(** X2. No node's [downloaded] flag is ever set: it is [False] in every
    node of every state a run can reach, whatever was downloaded. *)
Theorem downloaded_flag_never_set cfg sys a :
  reachable cfg sys -> downloaded (node_at (shared sys) a) = false.
Proof.
  intros Hr.
  assert (H : Forall (fun nd => downloaded nd = false) (heap (shared sys))).
  { apply (stable_reachable (fun s => Forall (fun nd => downloaded nd = false) (heap s)))
      with (cfg := cfg); try done.
    - intros n d s H. unfold assign_deezer_id, modify. cbn [snd heap set_heap].
      apply Forall_alter; [done|]. by intros nd _ Hnd.
    - intros n ra s _ H. rewrite enqueue_child_eq. cbn [snd heap set_heap set_artist_queue].
      apply Forall_alter; [|by intros nd _ Hnd].
      apply Forall_app. split; [done|]. by constructor.
    - intros id nm s H. cbn [heap set_heap set_artist_queue].
      apply Forall_app. split; [done|]. by constructor. }
  unfold node_at. destruct (heap (shared sys) !! a) as [nd|] eqn:E; [|done].
  simpl. by apply (Forall_lookup_1 _ _ _ _ H E).
Qed.

Lemma downloaded_flag_never_set_witness :
  downloaded (node_at (shared Scenario.final) 0%nat) = false.
Proof.
  apply (downloaded_flag_never_set Scenario.cfg).
  exists Scenario.schedule. vm_compute. reflexivity.
Defined.

(** ** The shape of the tree *)

(** Every link from a node to a child goes to a node built later, one
    level deeper. *)
Definition links_ok (s : State) : Prop :=
  forall p nd c,
    heap s !! p = Some nd -> c ∈ children nd ->
    (p < c < length (heap s))%nat /\ depth (node_at s c) = depth nd + 1.

Lemma node_at_alter_depth (f : ArtistNode -> ArtistNode) n s c :
  (forall nd, depth (f nd) = depth nd) ->
  depth (node_at (set_heap (alter f n) s) c) = depth (node_at s c).
Proof.
  intros Hf. unfold node_at. cbn [heap set_heap]. unfold addr in *.
  destruct (decide (n = c)) as [->|Hne].
  - rewrite list_lookup_alter_eq. destruct (heap s !! c); simpl; [apply Hf | done].
  - by rewrite list_lookup_alter_ne.
Qed.

Lemma links_ok_alter_frozen (f : ArtistNode -> ArtistNode) n s :
  (forall nd, depth (f nd) = depth nd /\ children (f nd) = children nd) ->
  links_ok s -> links_ok (set_heap (alter f n) s).
Proof.
  intros Hf H p nd c Hp Hc.
  rewrite node_at_alter_depth by (intros nd'; apply Hf).
  cbn [heap set_heap] in *. rewrite length_alter.
  apply alter_lookup_inv in Hp as (nd0 & Hp0 & Hor).
  assert (Hdc : depth nd = depth nd0 /\ children nd = children nd0).
  { destruct Hor as [->| ->]; [done | apply Hf]. }
  destruct Hdc as [Hd Hch]. rewrite Hch in Hc. rewrite Hd.
  exact (H p nd0 c Hp0 Hc).
Qed.

Lemma reachable_links_ok cfg sys :
  reachable cfg sys -> links_ok (shared sys).
Proof.
  apply (stable_reachable links_ok); try done.
  - intros n d s H. unfold assign_deezer_id, modify. cbn [snd].
    apply links_ok_alter_frozen; [|done]. by intros nd.
  - intros n ra s Hn H. rewrite enqueue_child_eq. cbn [snd].
    set (c := length (heap s)).
    set (child := new_ArtistNode _ _ _).
    set (f := fun nd0 => mkNode _ _ _ _ _ _).
    intros p nd x Hp Hx.
    cbn [heap set_heap set_artist_queue] in Hp.
    unfold node_at. cbn [heap set_heap set_artist_queue].
    rewrite length_alter, length_app. cbn [length].
    assert (Hnode : heap s !! n = Some (node_at s n)) by by apply node_at_is_lookup.
    unfold addr in *.
    assert (Hold : forall y, (y < c)%nat ->
              depth (default (new_ArtistNode "" "" 0)
                       (alter f n (heap s ++ [child]) !! y))
              = depth (node_at s y)).
    { intros y Hy. unfold node_at. unfold addr in *.
      destruct (decide (n = y)) as [->|Hne].
      - rewrite list_lookup_alter_eq, lookup_app_l by done.
        by destruct (heap s !! y).
      - by rewrite list_lookup_alter_ne, lookup_app_l by done. }
    assert (Hnew : default (new_ArtistNode "" "" 0)
                     (alter f n (heap s ++ [child]) !! c) = child).
    { rewrite list_lookup_alter_ne by (unfold c; lia).
      rewrite lookup_app_r by (unfold c; lia).
      by replace (c - length (heap s))%nat with O by (unfold c; lia). }
    rewrite list_lookup_alter in Hp. case_decide as Hdec.
    + subst p. rewrite lookup_app_l, Hnode in Hp by done.
      injection Hp as <-. cbn [children depth f] in *.
      apply elem_of_app in Hx as [Hx|Hx].
      * destruct (H n (node_at s n) x Hnode Hx) as [Hr Hd].
        split; [unfold c in *; lia|]. rewrite Hold by (unfold c; lia). exact Hd.
      * apply list_elem_of_singleton in Hx as ->.
        split; [unfold c; lia|]. by rewrite Hnew.
    + apply lookup_snoc_Some in Hp as [[Hlt Hp]|[_ <-]].
      * destruct (H p nd x Hp Hx) as [Hr Hd].
        split; [unfold c in *; lia|]. rewrite Hold by (unfold c; lia). exact Hd.
      * by apply elem_of_nil in Hx.
  - intros id nm s H p nd c Hp Hc. cbn [heap set_heap set_artist_queue] in *.
    rewrite length_app. cbn [length].
    apply lookup_snoc_Some in Hp as [[Hlt Hp]|[-> <-]].
    + destruct (H p nd c Hp Hc) as [Hr Hd]. split; [lia|].
      unfold node_at in *. cbn [heap set_heap set_artist_queue].
      by rewrite lookup_app_l by lia.
    + by apply elem_of_nil in Hc.
Qed.

(** X3. In every state a run can reach, a child node was built after its
    parent (so the tree has no cycle and [_add_node] terminates on it),
    is a node of the arena, and lies exactly one level below its
    parent. *)
Theorem tree_links_ok cfg sys :
  reachable cfg sys -> links_ok (shared sys).
Proof. apply reachable_links_ok. Qed.

Lemma tree_links_ok_witness : links_ok (shared Scenario.final).
Proof.
  apply (tree_links_ok Scenario.cfg).
  exists Scenario.schedule. vm_compute. reflexivity.
Defined.

(** ** The order of dispatch when each call runs as one step *)

(** The nodes handed to the pool so far, in the order of their
    submission, followed by the nodes waiting in the queue, are the nodes
    of the arena in the order in which they were built.  This holds of
    the steps above, where the unlocked part of a call is one step; it
    serves to count the nodes, not to order them. *)
Definition dispatch_order (sys : System) : Prop :=
  (w_node <$> workers sys) ++ artist_queue (shared sys)
  = seq 0 (length (heap (shared sys))).

Lemma fmap_w_node_insert (ws : list worker) i node st st' :
  ws !! i = Some (mkWorker node st) ->
  w_node <$> <[i := mkWorker node st']> ws = w_node <$> ws.
Proof.
  intros Hi. rewrite list_fmap_insert. apply list_insert_id.
  by rewrite list_lookup_fmap, Hi.
Qed.

Lemma dispatch_order_body cfg env n done s :
  (n < length (heap s))%nat ->
  done ++ artist_queue s = seq 0 (length (heap s)) ->
  done ++ artist_queue (process_artist_body cfg env n s).2
  = seq 0 (length (heap (process_artist_body cfg env n s).2)).
Proof.
  intros Hn H.
  apply (stable_body (fun s => done ++ artist_queue s = seq 0 (length (heap s))));
    try done.
  - intros a d s' H'. unfold assign_deezer_id, modify.
    cbn [snd heap set_heap artist_queue]. by rewrite length_alter.
  - intros a ra s' _ H'. rewrite enqueue_child_eq.
    cbn [snd heap set_heap artist_queue set_artist_queue].
    rewrite length_alter, length_app, app_assoc, H'. cbn [length].
    by rewrite Nat.add_1_r, seq_S.
Qed.

Lemma dispatch_order_setup cfg env done s :
  done ++ artist_queue s = seq 0 (length (heap s)) ->
  done ++ artist_queue (run_setup cfg env s).2
  = seq 0 (length (heap (run_setup cfg env s).2)).
Proof.
  intros H.
  apply (stable_run_setup (fun s => done ++ artist_queue s = seq 0 (length (heap s))));
    try done.
  intros id nm s' H'. cbn [heap set_heap artist_queue set_artist_queue].
  rewrite length_app, app_assoc, H'. cbn [length].
  by rewrite Nat.add_1_r, seq_S.
Qed.

Lemma dispatch_order_core sys st' pc :
  core st' = core (shared sys) -> dispatch_order sys ->
  dispatch_order (mkSystem st' pc (workers sys)).
Proof.
  intros Hc H. apply core_inv in Hc as (_ & Hq & Hh).
  unfold dispatch_order in *. cbn [shared workers]. by rewrite Hq, Hh.
Qed.

Lemma step_dispatch_order cfg sys sys' :
  valid_refs sys -> dispatch_order sys -> step_spec cfg sys sys' -> dispatch_order sys'.
Proof.
  intros Hv H Hstep. destruct Hstep.
  - apply dispatch_order_core; [apply run_invalid_core | done].
  - by apply dispatch_order_setup.
  - apply (dispatch_order_core
             (mkSystem (run_setup cfg env (shared sys)).2 Stopped (workers sys)));
      [apply run_failed_core | by apply dispatch_order_setup].
  - exact H.
  - apply dispatch_order_core; [apply run_finished_core | done].
  - exact H.
  - unfold dispatch_order in *. cbn [shared workers heap set_artist_queue artist_queue].
    match goal with Hq : artist_queue _ = _ |- _ => rewrite Hq in H end.
    rewrite fmap_app. cbn [fmap list_fmap w_node]. by rewrite <- app_assoc.
  - exact H.
  - unfold dispatch_order in *. cbn [shared workers heap set_processed_artists artist_queue].
    by erewrite fmap_w_node_insert.
  - unfold dispatch_order in *. cbn [shared workers].
    by erewrite fmap_w_node_insert.
  - unfold dispatch_order in *. cbn [shared workers].
    erewrite fmap_w_node_insert by done.
    apply dispatch_order_body; [|done].
    by apply (valid_refs_worker sys i (mkWorker node Running)).
  - apply dispatch_order_core; [apply stop_core | done].
Qed.

(** ** The size of the pool bounds the calls under way *)

(** Calls of [process_artist] that were submitted and have not
    returned. *)
Fixpoint in_flight (ws : list worker) : nat :=
  match ws with
  | [] => O
  | w :: ws' => ((if returned w then 0 else 1) + in_flight ws')%nat
  end.

Lemma in_flight_app ws1 ws2 :
  in_flight (ws1 ++ ws2) = (in_flight ws1 + in_flight ws2)%nat.
Proof. induction ws1 as [|w ws1 IH]; simpl; [done|]. rewrite IH. lia. Qed.

Lemma in_flight_insert ws i w w' :
  ws !! i = Some w ->
  (in_flight (<[i := w']> ws) + (if returned w then 0 else 1)
   = in_flight ws + (if returned w' then 0 else 1))%nat.
Proof.
  intros Hi. pose proof (lookup_lt_Some _ _ _ Hi) as Hlt.
  rewrite insert_take_drop by done.
  rewrite <- (take_drop_middle ws i w Hi) at 3.
  rewrite !in_flight_app. simpl. lia.
Qed.

Lemma in_flight_none ws : forallb returned ws = true -> in_flight ws = O.
Proof.
  induction ws as [|w ws IH]; simpl; [done|].
  intros [Hw Hws]%andb_prop. rewrite Hw, IH by done. done.
Qed.

Definition pool_ok (cfg : Config) (sys : System) : Prop :=
  match driver sys with
  | Start | Stopped => in_flight (workers sys) = O
  | LoopTop => in_flight (workers sys) = O /\ 0 < max_concurrent cfg
  | Batch todo =>
      Z.of_nat (in_flight (workers sys) + todo) <= max_concurrent cfg
      /\ 0 < max_concurrent cfg
  end.

Lemma step_pool_ok cfg sys sys' :
  pool_ok cfg sys -> step_spec cfg sys sys' -> pool_ok cfg sys'.
Proof.
  unfold pool_ok. intros H Hstep.
  destruct Hstep; cbn [driver workers];
    repeat match goal with Hd : driver sys = _ |- _ => rewrite Hd in H; clear Hd end;
    cbn [driver workers] in *.
  - exact H.
  - split; [exact H|]. by eapply run_setup_ok_pool.
  - exact H.
  - destruct H as [H Hmc]. rewrite H. split; [|done].
    unfold batch_size. lia.
  - by destruct H.
  - destruct H as [H Hmc]. split; [lia|done].
  - destruct H as [H Hmc]. split; [|done].
    rewrite in_flight_app. simpl. lia.
  - destruct H as [H Hmc]. split; [|done]. by apply in_flight_none.
  - match goal with Hi : workers sys !! i = Some _ |- _ =>
      pose proof (in_flight_insert _ _ _ (mkWorker node Running) Hi) as Hc end.
    simpl in Hc. destruct (driver sys); [lia | split; [lia | by destruct H] | | lia].
    destruct H as [H Hmc]. split; [lia|done].
  - match goal with Hi : workers sys !! i = Some _ |- _ =>
      pose proof (in_flight_insert _ _ _ (mkWorker node Skipped) Hi) as Hc end.
    simpl in Hc. destruct (driver sys); [lia | split; [lia | by destruct H] | | lia].
    destruct H as [H Hmc]. split; [lia|done].
  - match goal with Hi : workers sys !! i = Some _ |- _ =>
      pose proof (in_flight_insert _ _ _ (mkWorker node Completed) Hi) as Hc end.
    simpl in Hc. destruct (driver sys); [lia | split; [lia | by destruct H] | | lia].
    destruct H as [H Hmc]. split; [lia|done].
  - exact H.
Qed.

(** X5. At no moment of a run are more than [max_concurrent] calls of
    [process_artist] under way; within a batch the calls under way plus
    those still to be submitted stay within [max_concurrent]; between
    batches none is under way. *)
Theorem pool_bounds_calls_under_way cfg sys :
  reachable cfg sys ->
  Z.of_nat (in_flight (workers sys)) <= Z.max 0 (max_concurrent cfg)
  /\ match driver sys with
     | Batch todo => Z.of_nat (in_flight (workers sys) + todo) <= max_concurrent cfg
     | _ => in_flight (workers sys) = O
     end.
Proof.
  intros Hr.
  assert (H : pool_ok cfg sys).
  { revert sys Hr. apply (reachable_ind cfg (pool_ok cfg)); [done|].
    intros s s' _ H Hstep. by eapply step_pool_ok. }
  unfold pool_ok in H. destruct (driver sys); split; try lia; try tauto.
Qed.

Lemma pool_bounds_calls_under_way_witness :
  Z.of_nat (in_flight (workers Scenario.final)) <= Z.max 0 (max_concurrent Scenario.cfg).
Proof.
  apply (pool_bounds_calls_under_way Scenario.cfg).
  exists Scenario.schedule. vm_compute. reflexivity.
Defined.

(** ** The finished signal *)

Definition finished_in (t : list event) : nat :=
  length (filter (fun e => e = Finished) t).

Lemma finished_in_snoc t e :
  finished_in (t ++ [e]) = (finished_in t + (if decide (e = Finished) then 1 else 0))%nat.
Proof.
  unfold finished_in. rewrite filter_app, length_app. f_equal.
  rewrite filter_cons, filter_nil. by destruct (decide (e = Finished)).
Qed.

Lemma finished_in_emit e s k :
  e <> Finished -> finished_in (trace s) = k ->
  finished_in (trace (set_trace (fun t => t ++ [e]) s)) = k.
Proof.
  intros He H. cbn [trace set_trace]. rewrite finished_in_snoc, decide_False by done. lia.
Qed.

Definition is_stopped (pc : driver_pc) : bool :=
  match pc with Stopped => true | _ => false end.

Lemma step_finished_once cfg sys sys' :
  valid_refs sys ->
  finished_in (trace (shared sys)) = (if is_stopped (driver sys) then 1 else 0)%nat ->
  step_spec cfg sys sys' ->
  finished_in (trace (shared sys')) = (if is_stopped (driver sys') then 1 else 0)%nat.
Proof.
  intros Hv H Hstep.
  assert (Hquiet : (driver sys' = Stopped -> driver sys = Stopped) ->
            finished_in (trace (shared sys')) = finished_in (trace (shared sys))).
  { intros Hq.
    apply (stable_step (fun s => finished_in (trace s) = finished_in (trace (shared sys))))
      with (cfg := cfg) (sys := sys); try done.
    intros e s He Hs. by apply finished_in_emit. }
  assert (Hcl : forall env k s, finished_in (trace s) = k ->
            finished_in (trace (cleanup_batch_files env s).2) = k).
  { intros env k s Hs.
    apply (stable_cleanup (fun s => finished_in (trace s) = k)); [|done].
    intros e s0 He Hs0. by apply finished_in_emit. }
  destruct Hstep; cbn [driver shared] in *;
    repeat match goal with Hd : driver sys = _ |- _ => rewrite Hd in *; clear Hd end;
    cbn [is_stopped] in *;
    try (rewrite Hquiet by (cbn [driver]; congruence); exact H);
    try (rewrite Hquiet by done; exact H); try exact H.
  - unfold run_invalid, emit, modify. rewrite bind_unfold. cbn [snd trace set_trace].
    rewrite !finished_in_snoc, decide_False, decide_True by done. lia.
  - unfold run_failed, emit, modify. rewrite !bind_unfold. cbn [snd].
    apply Hcl. cbn [trace set_trace].
    rewrite !finished_in_snoc, !decide_False, decide_True by done.
    assert (Hs : finished_in (trace (run_setup cfg env (shared sys)).2) = O).
    { apply (stable_run_setup (fun s => finished_in (trace s) = O)); try done.
      intros e0 s He Hs. by apply finished_in_emit. }
    lia.
  - unfold run_finished, emit, modify. rewrite bind_unfold. cbn [snd].
    apply Hcl. cbn [trace set_trace].
    rewrite finished_in_snoc, decide_True by done. lia.
Qed.

(** X6. [finished_callback] is called exactly once per run: the trace of
    a state with the run stopped holds the finished signal once, and the
    trace of any other reachable state does not hold it. *)
Theorem finished_exactly_once cfg sys :
  reachable cfg sys ->
  finished_in (trace (shared sys)) = (if is_stopped (driver sys) then 1 else 0)%nat.
Proof.
  revert sys.
  apply (reachable_ind cfg (fun sys =>
    finished_in (trace (shared sys)) = (if is_stopped (driver sys) then 1 else 0)%nat)).
  - done.
  - intros s s' Hr H Hstep. eapply step_finished_once; eauto using reachable_valid_refs.
Qed.

Lemma finished_exactly_once_witness :
  finished_in (trace (shared Scenario.final)) = 1%nat.
Proof.
  rewrite (finished_exactly_once Scenario.cfg Scenario.final)
    by (exists Scenario.schedule; vm_compute; reflexivity).
  vm_compute. reflexivity.
Defined.

(** ** The helpers of the worker *)

(** X7. [find_deezer_artist] never raises: it gives the first hit of the
    name search when there is one, and [None] both when the search finds
    nothing and when the search raises (the error is only logged), so its
    caller cannot tell a failed search from an unknown artist.  It changes
    nothing but the trace. *)
Theorem find_deezer_artist_outcome env artist_name st :
  find_deezer_artist env artist_name st =
  match dz_search env artist_name with
  | Ok data =>
      (Ok (head data), set_trace (fun t => t ++ [CallSearch artist_name]) st)
  | Raise e =>
      (Ok None,
       set_trace (fun t => t ++ [CallSearch artist_name;
                                Output ("Error finding Deezer artist: " +:+ e);
                                LogError ("Error finding Deezer artist " +:+ artist_name
                                          +:+ ": " +:+ e)]) st)
  end.
Proof.
  unfold find_deezer_artist, try_except, emit, modify, lift.
  rewrite ?bind_unfold. cbn -[String.append].
  destruct (dz_search env artist_name) as [data|e]; cbn -[String.append]; [done|].
  rewrite ?bind_unfold. cbn -[String.append].
  unfold set_trace. cbn -[String.append]. by rewrite <- !app_assoc.
Qed.

(** The path of the launcher script of [download_artist]. *)
Definition launcher_path (cfg : Config) (env : Env) (deezer_artist : DeezerArtist)
    (node : ArtistNode) : string :=
  path_join env (path_join env (output_dir cfg) (name node))
    ("download_" +:+ pretty (dz_id deezer_artist) +:+ ".bat").

(** X8. [download_artist] never raises and answers [True] exactly when
    neither writing the launcher script nor starting it and waiting for
    it raises (the exit status of the downloader is not looked at).  The
    script is recorded in [batch_files], and the downloader is started,
    exactly when the script could be written: a failure to start it
    leaves the script recorded, a failure to write it starts nothing. *)
Theorem download_artist_outcome cfg env deezer_artist n st :
  let path := launcher_path cfg env deezer_artist (node_at st n) in
  let failed e :=
    [Output ("Error downloading artist " +:+ dz_name deezer_artist +:+ ": " +:+ e);
     LogError ("Error downloading artist " +:+ dz_name deezer_artist +:+ ": " +:+ e)] in
  download_artist cfg env deezer_artist n st =
  match fs_prepare env path with
  | Raise e => (Ok false, set_trace (fun t => t ++ failed e) st)
  | Ok _ =>
      let st1 := set_batch_files (fun l => l ++ [path]) st in
      match deemix env path with
      | Raise e => (Ok false, set_trace (fun t => t ++ CallDeemix path :: failed e) st1)
      | Ok _ =>
          (Ok true,
           set_trace (fun t => t ++ [CallDeemix path;
                                    Output ("Successfully downloaded artist: "
                                            +:+ dz_name deezer_artist);
                                    Progress 100 (dz_name deezer_artist)]) st1)
      end
  end.
Proof.
  intros path failed. unfold download_artist, try_except, read_node, emit, modify, lift, gets.
  rewrite ?bind_unfold. cbn -[String.append pretty node_at].
  fold (launcher_path cfg env deezer_artist (node_at st n)). fold path.
  destruct (fs_prepare env path) as [[]|e]; cbn -[String.append pretty node_at].
  - rewrite ?bind_unfold. cbn -[String.append pretty node_at].
    destruct (deemix env path) as [[]|e]; cbn -[String.append pretty node_at].
    + rewrite ?bind_unfold. cbn -[String.append pretty node_at].
      unfold set_trace, set_batch_files. cbn -[String.append pretty node_at].
      by rewrite <- !app_assoc.
    + rewrite ?bind_unfold. cbn -[String.append pretty node_at].
      unfold set_trace, set_batch_files, failed. cbn -[String.append pretty node_at].
      by rewrite <- !app_assoc.
  - rewrite ?bind_unfold. cbn -[String.append pretty node_at].
    unfold set_trace, failed. cbn -[String.append pretty node_at].
    by rewrite <- !app_assoc.
Qed.

(** The files that a list of events removes, in order. *)
Definition removed_files (t : list event) : list string :=
  omap (fun e => match e with RemoveFile p => Some p | _ => None end) t.

Lemma cleanup_loop_removes env files st :
  exists evs,
    for_each files (fun batch_file =>
      try_except
        (emit (RemoveFile batch_file);; lift (fs_remove env batch_file))
        (fun e => emit (LogError ("Error removing batch file " +:+ batch_file
                                  +:+ ": " +:+ e)))) st
    = (Ok tt, set_trace (fun t => t ++ evs) st)
    /\ removed_files evs = files.
Proof.
  set (body := fun batch_file : string => try_except _ _).
  assert (Hbody : forall f s,
    body f s =
    (Ok tt, set_trace (fun t => t ++ RemoveFile f ::
       match fs_remove env f with
       | Ok _ => []
       | Raise e => [LogError ("Error removing batch file " +:+ f +:+ ": " +:+ e)]
       end) s)).
  { intros f s. unfold body, try_except, emit, modify, lift.
    rewrite bind_unfold. cbn -[String.append].
    destruct (fs_remove env f) as [[]|e]; cbn -[String.append]; [done|].
    unfold set_trace. cbn -[String.append]. by rewrite <- app_assoc. }
  clearbody body. revert st. induction files as [|f files IH]; intros st.
  - exists []. split; [|done]. cbn [for_each]. unfold mret, M_ret, ret, set_trace.
    rewrite app_nil_r. by destruct st.
  - cbn [for_each]. rewrite bind_unfold, Hbody. cbn [fst snd].
    match goal with |- context [for_each files body ?s] =>
      destruct (IH s) as (evs & -> & Hr) end.
    eexists (RemoveFile f :: _ ++ evs). split.
    + unfold set_trace. cbn -[String.append]. rewrite <- app_assoc. cbn. reflexivity.
    + unfold removed_files in *. destruct (fs_remove env f); cbn; by rewrite Hr.
Qed.

(** X9. [cleanup_batch_files] never raises, tries to remove every
    recorded launcher script, in the order they were recorded, even after
    a removal has failed, and leaves the record as it is: a later call
    tries to remove the same files again. *)
Theorem cleanup_batch_files_removes_all env st :
  exists evs,
    cleanup_batch_files env st = (Ok tt, set_trace (fun t => t ++ evs) st)
    /\ removed_files evs = batch_files st
    /\ batch_files (cleanup_batch_files env st).2 = batch_files st.
Proof.
  unfold cleanup_batch_files, gets. rewrite bind_unfold. cbn [fst snd].
  destruct (cleanup_loop_removes env (batch_files st) st) as (evs & Heq & Hr).
  exists evs. rewrite Heq. done.
Qed.

(** ** Runs that end before they start *)

(** X10. A seed URL that passes the gate but holds no [artist/<id>]
    segment ends the run at once: the failed match is reported as an
    error, the finished signal is given, and no catalog is asked. *)
Theorem run_without_artist_id cfg env :
  is_valid_url (bracketed_host_ok env) (spotify_link cfg) ["open.spotify.com"] = true ->
  search_artist_id (spotify_link cfg) = None ->
  driver_step cfg env init_system =
  Some (mkSystem
          (set_trace (fun _ =>
             [Output "An error occurred: 'NoneType' object has no attribute 'group'";
              LogError "Error in main download process: 'NoneType' object has no attribute 'group'";
              Finished]) init_state)
          Stopped []).
Proof.
  intros Hv Hs. unfold driver_step. cbn [driver init_system shared workers].
  rewrite Hv. cbn [negb]. unfold run_setup. rewrite bind_unfold, Hs. reflexivity.
Qed.

Definition album_cfg : Config :=
  mkConfig "https://open.spotify.com/album/XYZ" "out" 4 5 false false 3 2.

Lemma run_without_artist_id_witness :
  exists sys, driver_step album_cfg Scenario.world init_system = Some sys
              /\ driver sys = Stopped /\ workers sys = [].
Proof.
  eexists. split.
  - apply (run_without_artist_id album_cfg Scenario.world); reflexivity.
  - split; reflexivity.
Defined.

(** X11. With a pool size that is not positive the thread pool cannot be
    created: whatever the threads do, no call of [process_artist] is ever
    submitted (although the root artist is looked up and enqueued). *)
Theorem no_pool_no_dispatch cfg sys :
  max_concurrent cfg <= 0 -> reachable cfg sys ->
  workers sys = [] /\ (driver sys = Start \/ driver sys = Stopped).
Proof.
  intros Hmc. revert sys.
  apply (reachable_ind cfg (fun sys =>
    workers sys = [] /\ (driver sys = Start \/ driver sys = Stopped))).
  - split; [done | by left].
  - intros s s' _ [Hw Hpc] Hstep.
    destruct Hstep; cbn [workers driver];
      try (split; [exact Hw | by right]);
      try (destruct Hpc as [Hpc|Hpc]; congruence);
      try (match goal with Hi : workers s !! _ = Some _ |- _ =>
             rewrite Hw, lookup_nil in Hi; discriminate end).
    + match goal with Hok : (run_setup _ _ _).1 = Ok tt |- _ =>
        apply run_setup_ok_pool in Hok; lia end.
    + by split.
Qed.

Definition no_pool_cfg : Config :=
  mkConfig "https://open.spotify.com/artist/A" "out" 4 0 false false 3 2.

Lemma no_pool_no_dispatch_witness :
  workers (default init_system
             (exec no_pool_cfg [DriverStep Scenario.world] init_system)) = [].
Proof.
  apply (no_pool_no_dispatch no_pool_cfg).
  - vm_compute. discriminate.
  - exists [DriverStep Scenario.world]. vm_compute. reflexivity.
Defined.

(** ** The artist identifier of the seed URL *)

Lemma span_spec p s a b :
  PyStr.span p s = (a, b) ->
  s = a +:+ b /\ PyStr.all_chars p a = true
  /\ match b with String c _ => p c = false | EmptyString => True end.
Proof.
  revert a b. induction s as [|c s IH]; intros a b; simpl.
  - intros [= <- <-]. done.
  - destruct (p c) eqn:Hc.
    + destruct (PyStr.span p s) as [a' b'] eqn:Es. intros [= <- <-].
      destruct (IH a' b' eq_refl) as (-> & Ha & Hb).
      rewrite str_app_cons. simpl. rewrite Hc. done.
    + intros [= <- <-]. rewrite str_app_nil. simpl. done.
Qed.

Lemma search_artist_id_cons c s :
  search_artist_id (String c s) =
  match PyStr.strip_prefix "artist/" (String c s) with
  | Some rest =>
      match fst (PyStr.span PyStr.is_word rest) with
      | EmptyString => search_artist_id s
      | g => Some g
      end
  | None => search_artist_id s
  end.
Proof. reflexivity. Qed.

(** X12. What the program takes as the artist identifier of a link: a
    non-empty run of word characters that follows an occurrence of
    [artist/] in the link and is not followed by another word character;
    and there is no identifier exactly when no [artist/] of the link is
    followed by a word character. *)
Theorem search_artist_id_sound s :
  (forall g, search_artist_id s = Some g ->
     g <> "" /\ PyStr.all_chars PyStr.is_word g = true
     /\ exists pre post,
          s = pre +:+ "artist/" +:+ g +:+ post
          /\ match post with String c _ => PyStr.is_word c = false | EmptyString => True end)
  /\ (search_artist_id s = None <->
      forall pre c post, s = pre +:+ "artist/" +:+ String c post -> PyStr.is_word c = false).
Proof.
  split.
  - induction s as [|c s IH]; intros g; [discriminate|].
    rewrite search_artist_id_cons.
    assert (Htail : search_artist_id s = Some g ->
      g <> "" /\ PyStr.all_chars PyStr.is_word g = true
      /\ exists pre post,
           String c s = pre +:+ "artist/" +:+ g +:+ post
           /\ match post with String c _ => PyStr.is_word c = false
              | EmptyString => True end).
    { intros Hs. destruct (IH g Hs) as (Hne & Hall & pre & post & -> & Hpost).
      split; [done|]. split; [done|]. exists (String c pre), post. by rewrite str_app_cons. }
    destruct (PyStr.strip_prefix "artist/" (String c s)) as [rest|] eqn:E; [|exact Htail].
    apply strip_prefix_spec in E.
    destruct (PyStr.span PyStr.is_word rest) as [a b] eqn:Es. cbn [fst].
    destruct (span_spec _ _ _ _ Es) as (-> & Ha & Hb).
    destruct a as [|x a]; [exact Htail|].
    intros [= <-]. split; [done|]. split; [done|].
    exists "", b. rewrite str_app_nil. done.
  - induction s as [|c s IH].
    + split; [|done]. intros _ pre d post H.
      destruct pre; discriminate.
    + rewrite search_artist_id_cons. split.
      * intros Hnone pre d post Heq.
        destruct pre as [|p0 pre].
        -- rewrite str_app_nil in Heq.
           apply strip_prefix_spec in Heq. rewrite Heq in Hnone.
           simpl in Hnone. destruct (PyStr.is_word d) eqn:Hd; [|done].
           destruct (PyStr.span PyStr.is_word post); discriminate.
        -- rewrite str_app_cons in Heq. injection Heq as <- Hs.
           apply (proj1 IH) with (pre := pre) (post := post); [|done].
           destruct (PyStr.strip_prefix "artist/" (String c s)); [|done].
           by destruct (fst (PyStr.span PyStr.is_word s0)).
      * intros Hall.
        assert (Htail : search_artist_id s = None).
        { apply IH. intros pre d post ->. apply (Hall (String c pre) d post).
          by rewrite str_app_cons. }
        destruct (PyStr.strip_prefix "artist/" (String c s)) as [rest|] eqn:E; [|done].
        apply strip_prefix_spec in E.
        destruct (PyStr.span PyStr.is_word rest) as [a b] eqn:Es. cbn [fst].
        destruct (span_spec _ _ _ _ Es) as (-> & Ha & Hb).
        destruct a as [|x a]; [done|]. exfalso.
        rewrite str_app_cons in E. simpl in Ha.
        rewrite (Hall "" x (a +:+ b)) in Ha; [done|]. by rewrite str_app_nil.
Qed.

(** ** The selection of relatives *)

Lemma draw_NoDup {A} (rnd : list nat) (pool : list A) k :
  NoDup pool -> NoDup (PyRandom.draw rnd pool k).
Proof.
  revert rnd pool. induction k as [|k IH]; intros rnd pool Hnd; simpl.
  - constructor.
  - destruct pool as [|x0 pool]; [constructor|].
    set (i := (hd O rnd mod length (x0 :: pool))%nat).
    assert (Hi : (i < length (x0 :: pool))%nat) by (apply Nat.mod_upper_bound; simpl; lia).
    destruct (lookup_lt_is_Some_2 _ _ Hi) as [x Hx].
    rewrite (nth_lookup_Some _ _ _ _ Hx).
    pose proof (delete_Permutation _ _ _ Hx) as Hp.
    rewrite Hp in Hnd. apply NoDup_cons in Hnd as [Hnot Hnd'].
    apply NoDup_cons. split; [|by apply IH].
    intros Hin. apply draw_elem_of in Hin. done.
Qed.

(** The loop never raises, and what it adds to the kept list is a
    subsequence of the candidates. *)
Lemma wildly_different_loop_sublist cfg env candidates kept st :
  exists more, (wildly_different_loop cfg env candidates kept st).1 = Ok (kept ++ more)
               /\ sublist more candidates.
Proof.
  revert kept st. induction candidates as [|artist rest IH]; intros kept st.
  - exists []. rewrite app_nil_r. done.
  - cbn [wildly_different_loop]. rewrite bind_unfold.
    unfold try_except at 1. unfold call_artist, emit, modify, lift, gets.
    rewrite !bind_unfold. cbn -[String.append].
    destruct (sp_artist env (sp_id artist)) as [full|e]; cbn -[String.append].
    + rewrite ?bind_unfold. cbn -[String.append].
      destruct (decide (_ = ∅)) as [Hempty|Hnew]; cbn -[String.append].
      * destruct (related_limit cfg <=? Z.of_nat (length kept)).
        -- exists []. rewrite app_nil_r. split; [done|]. apply sublist_nil_l.
        -- match goal with |- context [wildly_different_loop cfg env rest kept ?s] =>
             destruct (IH kept s) as (more & Hm & Hsub) end.
           exists more. split; [done|]. by apply sublist_cons.
      * rewrite ?bind_unfold. cbn -[String.append].
        destruct (related_limit cfg <=? Z.of_nat (length (kept ++ [artist]))).
        -- exists [artist]. split; [done|]. apply sublist_skip, sublist_nil_l.
        -- match goal with |- context [wildly_different_loop cfg env rest _ ?s] =>
             destruct (IH (kept ++ [artist]) s) as (more & Hm & Hsub) end.
           exists (artist :: more). rewrite Hm, <- app_assoc. split; [done|].
           by apply sublist_skip.
    + rewrite ?bind_unfold. cbn -[String.append].
      match goal with |- context [wildly_different_loop cfg env rest kept ?s] =>
        destruct (IH kept s) as (more & Hm & Hsub) end.
      exists more. split; [done|]. by apply sublist_cons.
Qed.

Lemma get_wildly_different_artists_shape cfg env source_artist related_artists st :
  exists kept extra,
    (get_wildly_different_artists cfg env source_artist related_artists st).1
    = Ok (kept ++ extra)
    /\ sublist kept related_artists
    /\ (forall a, a ∈ extra -> a ∈ related_artists /\ a ∉ kept)
    /\ (NoDup related_artists -> NoDup extra).
Proof.
  unfold get_wildly_different_artists. rewrite bind_unfold.
  cbn [modify]. rewrite bind_unfold. cbn [fst snd].
  match goal with |- context [wildly_different_loop cfg env related_artists [] ?s] =>
    destruct (wildly_different_loop_sublist cfg env related_artists [] s)
      as (kept & Hk & Hsub);
    destruct (wildly_different_loop cfg env related_artists [] s) as [r s'] end.
  cbn [fst] in Hk. subst r. cbn [app fst snd].
  destruct (Z.of_nat (length kept) <? related_limit cfg) eqn:Hlt.
  - rewrite bind_unfold. unfold lift. cbn [fst snd].
    unfold PyRandom.sample, top_up_request. cbn [fst snd].
    apply Z.ltb_lt in Hlt.
    set (pool := filter (fun a => a ∉ kept) related_artists).
    rewrite (proj2 (Z.ltb_ge _ 0)) by lia.
    rewrite (proj2 (Z.ltb_ge (Z.of_nat (length pool)) _)) by lia.
    cbn [orb].
    exists kept. eexists. split; [reflexivity|]. split; [done|]. split.
    + intros a Ha. apply draw_elem_of in Ha. by apply list_elem_of_filter in Ha as [? ?].
    + intros Hnd. apply draw_NoDup. by apply NoDup_filter.
  - exists kept, []. rewrite app_nil_r. split; [done|]. split; [done|]. split.
    + intros a Ha. by apply elem_of_nil in Ha.
    + intros _. constructor.
Qed.


(** X14. When the candidates are pairwise different, no artist is
    selected twice. *)
Theorem get_wildly_different_artists_no_repeat cfg env source_artist related_artists st :
  NoDup related_artists ->
  exists out,
    (get_wildly_different_artists cfg env source_artist related_artists st).1 = Ok out
    /\ NoDup out.
Proof.
  intros Hnd.
  destruct (get_wildly_different_artists_shape cfg env source_artist related_artists st)
    as (kept & extra & H1 & H2 & H3 & H4).
  exists (kept ++ extra). split; [done|].
  apply NoDup_app. split; [by eapply sublist_NoDup|]. split; [|by apply H4].
  intros a Hk He. by destruct (H3 a He).
Qed.

Lemma get_wildly_different_artists_no_repeat_witness :
  exists out,
    (get_wildly_different_artists Genres.cfg Genres.world Genres.source
       [Genres.c1; Genres.c2; Genres.c3; Genres.c4; Genres.c5] Genres.pop_seen).1 = Ok out
    /\ NoDup out.
Proof.
  apply (get_wildly_different_artists_no_repeat Genres.cfg Genres.world Genres.source
           [Genres.c1; Genres.c2; Genres.c3; Genres.c4; Genres.c5] Genres.pop_seen).
  apply (bool_decide_unpack _). vm_compute. exact I.
Defined.

(** ** The single-artist thread *)

Definition is_report (e : event) : bool :=
  match e with ArtistFinished _ _ => true | _ => false end.

Definition is_ok {A} (r : result A) : bool :=
  match r with Ok _ => true | Raise _ => false end.

(** Whether every step of [ArtistProcessor.run] goes through: the two
    catalog lookups, writing the launcher script, starting it and waiting
    for it, and removing it. *)
Definition ArtistProcessor_succeeds (self : ArtistProcessor.t) (env : Env) (st : State)
    : bool :=
  match sp_artist env (ArtistProcessor.spotify_id self),
        dz_get_artist env (ArtistProcessor.deezer_id self) with
  | Ok _, Ok deezer_artist =>
      let path :=
        path_join env
          (path_join env (ArtistProcessor.output_dir self)
             (name (node_at st (ArtistProcessor.node self))))
          ("download_" +:+ pretty (dz_id deezer_artist) +:+ ".bat") in
      is_ok (fs_prepare env path) && is_ok (deemix env path) && is_ok (fs_remove env path)
  | _, _ => false
  end.

Lemma ArtistProcessor_download_artist_outcome self env deezer_artist st :
  let path :=
    path_join env
      (path_join env (ArtistProcessor.output_dir self)
         (name (node_at st (ArtistProcessor.node self))))
      ("download_" +:+ pretty (dz_id deezer_artist) +:+ ".bat") in
  exists evs,
    ArtistProcessor.download_artist self env deezer_artist st =
    (Ok (is_ok (fs_prepare env path) && is_ok (deemix env path)
         && is_ok (fs_remove env path)),
     set_trace (fun t => t ++ evs) st)
    /\ Forall (fun e => is_report e = false) evs.
Proof.
  intros path.
  unfold ArtistProcessor.download_artist, try_except, read_node, emit, modify, lift, gets.
  rewrite ?bind_unfold. cbn -[String.append pretty node_at ArtistProcessor.tag].
  fold path.
  destruct (fs_prepare env path) as [[]|e];
    cbn -[String.append pretty node_at ArtistProcessor.tag].
  2: { eexists [_; _]. split; [rewrite ?bind_unfold; cbn -[String.append pretty node_at ArtistProcessor.tag];
         unfold set_trace; cbn -[String.append pretty node_at ArtistProcessor.tag];
         rewrite <- ?app_assoc; reflexivity | by repeat constructor]. }
  destruct (deemix env path) as [[]|e];
    cbn -[String.append pretty node_at ArtistProcessor.tag].
  2: { eexists [_; _; _]. split; [rewrite ?bind_unfold; cbn -[String.append pretty node_at ArtistProcessor.tag];
         unfold set_trace; cbn -[String.append pretty node_at ArtistProcessor.tag];
         rewrite <- ?app_assoc; reflexivity | by repeat constructor]. }
  destruct (fs_remove env path) as [[]|e];
    cbn -[String.append pretty node_at ArtistProcessor.tag].
  2: { eexists [_; _; _; _]. split; [rewrite ?bind_unfold; cbn -[String.append pretty node_at ArtistProcessor.tag];
         unfold set_trace; cbn -[String.append pretty node_at ArtistProcessor.tag];
         rewrite <- ?app_assoc; reflexivity | by repeat constructor]. }
  eexists [_; _; _; _]. split; [rewrite ?bind_unfold; cbn -[String.append pretty node_at ArtistProcessor.tag];
         unfold set_trace; cbn -[String.append pretty node_at ArtistProcessor.tag];
    rewrite <- ?app_assoc; reflexivity | by repeat constructor].
Qed.

(** X15. [ArtistProcessor.run] never raises and reports its artist
    exactly once, as the last thing it does, whatever fails; the report
    says success exactly when every step went through, so a download
    whose launcher script cannot be removed afterwards is reported as
    failed.  Nothing but the trace changes. *)
Theorem ArtistProcessor_run_reports_once self env st :
  exists evs label,
    ArtistProcessor.run self env st =
    (Ok tt, set_trace (fun t => t ++ evs ++
                         [ArtistFinished label (ArtistProcessor_succeeds self env st)]) st)
    /\ Forall (fun e => is_report e = false) evs.
Proof.
  unfold ArtistProcessor_succeeds, ArtistProcessor.run.
  unfold try_except at 1. unfold call_artist.
  rewrite bind_unfold. unfold emit at 1, modify at 1. rewrite bind_unfold.
  cbn [fst snd]. unfold lift at 1.
  destruct (sp_artist env (ArtistProcessor.spotify_id self)) as [a|e]; cbn [fst snd].
  2: { unfold emit, modify. rewrite !bind_unfold. cbn [fst snd].
       eexists [_; _; _], _. split; [unfold set_trace; cbn -[String.append pretty ArtistProcessor.tag];
         rewrite <- ?app_assoc; reflexivity | by repeat constructor]. }
  rewrite bind_unfold. unfold emit at 1, modify at 1. cbn [fst snd].
  rewrite bind_unfold. unfold lift at 1. cbn [fst snd].
  destruct (dz_get_artist env (ArtistProcessor.deezer_id self)) as [dz|e]; cbn [fst snd].
  2: { unfold emit, modify. rewrite !bind_unfold. cbn [fst snd].
       eexists [_; _; _; _], _. split; [unfold set_trace; cbn -[String.append pretty ArtistProcessor.tag];
         rewrite <- ?app_assoc; reflexivity | by repeat constructor]. }
  rewrite bind_unfold. unfold emit at 1, modify at 1. cbn [fst snd].
  rewrite bind_unfold.
  match goal with |- context [ArtistProcessor.download_artist self env dz ?s] =>
    destruct (ArtistProcessor_download_artist_outcome self env dz s) as (evs & Hd & Hev);
    rewrite Hd end.
  cbn [fst snd]. unfold emit, modify.
  exists ([CallArtist (ArtistProcessor.spotify_id self);
           CallDeezerArtist (ArtistProcessor.deezer_id self);
           Output (ArtistProcessor.tag self +:+ "Processing artist: " +:+ sp_name a)]
          ++ evs).
  eexists. split.
  - unfold set_trace. cbn -[String.append pretty ArtistProcessor.tag node_at].
    rewrite <- ?app_assoc. reflexivity.
  - apply Forall_app. split; [by repeat constructor | done].
Qed.

(** * The window: [SpotifyDeemixGUI]

    The widgets are modelled by what they hold: the [ttk.Treeview] of
    artists as a forest of rows, the history [Listbox] as the list of its
    lines, and [download_history.json] as the list it stores ([None]
    when the file does not exist). *)

Module Gui.

(** A row of the artist tree: the text of its first column, its
    [Status] column, and the rows below it. *)
Inductive Item : Type :=
  mkItem { text : string; status : string; kids : list Item }.

Fixpoint Item_forall_ind (P : Item -> Prop)
    (H : forall t s ks, Forall P ks -> P (mkItem t s ks)) (i : Item) : P i :=
  match i with
  | mkItem t s ks =>
      H t s ks
        ((fix go (l : list Item) : Forall P l :=
            match l with
            | [] => List.Forall_nil P
            | x :: r => @List.Forall_cons _ P x r (Item_forall_ind P H x) (go r)
            end) ks)
  end.

(** The rows in display order, each with its status. *)
Fixpoint rows (i : Item) : list (string * string) :=
  match i with
  | mkItem t s ks => (t, s) :: flat_map rows ks
  end.

(** The tree without its statuses. *)
Fixpoint skeleton (i : Item) : Item :=
  match i with
  | mkItem t _ ks => mkItem t "" (map skeleton ks)
  end.

(** [for x in xs: if f(x): break], where [f] may change the row it is
    given: the result says whether some call answered [True]. *)
Definition first_hit {A} (f : A -> bool * A) : list A -> bool * list A :=
  fix loop (l : list A) : bool * list A :=
    match l with
    | [] => (false, [])
    | x :: rest =>
        let '(hit, x') := f x in
        if (hit : bool) then (true, x' :: rest)
        else let '(h, rest') := loop rest in (h, x' :: rest')
    end.

(** [_update_status] *)
Fixpoint _update_status (item : Item) (artist_name : string) (success : bool)
    : bool * Item :=
  match item with
  | mkItem t s ks =>
      if String.eqb t artist_name
      then (true, mkItem t (if success then "Downloaded" else "Failed") ks)
      else
        let '(hit, ks') :=
          first_hit (fun child => _update_status child artist_name success) ks in
        (hit, mkItem t s ks')
  end.

(** [update_artist_status], on the top-level rows of the tree. *)
Definition update_artist_status (artist_tree : list Item) (artist_name : string)
    (success : bool) : list Item :=
  (first_hit (fun item => _update_status item artist_name success) artist_tree).2.

(** [_add_node]: the row of a node and of everything below it.  The
    fuel bounds the depth of the recursion. *)
Fixpoint _add_node (fuel : nat) (st : State) (node : addr) : option Item :=
  match fuel with
  | O => None
  | S fuel' =>
      let nd := node_at st node in
      ks ← mapM (_add_node fuel' st) (children nd);
      Some (mkItem (name nd) "Pending" ks)
  end.

(** [update_artist_tree]: the rows there were are deleted first. *)
Definition update_artist_tree (fuel : nat) (st : State) (root_node : addr)
    (artist_tree : list Item) : option (list Item) :=
  item ← _add_node fuel st root_node;
  Some [item].

(** The history tab and its file. *)
Record History := mkHistory {
  download_history : list string;
  history_list : list string;
  history_file : option (list string);
}.

(** [save_history] *)
Definition save_history (g : History) : History :=
  mkHistory (download_history g) (history_list g) (Some (download_history g)).

(** [add_to_history]; [timestamp] is what [time.strftime] answers. *)
Definition add_to_history (timestamp artist_name : string) (success : bool)
    (g : History) : History :=
  let status := if success then "Successfully downloaded" else "Failed to download" in
  let history_item := timestamp +:+ " - " +:+ status +:+ " " +:+ artist_name in
  save_history
    (mkHistory (download_history g ++ [history_item])
               (history_list g ++ [history_item])
               (history_file g)).

(** [load_history] *)
Definition load_history (g : History) : History :=
  match history_file g with
  | Some items => mkHistory items (history_list g ++ items) (history_file g)
  | None => mkHistory [] (history_list g) (history_file g)
  end.

(** [clear_history]; [answer] is what the user answers to the question. *)
Definition clear_history (answer : bool) (g : History) : History :=
  if answer then save_history (mkHistory [] [] (history_file g)) else g.

(** The history of a window that has just been built, lines 304-305 of
    [__init__]. *)
Definition startup (file : option (list string)) : History :=
  load_history (mkHistory [] [] file).

(** What happens to the history while the window is open. *)
Inductive history_op :=
  | Add (timestamp artist_name : string) (success : bool)
  | Clear (answer : bool).

Definition apply_op (g : History) (op : history_op) : History :=
  match op with
  | Add timestamp artist_name success => add_to_history timestamp artist_name success g
  | Clear answer => clear_history answer g
  end.

End Gui.

(** ** The history *)

(** X16. However many reports are added and whatever the user answers
    to the clear-history question, the history tab shows exactly
    [download_history], and a window opened afterwards on the file that
    was left shows the same history. *)
Theorem history_survives_restart file ops :
  let g := foldl Gui.apply_op (Gui.startup file) ops in
  Gui.history_list g = Gui.download_history g
  /\ Gui.history_list (Gui.startup (Gui.history_file g)) = Gui.history_list g.
Proof.
  cbn zeta.
  assert (H : forall g,
    Gui.history_list g = Gui.download_history g
    /\ Gui.history_list (Gui.startup (Gui.history_file g)) = Gui.history_list g ->
    Gui.history_list (foldl Gui.apply_op g ops)
    = Gui.download_history (foldl Gui.apply_op g ops)
    /\ Gui.history_list (Gui.startup (Gui.history_file (foldl Gui.apply_op g ops)))
       = Gui.history_list (foldl Gui.apply_op g ops)).
  { induction ops as [|op ops IH]; intros g Hg; [exact Hg|].
    cbn [foldl]. apply IH. destruct Hg as [H1 H2].
    destruct op as [ts nm ok|[|]]; cbn -[String.append].
    - by rewrite H1.
    - done.
    - by split. }
  apply H. unfold Gui.startup, Gui.load_history. cbn.
  destruct file as [items|]; cbn; done.
Qed.

(** ** The statuses of the tree *)

Definition has_row (artist_name : string) (l : list (string * string)) : bool :=
  existsb (fun r => String.eqb r.1 artist_name) l.

(** Setting the status of the first row, in display order, that shows a
    given name. *)
Fixpoint mark_first (artist_name v : string) (l : list (string * string))
    : list (string * string) :=
  match l with
  | [] => []
  | (t, s) :: r =>
      if String.eqb t artist_name then (t, v) :: r
      else (t, s) :: mark_first artist_name v r
  end.

Lemma mark_first_app artist_name v a b :
  mark_first artist_name v (a ++ b) =
  if has_row artist_name a then mark_first artist_name v a ++ b
  else a ++ mark_first artist_name v b.
Proof.
  induction a as [|[t s] a IH]; [reflexivity|].
  unfold has_row in *. cbn [mark_first existsb app fst].
  destruct (String.eqb t artist_name); [reflexivity|]. cbn [orb]. rewrite IH.
  by destruct (existsb _ a).
Qed.

Lemma mark_first_absent artist_name v a :
  has_row artist_name a = false -> mark_first artist_name v a = a.
Proof.
  induction a as [|[t s] a IH]; [reflexivity|].
  unfold has_row in *. cbn [mark_first existsb fst].
  destruct (String.eqb t artist_name); [discriminate|]. cbn [orb].
  intros H. by rewrite IH.
Qed.

Lemma has_row_app artist_name a b :
  has_row artist_name (a ++ b) = has_row artist_name a || has_row artist_name b.
Proof. apply existsb_app. Qed.

Definition verdict (success : bool) : string :=
  if success then "Downloaded" else "Failed".

Definition update_ok (artist_name : string) (success : bool) (i : Gui.Item) : Prop :=
  (Gui._update_status i artist_name success).1 = has_row artist_name (Gui.rows i)
  /\ Gui.rows (Gui._update_status i artist_name success).2
     = mark_first artist_name (verdict success) (Gui.rows i)
  /\ Gui.skeleton (Gui._update_status i artist_name success).2 = Gui.skeleton i.

Lemma first_hit_ok artist_name success (l : list Gui.Item) :
  Forall (update_ok artist_name success) l ->
  let r := Gui.first_hit (fun i => Gui._update_status i artist_name success) l in
  r.1 = has_row artist_name (flat_map Gui.rows l)
  /\ flat_map Gui.rows r.2 = mark_first artist_name (verdict success) (flat_map Gui.rows l)
  /\ map Gui.skeleton r.2 = map Gui.skeleton l.
Proof.
  induction 1 as [|i l (Hi1 & Hi2 & Hi3) Hl IH]; [done|].
  cbn zeta in *. cbn [Gui.first_hit flat_map map].
  destruct (Gui._update_status i artist_name success) as [hit i'] eqn:E.
  cbn [fst snd] in Hi1, Hi2, Hi3.
  rewrite has_row_app, mark_first_app, <- Hi1.
  destruct hit; cbn [fst snd orb flat_map map].
  - by rewrite Hi2, Hi3.
  - fold (Gui.first_hit (fun i => Gui._update_status i artist_name success)).
    destruct (Gui.first_hit _ l) as [h l'] eqn:El.
    cbn [fst snd flat_map map] in *. destruct IH as (IH1 & IH2 & IH3).
    rewrite IH2, IH3, Hi3. repeat split; try done.
    f_equal. rewrite Hi2. apply mark_first_absent. by rewrite <- Hi1.
Qed.

Lemma _update_status_ok artist_name success i : update_ok artist_name success i.
Proof.
  induction i as [t s ks IH] using Gui.Item_forall_ind.
  unfold update_ok. cbn [Gui._update_status Gui.rows has_row existsb mark_first fst].
  destruct (String.eqb t artist_name) eqn:Et; cbn [fst snd orb Gui.rows Gui.skeleton].
  - done.
  - destruct (first_hit_ok artist_name success ks IH) as (H1 & H2 & H3).
    destruct (Gui.first_hit _ ks) as [hit ks'].
    cbn [fst snd Gui.rows Gui.skeleton] in *. by rewrite H1, H2, H3.
Qed.

(** X17. [update_artist_status] changes the status of one row at most:
    the first row, in display order, that shows the given name, also when
    the same artist is shown under several parents.  No row is added,
    removed, moved or renamed. *)
Theorem update_artist_status_marks_first artist_tree artist_name success :
  flat_map Gui.rows (Gui.update_artist_status artist_tree artist_name success)
  = mark_first artist_name (verdict success) (flat_map Gui.rows artist_tree)
  /\ map Gui.skeleton (Gui.update_artist_status artist_tree artist_name success)
     = map Gui.skeleton artist_tree.
Proof.
  unfold Gui.update_artist_status.
  destruct (first_hit_ok artist_name success artist_tree) as (_ & H2 & H3); [|done].
  apply Forall_forall. intros i _. apply _update_status_ok.
Qed.

(** ** Drawing the tree *)

Lemma Forall_choose {A B} (R : A -> B -> Prop) (l : list A) :
  Forall (fun x => exists y, R x y) l -> exists k, Forall2 R l k.
Proof.
  induction 1 as [|x l [y Hy] _ [k Hk]].
  - exists []. constructor.
  - exists (y :: k). by constructor.
Qed.

Lemma _add_node_enough cfg s :
  links_ok s -> depths_bounded cfg s ->
  forall k n,
    (n < length (heap s))%nat ->
    max_depth cfg - depth (node_at s n) < Z.of_nat k ->
    exists item,
      (forall fuel, (k <= fuel)%nat -> Gui._add_node fuel s n = Some item)
      /\ Gui.text item = name (node_at s n)
      /\ Forall (fun r => r.2 = "Pending") (Gui.rows item).
Proof.
  intros Hl Hb. induction k as [|k IH]; intros n Hn Hk.
  - exfalso. destruct (lookup_lt_is_Some_2 _ _ Hn) as [nd Hnd].
    pose proof (Forall_lookup_1 _ _ _ _ Hb Hnd) as Hd.
    unfold node_at in Hk. unfold addr in *. rewrite Hnd in Hk. simpl in *. lia.
  - destruct (lookup_lt_is_Some_2 _ _ Hn) as [nd Hnd].
    assert (Hnode : node_at s n = nd).
    { unfold node_at. unfold addr in *. by rewrite Hnd. }
    assert (Hkids : Forall (fun c => exists item,
               (forall fuel, (k <= fuel)%nat -> Gui._add_node fuel s c = Some item)
               /\ Forall (fun r => r.2 = "Pending") (Gui.rows item)) (children nd)).
    { apply Forall_forall. intros c Hc.
      destruct (Hl n nd c Hnd Hc) as [[_ Hlt] Hd].
      destruct (IH c Hlt) as (item & Hf & _ & Hp); [rewrite Hd, Hnode in *; lia|].
      by exists item. }
    apply Forall_choose in Hkids as [ks Hks].
    exists (Gui.mkItem (name nd) "Pending" ks). split; [|split].
    + intros [|fuel] Hfuel; [lia|]. cbn [Gui._add_node]. rewrite Hnode.
      assert (Hm : mapM (Gui._add_node fuel s) (children nd) = Some ks).
      { apply mapM_Some_2. eapply Forall2_impl; [exact Hks|].
        intros c item [Hf _]. apply Hf. lia. }
      by rewrite Hm.
    + by rewrite Hnode.
    + cbn [Gui.rows]. constructor; [done|].
      apply Forall_flat_map. apply Forall_forall. intros item Hitem.
      apply list_elem_of_lookup in Hitem as [j Hj].
      destruct (Forall2_lookup_r _ _ _ _ _ Hks Hj) as (c & _ & _ & Hp). exact Hp.
Qed.

(** X18. Drawing the tree below any node that a run has built
    terminates, with a recursion no deeper than the depth limit allows
    ([max_depth - depth + 1] nested calls), and every row it draws is
    [Pending]: each redraw forgets what was downloaded and what failed. *)
Theorem add_node_terminates cfg sys n :
  0 <= max_depth cfg -> reachable cfg sys ->
  (n < length (heap (shared sys)))%nat ->
  exists item,
    (forall fuel,
       (Z.to_nat (max_depth cfg - depth (node_at (shared sys) n)) < fuel)%nat ->
       forall artist_tree,
         Gui.update_artist_tree fuel (shared sys) n artist_tree = Some [item])
    /\ Gui.text item = name (node_at (shared sys) n)
    /\ Forall (fun r => r.2 = "Pending") (Gui.rows item).
Proof.
  intros H0 Hr Hn.
  destruct (_add_node_enough cfg (shared sys) (reachable_links_ok cfg sys Hr)
              (reachable_depths_bounded cfg sys H0 Hr)
              (S (Z.to_nat (max_depth cfg - depth (node_at (shared sys) n)))) n Hn)
    as (item & Hf & Ht & Hp); [lia|].
  exists item. split; [|done].
  intros fuel Hfuel artist_tree. unfold Gui.update_artist_tree.
  rewrite Hf by lia. done.
Qed.

Lemma add_node_terminates_witness :
  exists item,
    (forall fuel,
       (Z.to_nat (max_depth Scenario.cfg
                  - depth (node_at (shared Scenario.final) 0%nat)) < fuel)%nat ->
       forall artist_tree,
         Gui.update_artist_tree fuel (shared Scenario.final) 0%nat artist_tree
         = Some [item])
    /\ Gui.text item = name (node_at (shared Scenario.final) 0%nat)
    /\ Forall (fun r => r.2 = "Pending") (Gui.rows item).
Proof.
  apply (add_node_terminates Scenario.cfg Scenario.final 0%nat).
  - vm_compute. discriminate.
  - exists Scenario.schedule. vm_compute. reflexivity.
  - vm_compute. lia.
Defined.

(** ** How many children one call adds *)

(** A computation that takes every state of [P] to a state of [R],
    whether it returns or raises. *)
Definition leads (P R : State -> Prop) {A} (m : M A) : Prop :=
  forall s, P s -> R (m s).2.

Lemma leads_bind {A B} (P Q R : State -> Prop) (m : M A) (k : A -> M B) :
  leads P Q m -> (forall a, leads Q R (k a)) -> (forall s, Q s -> R s) ->
  leads P R (m ≫= k).
Proof.
  intros Hm Hk HQR s H. rewrite bind_unfold. specialize (Hm s H).
  destruct (m s) as [[a|e] s']; simpl in *; [by apply Hk | by apply HQR].
Qed.

Lemma leads_keep {A} (P : State -> Prop) (m : M A) : preserves P m -> leads P P m.
Proof. intros Hm s H. by apply Hm. Qed.

Lemma leads_weaken {A} (P R : State -> Prop) (m : M A) :
  preserves P m -> (forall s, P s -> R s) -> leads P R m.
Proof. intros Hm HPR s H. by apply HPR, Hm. Qed.

Lemma leads_try {A} (P R : State -> Prop) (body : M A) handler :
  leads P R body -> (forall e, preserves R (handler e)) ->
  leads P R (try_except body handler).
Proof.
  intros Hb Hh s H. unfold try_except. specialize (Hb s H).
  destruct (body s) as [[a|e] s']; simpl in *; [done | by apply Hh].
Qed.

(** The queue is as it was. *)
Definition same_queue (q0 : list addr) (s : State) : Prop := artist_queue s = q0.

(** The queue has grown by at most [N] nodes. *)
Definition grown_queue (q0 : list addr) (N : Z) (s : State) : Prop :=
  exists new, artist_queue s = q0 ++ new /\ Z.of_nat (length new) <= N.

Lemma same_grown q0 N : 0 <= N -> forall s, same_queue q0 s -> grown_queue q0 N s.
Proof. intros HN s H. exists []. rewrite app_nil_r. split; [done | simpl; lia]. Qed.

Lemma for_each_enqueue_child n l s :
  (for_each l (enqueue_child n) s).1 = Ok tt
  /\ artist_queue (for_each l (enqueue_child n) s).2
     = artist_queue s ++ seq (length (heap s)) (length l).
Proof.
  revert s. induction l as [|x l IH]; intros s.
  - cbn. by rewrite app_nil_r.
  - cbn [for_each]. rewrite bind_unfold, enqueue_child_eq.
    match goal with |- context [for_each l (enqueue_child n) ?s1] =>
      destruct (IH s1) as [H1 H2]; set (s' := s1) in * end.
    split; [exact H1|]. rewrite H2. unfold s'.
    cbn [artist_queue set_artist_queue heap set_heap length seq].
    rewrite length_alter, length_app, <- app_assoc. cbn [length app].
    by replace (length (heap s) + 1)%nat with (S (length (heap s))) by lia.
Qed.

Lemma py_slice_to_length {A} (l : list A) N :
  0 <= N -> Z.of_nat (length (py_slice_to l N)) <= N.
Proof.
  intros HN. unfold py_slice_to. replace (0 <=? N) with true by lia.
  rewrite length_take. lia.
Qed.

Lemma process_artist_body_grows cfg env n st :
  0 <= related_limit cfg ->
  grown_queue (artist_queue st) (related_limit cfg) (process_artist_body cfg env n st).2.
Proof.
  intros HN. set (q0 := artist_queue st).
  assert (Ht : forall f s, same_queue q0 s -> same_queue q0 (set_trace f s)) by done.
  assert (Hg : forall f s, same_queue q0 s -> same_queue q0 (set_processed_genres f s))
    by done.
  assert (Hgt : forall f s, grown_queue q0 (related_limit cfg) s ->
                            grown_queue q0 (related_limit cfg) (set_trace f s)) by done.
  assert (H : leads (same_queue q0) (grown_queue q0 (related_limit cfg))
                (process_artist_body cfg env n)).
  { unfold process_artist_body, read_node.
    apply (leads_bind _ (same_queue q0));
      [apply leads_keep, preserves_gets | intros nd | by apply same_grown].
    apply leads_try.
    2: { intros e. repeat (preserves_step; eauto). }
    apply (leads_bind _ (same_queue q0));
      [apply leads_keep; unfold call_artist; repeat (preserves_step; eauto)
      | intros spotify_artist | by apply same_grown].
    apply (leads_bind _ (same_queue q0));
      [apply leads_keep; unfold find_deezer_artist; repeat (preserves_step; eauto)
      | intros [dz|] | by apply same_grown].
    2: { apply leads_weaken; [repeat (preserves_step; eauto) | by apply same_grown]. }
    apply (leads_bind _ (same_queue q0));
      [apply leads_keep; unfold assign_deezer_id; repeat (preserves_step; eauto)
      | intros _ | by apply same_grown].
    apply (leads_bind _ (same_queue q0));
      [apply leads_keep; unfold download_artist; repeat (preserves_step; eauto)
      | intros success | by apply same_grown].
    apply (leads_bind _ (same_queue q0));
      [apply leads_keep; repeat (preserves_step; eauto)
      | intros _ | by apply same_grown].
    apply (leads_bind _ (same_queue q0));
      [apply leads_keep, preserves_gets | intros processed | by apply same_grown].
    destruct (_ && _).
    2: { apply leads_weaken; [apply preserves_ret | by apply same_grown]. }
    apply (leads_bind _ (same_queue q0));
      [apply leads_keep; repeat (preserves_step; eauto)
      | intros _ | by apply same_grown].
    apply (leads_bind _ (same_queue q0));
      [apply leads_keep, preserves_lift | intros related_artists | by apply same_grown].
    apply (leads_bind _ (same_queue q0));
      [apply leads_keep | intros selected | by apply same_grown].
    { destruct (wildly_different cfg); [|apply preserves_ret].
      unfold get_wildly_different_artists.
      repeat first [ apply wildly_different_loop_preserves; [exact Ht | exact Hg]
                   | preserves_step; eauto ]. }
    apply (leads_bind _ (grown_queue q0 (related_limit cfg))); [| intros _ | done].
    - intros s Hs.
      destruct (for_each_enqueue_child n (py_slice_to selected (related_limit cfg)) s)
        as [_ Hq].
      eexists. split; [rewrite Hq, Hs; reflexivity|].
      rewrite length_seq. by apply py_slice_to_length.
    - apply leads_keep. repeat (preserves_step; eauto). }
  by apply H.
Qed.

(** X19. With a related limit [N] that is not negative, one call of
    [process_artist] appends at most [N] nodes to the queue, whatever the
    catalogs answer and also when the call fails half-way. *)
Theorem process_artist_adds_at_most_limit cfg env n st :
  0 <= related_limit cfg ->
  exists new,
    artist_queue (process_artist cfg env n st).2 = artist_queue st ++ new
    /\ Z.of_nat (length new) <= related_limit cfg.
Proof.
  intros HN. unfold process_artist. rewrite bind_unfold, process_artist_locked_eq.
  destruct (bool_decide _ || _).
  - exists []. rewrite app_nil_r. split; [done | simpl; lia].
  - apply (process_artist_body_grows cfg env n
             (set_processed_artists (fun s => s ∪ {[spotify_id (node_at st n)]}) st) HN).
Qed.

Lemma process_artist_adds_at_most_limit_witness :
  exists new,
    artist_queue (process_artist Scenario.cfg Scenario.world 0%nat
                    (shared (default init_system
                               (exec Scenario.cfg [DriverStep Scenario.world] init_system)))).2
    = artist_queue (shared (default init_system
                              (exec Scenario.cfg [DriverStep Scenario.world] init_system)))
      ++ new
    /\ Z.of_nat (length new) <= related_limit Scenario.cfg.
Proof.
  apply (process_artist_adds_at_most_limit Scenario.cfg Scenario.world 0%nat).
  vm_compute. discriminate.
Defined.

(** ** The size of the tree *)

(** The calls in a given condition. *)
Fixpoint tally (p : worker -> bool) (ws : list worker) : nat :=
  match ws with
  | [] => O
  | w :: ws' => ((if p w then 1 else 0) + tally p ws')%nat
  end.

Lemma tally_app p ws1 ws2 : tally p (ws1 ++ ws2) = (tally p ws1 + tally p ws2)%nat.
Proof. induction ws1 as [|w ws1 IH]; simpl; [done|]. rewrite IH. lia. Qed.

Lemma tally_insert p ws i w w' :
  ws !! i = Some w ->
  (tally p (<[i := w']> ws) + (if p w then 1 else 0)
   = tally p ws + (if p w' then 1 else 0))%nat.
Proof.
  intros Hi. pose proof (lookup_lt_Some _ _ _ Hi) as Hlt.
  rewrite insert_take_drop by done.
  rewrite <- (take_drop_middle ws i w Hi) at 3.
  rewrite !tally_app. simpl. lia.
Qed.

Definition completed (w : worker) : bool :=
  match w_status w with Completed => true | _ => false end.

Lemma tally_completed_won ws : (tally completed ws <= tally won ws)%nat.
Proof.
  induction ws as [|[node st] ws IH]; simpl; [done|].
  destruct st; simpl; lia.
Qed.

(** Every node but the root was appended by a call that has completed,
    and every call that got past the check added its identifier to the
    processed-set. *)
Definition size_inv (cfg : Config) (sys : System) : Prop :=
  (driver sys = Start -> workers sys = [] /\ artist_queue (shared sys) = [])
  /\ Z.of_nat (length (workers sys) + length (artist_queue (shared sys)))
     <= 1 + related_limit cfg * Z.of_nat (tally completed (workers sys))
  /\ tally won (workers sys) = size (processed_artists (shared sys)).

Lemma step_size_inv cfg sys sys' :
  0 <= related_limit cfg ->
  size_inv cfg sys -> step_spec cfg sys sys' -> size_inv cfg sys'.
Proof.
  intros HN (H0 & H1 & H2) Hstep.
  destruct Hstep; unfold size_inv; cbn [driver workers shared].
  - destruct (core_inv _ _ (run_invalid_core (shared sys))) as (-> & -> & _).
    by split.
  - match goal with Hd : driver sys = Start |- _ => destruct (H0 Hd) as [Hw Hq] end.
    split; [done|]. rewrite Hw in *. cbn [tally length] in *.
    destruct (run_setup_cases cfg env (shared sys)) as [Hc|(id & nm & -> & _ & ->)].
    + apply core_inv in Hc as (-> & -> & _). rewrite Hq. cbn [length tally Nat.add].
      split; [lia | exact H2].
    + rewrite Hq. cbn [length tally Nat.add app]. split; [lia | exact H2].
  - match goal with Hd : driver sys = Start |- _ => destruct (H0 Hd) as [Hw Hq] end.
    destruct (core_inv _ _ (run_failed_core env e (run_setup cfg env (shared sys)).2))
      as (-> & -> & _).
    split; [done|]. rewrite Hw in *. cbn [tally length] in *.
    destruct (run_setup_cases cfg env (shared sys)) as [Hc|(id & nm & -> & _ & ->)].
    + apply core_inv in Hc as (-> & -> & _). rewrite Hq. cbn [length tally Nat.add].
      split; [lia | exact H2].
    + rewrite Hq. cbn [length tally Nat.add app]. split; [lia | exact H2].
  - by split.
  - destruct (core_inv _ _ (run_finished_core env (shared sys))) as (-> & -> & _).
    by split.
  - by split.
  - split; [done|]. cbn [artist_queue set_artist_queue processed_artists
                         set_processed_artists].
    match goal with Hq : artist_queue (shared sys) = _ |- _ => rewrite Hq in H1 end.
    rewrite !tally_app, length_app. cbn [tally length completed won w_status] in *.
    split; [|lia]. rewrite Nat.add_0_r. lia.
  - by split.
  - match goal with Hi : workers sys !! i = Some _ |- _ =>
      pose proof (tally_insert completed _ _ _ (mkWorker node Running) Hi) as Hc;
      pose proof (tally_insert won _ _ _ (mkWorker node Running) Hi) as Hwon;
      pose proof Hi as Hi' end.
    cbn [completed won w_status] in Hc, Hwon.
    split; [|split].
    + intros Hd. destruct (H0 Hd) as [Hw _]. rewrite Hw in Hi'. done.
    + rewrite length_insert. cbn [artist_queue set_processed_artists].
      replace (tally completed (<[i:=mkWorker node Running]> (workers sys)))
        with (tally completed (workers sys)) by lia.
      exact H1.
    + cbn [processed_artists set_processed_artists].
      rewrite size_union by (by apply disjoint_singleton_r). rewrite size_singleton. lia.
  - match goal with Hi : workers sys !! i = Some _ |- _ =>
      pose proof (tally_insert completed _ _ _ (mkWorker node Skipped) Hi) as Hc;
      pose proof (tally_insert won _ _ _ (mkWorker node Skipped) Hi) as Hwon;
      pose proof Hi as Hi' end.
    cbn [completed won w_status] in Hc, Hwon.
    split; [|split].
    + intros Hd. destruct (H0 Hd) as [Hw _]. rewrite Hw in Hi'. done.
    + rewrite length_insert.
      replace (tally completed (<[i:=mkWorker node Skipped]> (workers sys)))
        with (tally completed (workers sys)) by lia.
      exact H1.
    + lia.
  - match goal with Hi : workers sys !! i = Some _ |- _ =>
      pose proof (tally_insert completed _ _ _ (mkWorker node Completed) Hi) as Hc;
      pose proof (tally_insert won _ _ _ (mkWorker node Completed) Hi) as Hwon;
      pose proof Hi as Hi' end.
    cbn [completed won w_status] in Hc, Hwon.
    destruct (process_artist_body_grows cfg env node (shared sys) HN) as (new & -> & Hnew).
    rewrite process_artist_body_processed.
    split; [|split].
    + intros Hd. destruct (H0 Hd) as [Hw _]. rewrite Hw in Hi'. done.
    + rewrite length_insert, length_app.
      replace (tally completed (<[i:=mkWorker node Completed]> (workers sys)))
        with (S (tally completed (workers sys))) by lia.
      nia.
    + lia.
  - destruct (stop_core env (shared sys)) as [Hc _].
    apply core_inv in Hc as (-> & -> & _). by split.
Qed.

Lemma reachable_size_inv cfg sys :
  0 <= related_limit cfg -> reachable cfg sys -> size_inv cfg sys.
Proof.
  intros HN. revert sys. apply (reachable_ind cfg (size_inv cfg)).
  - split; [done|]. split; [cbn; lia | done].
  - intros s s' _ H Hstep. by eapply step_size_inv.
Qed.

Lemma reachable_dispatch_order cfg sys : reachable cfg sys -> dispatch_order sys.
Proof.
  revert sys. apply (reachable_ind cfg dispatch_order); [done|].
  intros s s' Hr H Hstep. eapply step_dispatch_order; eauto using reachable_valid_refs.
Qed.

(** X20. With a cap and a related limit [N] that are not negative, the
    tree never holds more than [1 + N * max_artists] nodes, whatever the
    catalogs answer and however the threads interleave: the root, and at
    most [N] children for each identifier of the processed-set. *)
Theorem tree_size_bounded cfg sys :
  0 <= max_artists cfg -> 0 <= related_limit cfg -> reachable cfg sys ->
  Z.of_nat (length (heap (shared sys)))
  <= 1 + related_limit cfg * Z.of_nat (size (processed_artists (shared sys)))
  /\ Z.of_nat (length (heap (shared sys))) <= 1 + related_limit cfg * max_artists cfg.
Proof.
  intros HM HN Hr.
  destruct (reachable_size_inv cfg sys HN Hr) as (_ & H1 & H2).
  pose proof (reachable_dispatch_order cfg sys Hr) as Hd.
  pose proof (reachable_cap cfg sys HM Hr) as Hcap.
  pose proof (tally_completed_won (workers sys)) as Hcw.
  assert (Hlen : length (heap (shared sys))
                 = (length (workers sys) + length (artist_queue (shared sys)))%nat).
  { pose proof (f_equal length Hd) as Hl.
    rewrite length_app, length_fmap, length_seq in Hl. by rewrite Hl. }
  rewrite Hlen. split; nia.
Qed.

Lemma tree_size_bounded_witness :
  Z.of_nat (length (heap (shared Scenario.final)))
  <= 1 + related_limit Scenario.cfg
         * Z.of_nat (size (processed_artists (shared Scenario.final)))
  /\ Z.of_nat (length (heap (shared Scenario.final)))
     <= 1 + related_limit Scenario.cfg * max_artists Scenario.cfg.
Proof.
  apply (tree_size_bounded Scenario.cfg Scenario.final).
  - vm_compute. discriminate.
  - vm_compute. discriminate.
  - exists Scenario.schedule. vm_compute. reflexivity.
Defined.

(** ** The word characters *)
(** The word characters among the 256 code points. *)
Lemma is_word_table :
  filter (fun n => PyStr.is_word (ascii_of_nat n) = true) (seq 0 256)
  = (seq 48 10 ++ seq 65 26 ++ [95] ++ seq 97 26 ++ [170; 178; 179; 181; 185; 186]
     ++ seq 188 3 ++ seq 192 23 ++ seq 216 31 ++ seq 248 8)%nat.
Proof. vm_compute. reflexivity. Qed.

Lemma search_artist_id_latin1 :
  search_artist_id ("https://open.spotify.com/artist/Beyonc"
                    +:+ String (ascii_of_nat 233) "Knowles?si=1")
  = Some ("Beyonc" +:+ String (ascii_of_nat 233) "Knowles").
Proof. vm_compute. reflexivity. Qed.

(** ** The related limit at zero *)

Definition zero_limit_cfg : Config :=
  mkConfig "https://open.spotify.com/artist/S" "out" 50 5 false true 3 0.

(** C6, as stated, fails: with a related limit of 0 the loop keeps the
    first candidate that brings a new genre before it tests the limit, and
    the function returns one artist. *)
Lemma zero_limit_returns_one :
  ~ (forall cfg env source_artist related_artists st out,
       (get_wildly_different_artists cfg env source_artist related_artists st).1 = Ok out ->
       Z.of_nat (length out) <= related_limit cfg).
Proof.
  intros H.
  assert (E : (get_wildly_different_artists zero_limit_cfg Genres.world Genres.source
                 [Genres.c3] Genres.pop_seen).1 = Ok [Genres.c3]).
  { unfold get_wildly_different_artists. rewrite bind_unfold.
    cbn [modify]. rewrite bind_unfold.
    rewrite (wildly_different_loop_cons zero_limit_cfg Genres.world Genres.c3 [] [] _
               Genres.c3 eq_refl).
    cbn zeta. rewrite decide_False.
    - reflexivity.
    - intros Hempty.
      assert (Hin : "rock" ∈ (list_to_set (sp_genres Genres.c3) : gset string)
                             ∖ processed_genres
                                 (set_processed_genres
                                    (fun g => g ∪ list_to_set (sp_genres Genres.source))
                                    Genres.pop_seen)).
      { apply elem_of_difference. split.
        - apply elem_of_list_to_set. by left.
        - cbn [processed_genres set_processed_genres Genres.pop_seen init_state].
          intros [Hp|Hp]%elem_of_union.
          + apply elem_of_singleton in Hp. discriminate.
          + apply elem_of_list_to_set, list_elem_of_singleton in Hp. discriminate. }
      rewrite Hempty in Hin. by apply elem_of_empty in Hin. }
  specialize (H _ _ _ _ _ _ E). vm_compute in H. by apply H.
Qed.

(** ** Cancellation with a call in flight *)

Module Cancelled.

(** The catalog cannot be reached. *)
Definition offline : Env :=
  mkEnv (fun _ => Raise "connection lost") (sp_related Scenario.world)
        (dz_search Scenario.world) (dz_get_artist Scenario.world)
        (fs_prepare Scenario.world) (deemix Scenario.world) (fs_remove Scenario.world)
        [] [] (path_join Scenario.world) (bracketed_host_ok Scenario.world).

(** The run of [Scenario] up to the moment where B and C have been
    submitted and B is past the check. *)
Definition before : list label := take 9 Scenario.schedule ++ [WorkerLock 1].

(** [stop] is called; then the catalog fails B, C goes through, and the
    driver comes back from [as_completed]. *)
Definition after : list label :=
  [StopRequest Scenario.world; WorkerBody 1 offline;
   WorkerLock 2; WorkerBody 2 Scenario.world; Scenario.d; Scenario.d].

Definition in_flight : System :=
  default init_system (exec Scenario.cfg before init_system).

(** Right after the call of [stop]. *)
Definition stopped : System :=
  default init_system (exec Scenario.cfg [StopRequest Scenario.world] in_flight).

Definition final : System :=
  default init_system (exec Scenario.cfg after in_flight).


End Cancelled.



(** ** Cancellation is cooperative *)

Lemma download_artist_returns cfg env deezer_artist n s :
  exists ok, (download_artist cfg env deezer_artist n s).1 = Ok ok.
Proof.
  unfold download_artist, try_except, read_node, emit, modify, lift, gets.
  rewrite ?bind_unfold. cbn -[String.append pretty node_at].
  destruct (fs_prepare env _) as [[]|e]; cbn -[String.append pretty node_at].
  - rewrite ?bind_unfold. cbn -[String.append pretty node_at].
    destruct (deemix env _) as [[]|e]; cbn -[String.append pretty node_at];
      rewrite ?bind_unfold; cbn -[String.append pretty node_at]; eauto.
  - rewrite ?bind_unfold. cbn -[String.append pretty node_at]. eauto.
Qed.

Lemma try_tail_preserves (P : State -> Prop) (m : M unit) handler s :
  preserves P m -> (forall e, preserves P (handler e)) -> P s ->
  P (match m s with
     | (Ok a, s') => (Ok a, s')
     | (Raise e, s') => handler e s'
     end).2.
Proof.
  intros Hm Hh H. specialize (Hm s H).
  destruct (m s) as [[a|e] s']; simpl in *; [done | by apply Hh].
Qed.

(** A call whose artist is found on both catalogs reports it, whatever
    happens afterwards in the call. *)
Lemma process_artist_body_reports cfg env n s a dz rest :
  sp_artist env (spotify_id (node_at s n)) = Ok a ->
  dz_search env (sp_name a) = Ok (dz :: rest) ->
  exists ok,
    ArtistFinished (sp_name a +:+ "|" +:+ spotify_id (node_at s n) +:+ "|"
                    +:+ pretty (dz_id dz)) ok
    ∈ trace (process_artist_body cfg env n s).2.
Proof.
  intros Ha Hs.
  unfold process_artist_body, read_node. rewrite bind_unfold. cbn [gets fst snd].
  unfold try_except at 1.
  rewrite bind_unfold. unfold call_artist at 1. rewrite bind_unfold.
  cbn [emit modify lift fst snd]. rewrite Ha.
  rewrite bind_unfold. unfold find_deezer_artist at 1, try_except at 1.
  rewrite !bind_unfold. cbn [emit modify lift fst snd]. rewrite Hs.
  rewrite bind_unfold. cbn [lift mret M_ret ret head fst snd].
  rewrite bind_unfold. cbn [assign_deezer_id modify fst snd].
  rewrite bind_unfold.
  match goal with |- context [download_artist cfg env dz n ?s3] =>
    destruct (download_artist_returns cfg env dz n s3) as [ok Hok];
    destruct (download_artist cfg env dz n s3) as [r s4] end.
  cbn [fst] in Hok. subst r. exists ok.
  rewrite bind_unfold. cbn [emit modify fst snd].
  set (ev := ArtistFinished _ ok).
  assert (Ht : forall e s0, e <> Finished -> ev ∈ trace s0 ->
                            ev ∈ trace (set_trace (fun t => t ++ [e]) s0)).
  { intros e s0 _ H. cbn [trace set_trace]. apply elem_of_app. by left. }
  apply (try_tail_preserves (fun s0 => ev ∈ trace s0)).
  - unfold get_wildly_different_artists, enqueue_child, append_child, queue_put.
    repeat first [ apply stable_loop; [exact Ht | by intros]
                 | apply Ht; [discriminate | assumption]
                 | preserves_step; eauto ].
  - intros e s0 H0. cbn beta.
    match goal with |- _ ∈ trace (?m s0).2 =>
      assert (Hp : preserves (fun s1 => ev ∈ trace s1) m) end.
    { repeat first [ apply Ht; [discriminate | assumption] | preserves_step ]. }
    by apply Hp.
  - cbn [trace set_trace]. apply elem_of_app. right. by left.
Qed.

(** X21. Cancellation is cooperative.  [stop] clears the flag.  With the
    flag cleared the driver, at the top of its loop, leaves the loop and
    submits nothing, even when nodes wait in the queue; from then on the
    flag stays cleared and the calls submitted plus those still to submit
    in the current batch never grow.  The calls of [process_artist] do not
    look at the flag: the same steps are possible and they do the same
    with the flag set or cleared, and a call in flight whose artist is
    found on both catalogs reports it although the flag is cleared.  The
    run has stopped only in states where every submitted call has
    returned. *)
Theorem cancellation_is_cooperative cfg :
  (forall env sys, is_running (stop env (shared sys)).2 = false)
  /\ (forall env sys,
        driver sys = LoopTop -> is_running (shared sys) = false ->
        driver_step cfg env sys
        = Some (mkSystem (run_finished env (shared sys)).2 Stopped (workers sys))
        /\ artist_queue (run_finished env (shared sys)).2 = artist_queue (shared sys))
  /\ (forall ls sys sys',
        is_running (shared sys) = false -> exec cfg ls sys = Some sys' ->
        is_running (shared sys') = false
        /\ (length (workers sys') + pending (driver sys')
            <= length (workers sys) + pending (driver sys))%nat)
  /\ (forall b i env sys,
        worker_lock cfg i (with_flag b sys) = with_flag b <$> worker_lock cfg i sys
        /\ worker_body cfg i env (with_flag b sys)
           = with_flag b <$> worker_body cfg i env sys)
  /\ (forall i env sys node a dz rest,
        is_running (shared sys) = false ->
        workers sys !! i = Some (mkWorker node Running) ->
        sp_artist env (spotify_id (node_at (shared sys) node)) = Ok a ->
        dz_search env (sp_name a) = Ok (dz :: rest) ->
        exists sys' ok,
          worker_body cfg i env sys = Some sys'
          /\ workers sys' = <[i := mkWorker node Completed]> (workers sys)
          /\ ArtistFinished (sp_name a +:+ "|" +:+ spotify_id (node_at (shared sys) node)
                             +:+ "|" +:+ pretty (dz_id dz)) ok
             ∈ trace (shared sys'))
  /\ (forall sys, reachable cfg sys -> driver sys = Stopped ->
        forallb returned (workers sys) = true).
Proof.
  split; [intros env sys; by destruct (stop_core env (shared sys))|].
  split.
  { intros env sys Hpc Hoff. unfold driver_step. rewrite Hpc.
    unfold loop_test. rewrite Hoff, andb_false_r. split; [done|].
    by destruct (core_inv _ _ (run_finished_core env (shared sys))) as (_ & ? & _). }
  split; [intros ls sys sys'; apply exec_after_cancel|].
  split.
  { intros b i env sys. split.
    - unfold worker_lock, with_flag. cbn [workers shared driver].
      destruct (workers sys !! i) as [[node []]|]; try done.
      rewrite (process_artist_locked_ignores_flag b cfg node (shared sys)).
      destruct (process_artist_locked cfg node (shared sys)) as [[[]|e] st']; done.
    - unfold worker_body, with_flag. cbn [workers shared driver].
      destruct (workers sys !! i) as [[node []]|]; try done.
      by rewrite (process_artist_body_ignores_flag b cfg env node (shared sys)). }
  split.
  { intros i env sys node a dz rest _ Hi Ha Hs.
    destruct (process_artist_body_reports cfg env node (shared sys) a dz rest Ha Hs)
      as [ok Hok].
    eexists _, ok. unfold worker_body. rewrite Hi. split; [reflexivity|].
    split; [reflexivity | exact Hok]. }
  intros sys Hr Hpc. apply (reachable_quiet cfg sys Hr). by rewrite Hpc.
Qed.

Lemma cancellation_is_cooperative_witness :
  (is_running (shared Cancelled.final) = false
   /\ (length (workers Cancelled.final) + pending (driver Cancelled.final)
       <= length (workers Cancelled.stopped) + pending (driver Cancelled.stopped))%nat)
  /\ forallb returned (workers Cancelled.final) = true.
Proof.
  split.
  - apply (proj1 (proj2 (proj2 (cancellation_is_cooperative Scenario.cfg)))
             (tail Cancelled.after) Cancelled.stopped Cancelled.final);
      vm_compute; reflexivity.
  - apply (proj2 (proj2 (proj2 (proj2 (proj2
             (cancellation_is_cooperative Scenario.cfg))))) Cancelled.final).
    + exists (Cancelled.before ++ Cancelled.after). vm_compute. reflexivity.
    + vm_compute. reflexivity.
Defined.

(** ** No node is handed out twice *)

Lemma for_each_enqueue_child_heap n l s :
  length (heap (for_each l (enqueue_child n) s).2) = (length (heap s) + length l)%nat.
Proof.
  revert s. induction l as [|x l IH]; intros s.
  - cbn. lia.
  - cbn [for_each]. rewrite bind_unfold, enqueue_child_eq. rewrite IH.
    cbn [heap set_heap set_artist_queue length].
    rewrite length_alter, length_app. cbn [length]. lia.
Qed.

(** Queue and tree are as they were. *)
Definition untouched (q0 : list addr) (h0 : nat) (s : State) : Prop :=
  artist_queue s = q0 /\ length (heap s) = h0.

(** The queue has grown by the nodes that were built, and by nothing
    else. *)
Definition fresh_tail (q0 : list addr) (h0 : nat) (s : State) : Prop :=
  (h0 <= length (heap s))%nat
  /\ artist_queue s = q0 ++ seq h0 (length (heap s) - h0).

Lemma untouched_fresh q0 h0 s : untouched q0 h0 s -> fresh_tail q0 h0 s.
Proof.
  intros [Hq Hh]. split; [lia|]. rewrite Hq, Hh, Nat.sub_diag. cbn.
  by rewrite app_nil_r.
Qed.

Lemma process_artist_body_fresh cfg env n st :
  fresh_tail (artist_queue st) (length (heap st)) (process_artist_body cfg env n st).2.
Proof.
  set (q0 := artist_queue st). set (h0 := length (heap st)).
  assert (Ht : forall f s, untouched q0 h0 s -> untouched q0 h0 (set_trace f s)) by done.
  assert (Hg : forall f s, untouched q0 h0 s -> untouched q0 h0 (set_processed_genres f s))
    by done.
  assert (Hft : forall f s, fresh_tail q0 h0 s -> fresh_tail q0 h0 (set_trace f s)) by done.
  assert (H : leads (untouched q0 h0) (fresh_tail q0 h0) (process_artist_body cfg env n)).
  { unfold process_artist_body, read_node.
    apply (leads_bind _ (untouched q0 h0));
      [apply leads_keep, preserves_gets | intros nd | apply untouched_fresh].
    apply leads_try.
    2: { intros e. repeat (preserves_step; eauto). }
    apply (leads_bind _ (untouched q0 h0));
      [apply leads_keep; unfold call_artist; repeat (preserves_step; eauto)
      | intros spotify_artist | apply untouched_fresh].
    apply (leads_bind _ (untouched q0 h0));
      [apply leads_keep; unfold find_deezer_artist; repeat (preserves_step; eauto)
      | intros [dz|] | apply untouched_fresh].
    2: { apply leads_weaken; [repeat (preserves_step; eauto) | apply untouched_fresh]. }
    apply (leads_bind _ (untouched q0 h0));
      [apply leads_keep | intros _ | apply untouched_fresh].
    { unfold assign_deezer_id. apply preserves_modify. intros s [Hq Hh].
      split; [done|]. cbn [heap set_heap]. by rewrite length_alter. }
    apply (leads_bind _ (untouched q0 h0));
      [apply leads_keep; unfold download_artist; repeat (preserves_step; eauto)
      | intros success | apply untouched_fresh].
    apply (leads_bind _ (untouched q0 h0));
      [apply leads_keep; repeat (preserves_step; eauto)
      | intros _ | apply untouched_fresh].
    apply (leads_bind _ (untouched q0 h0));
      [apply leads_keep, preserves_gets | intros processed | apply untouched_fresh].
    destruct (_ && _).
    2: { apply leads_weaken; [apply preserves_ret | apply untouched_fresh]. }
    apply (leads_bind _ (untouched q0 h0));
      [apply leads_keep; repeat (preserves_step; eauto)
      | intros _ | apply untouched_fresh].
    apply (leads_bind _ (untouched q0 h0));
      [apply leads_keep, preserves_lift | intros related_artists | apply untouched_fresh].
    apply (leads_bind _ (untouched q0 h0));
      [apply leads_keep | intros selected | apply untouched_fresh].
    { destruct (wildly_different cfg); [|apply preserves_ret].
      unfold get_wildly_different_artists.
      repeat first [ apply wildly_different_loop_preserves; [exact Ht | exact Hg]
                   | preserves_step; eauto ]. }
    apply (leads_bind _ (fresh_tail q0 h0)); [| intros _ | done].
    - intros s [Hq Hh].
      destruct (for_each_enqueue_child n (py_slice_to selected (related_limit cfg)) s)
        as [_ Hq'].
      pose proof (for_each_enqueue_child_heap n
                    (py_slice_to selected (related_limit cfg)) s) as Hh'.
      split; [lia|]. rewrite Hq', Hh', Hq, Hh. do 2 f_equal. lia.
    - apply leads_keep. repeat (preserves_step; eauto). }
  by apply H.
Qed.

(** The nodes handed to the pool and the nodes waiting in the queue. *)
Definition handed_out (sys : System) : list addr :=
  (w_node <$> workers sys) ++ artist_queue (shared sys).

Definition nodes_once (sys : System) : Prop :=
  NoDup (handed_out sys)
  /\ Forall (fun a => (a < length (heap (shared sys)))%nat) (handed_out sys).

Lemma nodes_once_core sys st' pc :
  core st' = core (shared sys) -> nodes_once sys ->
  nodes_once (mkSystem st' pc (workers sys)).
Proof.
  intros Hc. apply core_inv in Hc as (_ & Hq & Hh).
  unfold nodes_once, handed_out. cbn [shared workers]. by rewrite Hq, Hh.
Qed.

Lemma nodes_once_fresh sys st' pc ws' :
  w_node <$> ws' = w_node <$> workers sys ->
  fresh_tail (artist_queue (shared sys)) (length (heap (shared sys))) st' ->
  nodes_once sys -> nodes_once (mkSystem st' pc ws').
Proof.
  intros Hws [Hle Hq] [Hnd Hall]. unfold nodes_once, handed_out in *.
  cbn [shared workers]. rewrite Hws, Hq, app_assoc.
  set (h0 := length (heap (shared sys))) in *.
  set (k := (length (heap st') - h0)%nat).
  split.
  - apply NoDup_app. split; [exact Hnd|]. split; [|apply NoDup_seq].
    intros a Ha Hs. apply elem_of_seq in Hs.
    rewrite Forall_forall in Hall. specialize (Hall a Ha). lia.
  - apply Forall_app. split.
    + eapply Forall_impl; [exact Hall|]. intros a Ha. simpl in *. lia.
    + apply Forall_forall. intros a Hs. apply elem_of_seq in Hs. unfold k in *. lia.
Qed.

Lemma nodes_once_setup cfg env sys pc :
  nodes_once sys -> nodes_once (mkSystem (run_setup cfg env (shared sys)).2 pc (workers sys)).
Proof.
  intros H. destruct (run_setup_cases cfg env (shared sys)) as [Hc|(id & nm & _ & Hh & Hq)].
  - by apply (nodes_once_core sys).
  - apply (nodes_once_fresh sys); [done | | exact H].
    split; [rewrite Hh, length_app; lia|].
    rewrite Hq, Hh, length_app. cbn [length].
    replace (length (heap (shared sys)) + 1 - length (heap (shared sys)))%nat
      with 1%nat by lia.
    reflexivity.
Qed.

Lemma step_nodes_once cfg sys sys' :
  nodes_once sys -> step_spec cfg sys sys' -> nodes_once sys'.
Proof.
  intros H Hstep. destruct Hstep.
  - apply (nodes_once_core sys); [apply run_invalid_core | exact H].
  - by apply nodes_once_setup.
  - apply (nodes_once_core
             (mkSystem (run_setup cfg env (shared sys)).2 Stopped (workers sys)));
      [apply run_failed_core | by apply nodes_once_setup].
  - exact H.
  - apply (nodes_once_core sys); [apply run_finished_core | exact H].
  - exact H.
  - destruct H as [Hnd Hall]. unfold nodes_once, handed_out in *.
    cbn [shared workers artist_queue set_artist_queue heap] in *.
    match goal with Hq : artist_queue (shared sys) = _ |- _ => rewrite Hq in * end.
    rewrite fmap_app, <- app_assoc. cbn [fmap list_fmap app w_node]. by split.
  - exact H.
  - destruct H as [Hnd Hall]. unfold nodes_once, handed_out in *.
    cbn [shared workers artist_queue set_processed_artists heap] in *.
    by erewrite fmap_w_node_insert.
  - destruct H as [Hnd Hall]. unfold nodes_once, handed_out in *.
    cbn [shared workers] in *. by erewrite fmap_w_node_insert.
  - apply (nodes_once_fresh sys); [by erewrite fmap_w_node_insert | | exact H].
    apply process_artist_body_fresh.
  - apply (nodes_once_core sys); [|exact H]. by destruct (stop_core env (shared sys)).
Qed.

(** X4. No node is handed out twice: in every state a run can reach,
    the nodes submitted to the pool so far and the nodes waiting in the
    queue are nodes of the tree, and no node occurs twice among them. *)
Theorem node_handed_out_once cfg sys :
  reachable cfg sys ->
  NoDup ((w_node <$> workers sys) ++ artist_queue (shared sys))
  /\ Forall (fun a => (a < length (heap (shared sys)))%nat)
       ((w_node <$> workers sys) ++ artist_queue (shared sys)).
Proof.
  revert sys. apply (reachable_ind cfg nodes_once).
  - split; [apply NoDup_nil_2 | constructor].
  - intros s s' _ H Hstep. by eapply step_nodes_once.
Qed.

Lemma node_handed_out_once_witness :
  NoDup ((w_node <$> workers Scenario.final) ++ artist_queue (shared Scenario.final))
  /\ Forall (fun a => (a < length (heap (shared Scenario.final)))%nat)
       ((w_node <$> workers Scenario.final) ++ artist_queue (shared Scenario.final)).
Proof.
  apply (node_handed_out_once Scenario.cfg).
  exists Scenario.schedule. vm_compute. reflexivity.
Defined.
